(** * cruet: HTTP request parser, cookie parser and routing engine

    A shallow embedding of the C hot path of cruet
    ([server/http_parser.c], [http/cookies.c], [util/percent_encode.c],
    [http/querystring.c], [routing/rule.c], [routing/map.c]), the
    properties of it that the specification states, and further
    properties that the code has.

    Conventions of the embedding:
    - a C buffer [(const char *p, size_t len)] is a [list ascii]; a pointer
      into it is the suffix that starts there, and a pointer difference is a
      [nat] count of bytes;
    - [PyUnicode_DecodeLatin1] and [PyUnicode_FromStringAndSize] keep the
      bytes as they are, so Python strings are [list ascii] too;
    - a Python [dict] with string keys is a [gmap (list ascii) _], a
      [frozenset] of strings a [gset (list ascii)];
    - a function that returns [Py_None] or an object returns an [option];
    - a Python string that the code receives as a C string (the format
      [s], or [PyUnicode_AsUTF8] measured with [strlen]) holds no NUL
      byte, Python refusing the others before the code runs; the model
      takes the bytes of such an argument as they are;
    - allocation failures (the [NULL] returns of the C API) are not
      modelled. *)

From Stdlib Require Import ZArith List Ascii String Bool Lia DecimalString DecimalPos.
From stdpp Require Import base option list gmap strings.

Import ListNotations.
Local Open Scope char_scope.
Local Open Scope list_scope.

(** ** Bytes and C idioms shared by all components *)

Abbreviation bytes := (list ascii).

Definition B (s : string) : bytes := list_ascii_of_string s.

Definition CR : ascii := "013".
Definition LF : ascii := "010".
Definition CRLF : bytes := [CR; LF].
Definition DQUOTE : ascii := "034".

(** [while (p < end && keep( *p)) p++] : the number of bytes the pointer
    advances. *)
Fixpoint scan_while (keep : ascii -> bool) (l : bytes) : nat :=
  match l with
  | c :: l' => if keep c then S (scan_while keep l') else 0
  | [] => 0
  end.

(** [while (e > s && drop( *(e-1))) e--] : the length that is left when the
    end pointer has walked back over the trailing bytes to drop. *)
Definition scan_back (drop : ascii -> bool) (l : bytes) : nat :=
  length l - scan_while drop (rev l).

(** [*p != c] *)
Definition not_char (c d : ascii) : bool := negb (Ascii.eqb d c).

Definition is_sp_tab (c : ascii) : bool := Ascii.eqb c " " || Ascii.eqb c "009".

(** [p < end && *p == c] *)
Definition head_is (c : ascii) (p : bytes) : bool :=
  match p with
  | d :: _ => Ascii.eqb d c
  | [] => false
  end.

(** [tolower] of the C locale. *)
Definition tolower (c : ascii) : ascii :=
  let n := nat_of_ascii c in
  if (65 <=? n)%nat && (n <=? 90)%nat then ascii_of_nat (n + 32) else c.

(** [len(a) == n && strncasecmp(a, lit, n) == 0] for a literal [lit] of [n]
    bytes without NUL. *)
Fixpoint ci_eq (a lit : bytes) : bool :=
  match a, lit with
  | [], [] => true
  | c :: a', d :: lit' => Ascii.eqb (tolower c) (tolower d) && ci_eq a' lit'
  | _, _ => false
  end.

(** [isspace] of the C locale. *)
Definition isspace (c : ascii) : bool :=
  let n := nat_of_ascii c in
  (n =? 32)%nat || ((9 <=? n)%nat && (n <=? 13)%nat).

Definition digit_val (c : ascii) : option Z :=
  let n := nat_of_ascii c in
  if (48 <=? n)%nat && (n <=? 57)%nat then Some (Z.of_nat n - 48)%Z else None.

Definition LONG_MAX : Z := (2 ^ 63 - 1)%Z.
Definition LONG_MIN : Z := (- 2 ^ 63)%Z.

Fixpoint strtol_digits (acc : Z) (l : bytes) : Z :=
  match l with
  | c :: l' =>
      match digit_val c with
      | Some d => strtol_digits (acc * 10 + d)%Z l'
      | None => acc
      end
  | [] => acc
  end.

(** [strtol(s, NULL, 10)] on a NUL-terminated copy of [s], for a 64-bit
    [long]: leading white space, an optional sign, the longest run of
    digits, saturating at [LONG_MIN] and [LONG_MAX]. *)
Definition strtol (s : bytes) : Z :=
  let s1 := skipn (scan_while isspace s) s in
  let '(neg, s2) :=
    match s1 with
    | "-" :: t => (true, t)
    | "+" :: t => (false, t)
    | _ => (false, s1)
    end in
  let v := strtol_digits 0 s2 in
  if neg : bool then Z.max LONG_MIN (- v) else Z.min LONG_MAX v.

(** The pieces of [s] between the separators [sep]. *)
Fixpoint split_on (sep : ascii) (s : bytes) : list bytes :=
  match s with
  | [] => [[]]
  | c :: s' =>
      if Ascii.eqb c sep then [] :: split_on sep s'
      else
        match split_on sep s' with
        | seg :: segs => (c :: seg) :: segs
        | [] => [[c]]
        end
  end.

(** [len(a) == len(b) && memcmp(a, b, len) == 0] *)
Definition bytes_eqb (a b : bytes) : bool := bool_decide (a = b).

(** ** The HTTP request parser ([cruet_parse_http_request]) *)

Module HttpParser.

(** [find_crlf]: offset of the first CR LF pair. *)
Fixpoint find_crlf (buf : bytes) : option nat :=
  match buf with
  | c :: ((d :: _) as tl) =>
      if Ascii.eqb c CR && Ascii.eqb d LF then Some 0%nat
      else S <$> find_crlf tl
  | _ => None
  end.

(** The dict the parser returns. *)
Record ParsedRequest := {
  method : bytes;
  path : bytes;
  version : bytes;
  query_string : bytes;
  headers : gmap bytes bytes;
  body : bytes;
  keep_alive : bool
}.

(** The locals of the header loop. *)
Record hstate := {
  hs_headers : gmap bytes bytes;
  hs_keep_alive : bool;
  hs_content_length : Z
}.

Definition hstate_init : hstate :=
  {| hs_headers := ∅; hs_keep_alive := true; hs_content_length := (-1)%Z |}.

(** The body of the header loop for one line [hname ":" hvalue]. *)
Definition header_step (hname hvalue : bytes) (st : hstate) : hstate :=
  {| hs_headers := <[hname := hvalue]> (hs_headers st);
     hs_keep_alive :=
       if ci_eq hname (B "Connection") && ci_eq hvalue (B "close")
       then false else hs_keep_alive st;
     hs_content_length :=
       if ci_eq hname (B "Content-Length") && (length hvalue <? 32)%nat
       then strtol hvalue else hs_content_length st |}.

(** The header loop, from [hp]: the state at its exit and the final [hp].
    Every iteration that continues moves [hp] by at least two bytes, so
    [length hp] iterations are enough; [None] is "out of fuel". *)
Fixpoint header_loop (fuel : nat) (hp : bytes) (st : hstate)
  : option (hstate * bytes) :=
  match hp with
  | [] => Some (st, hp)
  | _ =>
      match find_crlf hp with
      | None => Some (st, hp)
      | Some O => Some (st, skipn 2 hp)
      | Some n =>
          match fuel with
          | O => None
          | S fuel' =>
              let line := firstn n hp in
              let next := skipn (n + 2) hp in
              let colon := scan_while (not_char ":") line in
              if (length line <=? colon)%nat then header_loop fuel' next st
              else
                let hname := firstn colon line in
                let after := skipn (colon + 1) line in
                let hvalue := skipn (scan_while is_sp_tab after) after in
                header_loop fuel' next (header_step hname hvalue st)
          end
      end
  end.

(** The header loop with the fuel that is always enough
    ([header_loop_fuel] below): the second case is never taken. *)
Definition run_header_loop (hp : bytes) (st : hstate) : hstate * bytes :=
  match header_loop (length hp) hp st with
  | Some r => r
  | None => (st, hp)
  end.

(** The body, from the bytes [hp] that follow the headers. *)
Definition extract_body (content_length : Z) (hp : bytes) : bytes :=
  if (0 <? content_length)%Z && (content_length <=? Z.of_nat (length hp))%Z
  then firstn (Z.to_nat content_length) hp
  else if (content_length =? 0)%Z || (content_length =? -1)%Z then []
  else hp.

(** [None] is [Py_None]; [Some r] is the dict [r]. *)
Definition cruet_parse_http_request (data : bytes) : option ParsedRequest :=
  match data with
  | [] => None
  | _ =>
      match find_crlf data with
      | None => None
      | Some line_end =>
          let line := firstn line_end data in
          let method_len := scan_while (not_char " ") line in
          if (length line <=? method_len)%nat then None
          else
            let uri_on := skipn (method_len + 1) line in
            let uri_len := scan_while (not_char " ") uri_on in
            if (length uri_on <=? uri_len)%nat then None
            else
              let version := skipn (uri_len + 1) uri_on in
              if (length version <? 6)%nat then None
              else
                let uri := firstn uri_len uri_on in
                let path_len := scan_while (not_char "?") uri in
                let '(st, hp) :=
                  run_header_loop (skipn (line_end + 2) data) hstate_init in
                let body := extract_body (hs_content_length st) hp in
                Some {| method := firstn method_len line;
                        path := firstn path_len uri;
                        version := version;
                        query_string := skipn (path_len + 1) uri;
                        headers := hs_headers st;
                        body := body;
                        keep_alive := hs_keep_alive st |}
      end
  end.

(** *** The shape of a request, for stating what the parser returns *)

(** A header line as the loop reads it: not empty, no CR LF inside. *)
Definition header_line (h : bytes) : Prop := h <> [] /\ find_crlf h = None.

(** What follows the header lines: the blank line and the body bytes, or
    an unfinished line. *)
Inductive header_tail : bytes -> Prop :=
  | tail_blank rest : header_tail (CRLF ++ rest)
  | tail_unfinished t : find_crlf t = None -> header_tail t.

(** The header lines, each with its CR LF. *)
Definition block (hlines : list bytes) : bytes :=
  concat (map (fun h => h ++ CRLF) hlines).

(** What one iteration of the header loop does with the line [h]. *)
Definition apply_line (st : hstate) (h : bytes) : hstate :=
  let colon := scan_while (not_char ":") h in
  if (length h <=? colon)%nat then st
  else
    let after := skipn (colon + 1) h in
    header_step (firstn colon h) (skipn (scan_while is_sp_tab after) after) st.

(** The Content-Length the header lines declare, [-1] when they declare
    none. *)
Definition declared_content_length (hlines : list bytes) : Z :=
  hs_content_length (fold_left apply_line hlines hstate_init).



(** A request line [METHOD SP URI SP VERSION] as the parser accepts it. *)
Definition request_line (line m u v : bytes) : Prop :=
  line = m ++ " " :: u ++ " " :: v /\
  forallb (not_char " ") m = true /\
  forallb (not_char " ") u = true /\
  6 <= length v /\
  find_crlf line = None.

(** A header line as the loop cuts it: whether it has a colon, its name,
    and its value without the blanks that lead it. *)
Definition has_colon (h : bytes) : bool :=
  negb (length h <=? scan_while (not_char ":") h)%nat.

Definition header_name (h : bytes) : bytes :=
  firstn (scan_while (not_char ":") h) h.

Definition header_value (h : bytes) : bytes :=
  let after := skipn (scan_while (not_char ":") h + 1) h in
  skipn (scan_while is_sp_tab after) after.

(** The line has the name Content-Length, without regard to case. *)
Definition names_content_length (h : bytes) : bool :=
  has_colon h && ci_eq (header_name h) (B "Content-Length").

End HttpParser.

(** ** The cookie header parser ([cruet_parse_cookies]) *)

Module Cookies.

Definition is_skip (c : ascii) : bool := is_sp_tab c || Ascii.eqb c ";".

Definition name_char (c : ascii) : bool :=
  negb (Ascii.eqb c "=") && negb (Ascii.eqb c ";").

(** The loop over the header, from [p], filling [result].  Every iteration
    that continues consumes at least one byte, so [length p] iterations are
    enough; [None] is "out of fuel". *)
Fixpoint cookie_loop (fuel : nat) (p : bytes) (result : gmap bytes bytes)
  : option (gmap bytes bytes) :=
  let p := skipn (scan_while is_skip p) p in
  match p with
  | [] => Some result
  | _ =>
      match fuel with
      | O => None
      | S fuel' =>
          let name_len := scan_while name_char p in
          let raw_name := firstn name_len p in
          let p := skipn name_len p in
          if negb (head_is "=" p) then
            cookie_loop fuel' (skipn (scan_while (not_char ";") p) p) result
          else
            let name := firstn (scan_back is_sp_tab raw_name) raw_name in
            let p := skipn 1 p in
            let p := skipn (scan_while is_sp_tab p) p in
            let '(value, p) :=
              if head_is DQUOTE p then
                let p := skipn 1 p in
                let n := scan_while (not_char DQUOTE) p in
                (firstn n p, skipn (n + 1) p)
              else
                let n := scan_while (not_char ";") p in
                let raw := firstn n p in
                (firstn (scan_back is_sp_tab raw) raw, skipn n p) in
            cookie_loop fuel' p
              (match name with
               | [] => result
               | _ => <[name := value]> result
               end)
      end
  end.

(** The loop with the fuel that is always enough ([cookie_loop_fuel]
    below): the second case is never taken. *)
Definition cruet_parse_cookies (cookie_str : bytes) : gmap bytes bytes :=
  match cookie_loop (length cookie_str) cookie_str ∅ with
  | Some result => result
  | None => ∅
  end.

(** *** The parser as the specification words it *)

Definition ltrim (l : bytes) : bytes := skipn (scan_while is_sp_tab l) l.
Definition rtrim (l : bytes) : bytes := firstn (scan_back is_sp_tab l) l.
Definition trim (l : bytes) : bytes := rtrim (ltrim l).

(** One layer of quotes, taken off a trimmed value that has them at both
    ends. *)
Definition unquote (v : bytes) : bytes :=
  if head_is DQUOTE v && head_is DQUOTE (rev (skipn 1 v))
  then rev (skipn 1 (rev (skipn 1 v)))
  else v.

(** The parser as the specification words it, to compare with the scan
    above: "split on [;], find first [=] per segment, trim surrounding
    whitespace, accept one layer of quoting without unescaping inner
    characters, silently skip any segment lacking [=]; later duplicate
    names overwrite earlier ones". *)
Definition spec_segment (seg : bytes) : option (bytes * bytes) :=
  let i := scan_while (not_char "=") seg in
  if (length seg <=? i)%nat then None
  else Some (trim (firstn i seg), unquote (trim (skipn (i + 1) seg))).

Definition add_cookie (f : bytes -> option (bytes * bytes))
    (d : gmap bytes bytes) (seg : bytes) : gmap bytes bytes :=
  match f seg with
  | Some (name, value) => <[name := value]> d
  | None => d
  end.

Definition spec_parse_cookies (s : bytes) : gmap bytes bytes :=
  fold_left (add_cookie spec_segment) (split_on ";" s) ∅.

(** The value of a segment as the code reads it: a value that begins with
    a quote runs to the next quote, any other value to the end of the
    segment, less its trailing blanks. *)
Definition cookie_value (v : bytes) : bytes :=
  let v := ltrim v in
  if head_is DQUOTE v
  then firstn (scan_while (not_char DQUOTE) (skipn 1 v)) (skipn 1 v)
  else rtrim v.

(** A segment as the code reads it: as the specification has it, except
    that a segment with an empty name is skipped too. *)
Definition code_segment (seg : bytes) : option (bytes * bytes) :=
  let i := scan_while (not_char "=") seg in
  if (length seg <=? i)%nat then None
  else
    match trim (firstn i seg) with
    | [] => None
    | name => Some (name, cookie_value (skipn (i + 1) seg))
    end.

Definition split_parse_cookies (s : bytes) : gmap bytes bytes :=
  fold_left (add_cookie code_segment) (split_on ";" s) ∅.

(** A quoted value is closed within its segment, and no [=] follows the
    closing quote there. *)
Definition well_quoted (seg : bytes) : Prop :=
  let v := ltrim (skipn (scan_while (not_char "=") seg + 1) seg) in
  head_is DQUOTE v = true ->
  let q := skipn 1 v in
  let n := scan_while (not_char DQUOTE) q in
  n < length q /\ forallb (not_char "=") (skipn (n + 1) q) = true.

(** The first byte of [l], if any, is no blank. *)
Definition no_lead_blank (l : bytes) : bool :=
  match l with
  | c :: _ => negb (is_sp_tab c)
  | [] => true
  end.

(** A name as the parser stores it: not empty, without [=] and [;], with
    no blank at either end. *)
Definition clean_name (k : bytes) : Prop :=
  k <> [] /\ forallb name_char k = true /\
  no_lead_blank k = true /\ no_lead_blank (rev k) = true.

(** A value that needs no quotes: without [;], with no blank at either
    end and no quote at its start. *)
Definition plain_value (v : bytes) : Prop :=
  forallb (not_char ";") v = true /\ head_is DQUOTE v = false /\
  no_lead_blank v = true /\ no_lead_blank (rev v) = true.

(** A value as the parser stores it: the inside of a quoted value, with
    no quote in it, or a plain value. *)
Definition clean_value (v : bytes) : Prop :=
  forallb (not_char DQUOTE) v = true \/ plain_value v.

(** The header that lists the cookies [kvs] as [name=value], with [; ]
    between them. *)
Fixpoint cookie_header (kvs : list (bytes * bytes)) : bytes :=
  match kvs with
  | [] => []
  | [(k, v)] => k ++ "=" :: v
  | (k, v) :: rest => k ++ "=" :: v ++ B "; " ++ cookie_header rest
  end.

(** What follows a segment: nothing, or a [;] and the rest. *)
Definition is_tail (tail : bytes) : Prop :=
  match tail with [] => True | c :: _ => c = ";" end.

End Cookies.

(** ** Percent encoding ([util/percent_encode.c]) *)

Module PercentEncode.

(** [hex_digit]: [None] is -1. *)
Definition hex_digit (c : ascii) : option nat :=
  let n := nat_of_ascii c in
  if (48 <=? n)%nat && (n <=? 57)%nat then Some (n - 48)
  else if (97 <=? n)%nat && (n <=? 102)%nat then Some (n - 97 + 10)
  else if (65 <=? n)%nat && (n <=? 70)%nat then Some (n - 65 + 10)
  else None.

(** [cruet_percent_decode], from the read pointer: the bytes it writes.
    The write pointer never passes the read pointer, so that the bytes
    still to read are those of the input. *)
Fixpoint cruet_percent_decode (str : bytes) : bytes :=
  match str with
  | [] => []
  | c :: rest =>
      let plain := (if Ascii.eqb c "+" then " " else c) :: cruet_percent_decode rest in
      if Ascii.eqb c "%" then
        match rest with
        | h :: l :: rest' =>
            match hex_digit h, hex_digit l with
            | Some hi, Some lo =>
                ascii_of_nat (hi * 16 + lo) :: cruet_percent_decode rest'
            | _, _ => plain
            end
        | _ => plain
        end
      else plain
  end.

(** [isalnum] of the C locale. *)
Definition isalnum (c : ascii) : bool :=
  let n := nat_of_ascii c in
  ((48 <=? n)%nat && (n <=? 57)%nat) || ((65 <=? n)%nat && (n <=? 90)%nat)
  || ((97 <=? n)%nat && (n <=? 122)%nat).

Definition needs_encode (c : ascii) : bool :=
  if isalnum c then false
  else if Ascii.eqb c "-" || Ascii.eqb c "_" || Ascii.eqb c "." || Ascii.eqb c "~"
       then false
       else true.

(** [hex[i]] for [hex = "0123456789ABCDEF"]. *)
Definition hex_upper (i : nat) : ascii :=
  nth i (B "0123456789ABCDEF") "000".

(** What the loop of [cruet_percent_encode] appends for the byte [c]. *)
Definition encode_byte (c : ascii) : bytes :=
  if needs_encode c
  then ["%"; hex_upper (nat_of_ascii c / 16); hex_upper (nat_of_ascii c mod 16)]
  else [c].

(** [cruet_percent_encode]: the bytes of the buffer, without the NUL that
    ends it. *)
Definition cruet_percent_encode (str : bytes) : bytes :=
  flat_map encode_byte str.

End PercentEncode.

(** ** The query string parser ([http/querystring.c])

    The argument is read with the format [s#], as the bytes of its UTF-8
    form; keys and values go back to Python strings through
    [PyUnicode_DecodeUTF8] with [surrogateescape], which fails on no bytes
    and gives different strings for different bytes, so that the dict is
    modelled with the bytes as keys and values. *)

Module QueryString.

(** The value of a hex digit as [qs_decode] finds it, [None] for -1. *)
Definition qs_hex (c : ascii) : option nat :=
  let n := nat_of_ascii c in
  if (48 <=? n)%nat && (n <=? 57)%nat then Some (n - 48)
  else if (97 <=? n)%nat && (n <=? 102)%nat then Some (n - 97 + 10)
  else if (65 <=? n)%nat && (n <=? 70)%nat then Some (n - 65 + 10)
  else None.

(** [qs_decode], from the read pointer: the bytes it writes. *)
Fixpoint qs_decode (str : bytes) : bytes :=
  match str with
  | [] => []
  | c :: rest =>
      let plain := (if Ascii.eqb c "+" then " " else c) :: qs_decode rest in
      if Ascii.eqb c "%" then
        match rest with
        | hi :: lo :: rest' =>
            match qs_hex hi, qs_hex lo with
            | Some hv, Some lv => ascii_of_nat (hv * 16 + lv) :: qs_decode rest'
            | _, _ => plain
            end
        | _ => plain
        end
      else plain
  end.

(** [*pair_end != '&' && *pair_end != ';'] *)
Definition in_pair (c : ascii) : bool :=
  negb (Ascii.eqb c "&") && negb (Ascii.eqb c ";").

(** What the loop does with the pair [pair], which is not empty: the
    value goes to the end of the list of its key. *)
Definition add_pair (result : gmap bytes (list bytes)) (pair : bytes)
  : gmap bytes (list bytes) :=
  let eq := scan_while (not_char "=") pair in
  let key := qs_decode (firstn eq pair) in
  let val := qs_decode (skipn (eq + 1) pair) in
  match result !! key with
  | Some existing => <[key := existing ++ [val]]> result
  | None => <[key := [val]]> result
  end.

(** The loop of [cruet_parse_qs], from [p].  Every iteration consumes at
    least one byte, so [length p] iterations are enough; [None] is "out of
    fuel". *)
Fixpoint parse_qs_loop (fuel : nat) (p : bytes)
    (result : gmap bytes (list bytes)) : option (gmap bytes (list bytes)) :=
  match p with
  | [] => Some result
  | _ =>
      match fuel with
      | O => None
      | S fuel' =>
          let n := scan_while in_pair p in
          parse_qs_loop fuel' (skipn (n + 1) p)
            (if (0 <? n)%nat then add_pair result (firstn n p) else result)
      end
  end.

(** The loop with the fuel that is always enough ([parse_qs_loop_spec] below):
    the second case is never taken. *)
Definition cruet_parse_qs (qs : bytes) : gmap bytes (list bytes) :=
  match parse_qs_loop (length qs) qs ∅ with
  | Some result => result
  | None => ∅
  end.

(** *** Query strings, for stating what the parser returns *)

(** The pieces of [s] between the separators [&] and [;]. *)
Fixpoint pairs_of (s : bytes) : list bytes :=
  match s with
  | [] => [[]]
  | c :: s' =>
      if in_pair c then
        match pairs_of s' with
        | seg :: segs => (c :: seg) :: segs
        | [] => [[c]]
        end
      else [] :: pairs_of s'
  end.

(** The key and the value of a pair, decoded. *)
Definition pair_key (pair : bytes) : bytes :=
  qs_decode (firstn (scan_while (not_char "=") pair) pair).

Definition pair_value (pair : bytes) : bytes :=
  qs_decode (skipn (scan_while (not_char "=") pair + 1) pair).

(** The values that the pairs [pairs] give to [key], in order; the empty
    pairs give nothing. *)
Definition pair_values (pairs : list bytes) (key : bytes) : list bytes :=
  pair_value <$> filter (fun p => p <> [] /\ pair_key p = key) pairs.

(** The query string that lists the fields [kvs], percent-encoded, as
    [key=value] with [&] between them. *)
Fixpoint query_of (kvs : list (bytes * bytes)) : bytes :=
  match kvs with
  | [] => []
  | [(k, v)] =>
      PercentEncode.cruet_percent_encode k ++ "="
        :: PercentEncode.cruet_percent_encode v
  | (k, v) :: rest =>
      PercentEncode.cruet_percent_encode k ++ "="
        :: PercentEncode.cruet_percent_encode v ++ "&" :: query_of rest
  end.

(** The values of the fields of [kvs] with the key [key], in order. *)
Definition values_of (kvs : list (bytes * bytes)) (key : bytes) : list bytes :=
  snd <$> filter (fun kv => kv.1 = key) kvs.

End QueryString.

(** ** The routing engine ([rule.c], [map.c]) *)

(** What the engine takes from outside the repository for [float]
    segments: the Python float type, [strtod] on a whole token ([None] when
    [strtod] stops before the end of the token), and [str] of a float. *)
Class FloatModel := {
  pyfloat : Type;
  strtod_token : bytes -> option pyfloat;
  float_str : pyfloat -> bytes
}.

Module Routing.

(** *** Methods *)

Definition CRUET_METHOD_GET : Z := 0x01.
Definition CRUET_METHOD_HEAD : Z := 0x02.
Definition CRUET_METHOD_POST : Z := 0x04.
Definition CRUET_METHOD_PUT : Z := 0x08.
Definition CRUET_METHOD_DELETE : Z := 0x10.
Definition CRUET_METHOD_PATCH : Z := 0x20.
Definition CRUET_METHOD_OPTIONS : Z := 0x40.
Definition CRUET_METHOD_TRACE : Z := 0x80.

Definition cruet_method_str_to_bit (s : bytes) : Z :=
  match length s with
  | 3 =>
      if bytes_eqb s (B "GET") then CRUET_METHOD_GET
      else if bytes_eqb s (B "PUT") then CRUET_METHOD_PUT
      else 0%Z
  | 4 =>
      if bytes_eqb s (B "HEAD") then CRUET_METHOD_HEAD
      else if bytes_eqb s (B "POST") then CRUET_METHOD_POST
      else 0%Z
  | 5 =>
      if bytes_eqb s (B "PATCH") then CRUET_METHOD_PATCH
      else if bytes_eqb s (B "TRACE") then CRUET_METHOD_TRACE
      else 0%Z
  | 6 => if bytes_eqb s (B "DELETE") then CRUET_METHOD_DELETE else 0%Z
  | 7 => if bytes_eqb s (B "OPTIONS") then CRUET_METHOD_OPTIONS else 0%Z
  | _ => 0%Z
  end.

(** [c >= 'a' && c <= 'z' ? c - 32 : c]; also [str.upper] on the ASCII
    method names the model takes. *)
Definition upper_az (c : ascii) : ascii :=
  let n := nat_of_ascii c in
  if (97 <=? n)%nat && (n <=? 122)%nat then ascii_of_nat (n - 32) else c.

(** *** Rules *)

Inductive SegmentType :=
  | SEG_STATIC
  | SEG_DYNAMIC_STRING
  | SEG_DYNAMIC_INT
  | SEG_DYNAMIC_FLOAT
  | SEG_DYNAMIC_UUID
  | SEG_DYNAMIC_PATH
  | SEG_DYNAMIC_ANY.

Definition SegmentType_eqb (a b : SegmentType) : bool :=
  match a, b with
  | SEG_STATIC, SEG_STATIC
  | SEG_DYNAMIC_STRING, SEG_DYNAMIC_STRING
  | SEG_DYNAMIC_INT, SEG_DYNAMIC_INT
  | SEG_DYNAMIC_FLOAT, SEG_DYNAMIC_FLOAT
  | SEG_DYNAMIC_UUID, SEG_DYNAMIC_UUID
  | SEG_DYNAMIC_PATH, SEG_DYNAMIC_PATH
  | SEG_DYNAMIC_ANY, SEG_DYNAMIC_ANY => true
  | _, _ => false
  end.

(** [static_len] is [length static_text]; the converter parameters of the
    C struct are never set or read by the engine and are left out. *)
Record RuleSegment := {
  seg_type : SegmentType;
  static_text : bytes;
  var_name : bytes;
  any_items : option (list bytes)
}.

Record Cruet_Rule := {
  rule_str : bytes;
  endpoint : option bytes;
  methods_bitmask : Z;
  methods_extra : option (gset bytes);
  strict_slashes : bool;
  segments : list RuleSegment;
  is_static : bool
}.

Definition cruet_rule_has_method (rule : Cruet_Rule) (method_bit : Z)
    (method_py : bytes) : bool :=
  if negb (method_bit =? 0)%Z
  then negb (Z.land (methods_bitmask rule) method_bit =? 0)%Z
  else
    match methods_extra rule with
    | None => false
    | Some extra => bool_decide (method_py ∈ extra)
    end.

Definition converter_name_to_type (name : bytes) : SegmentType :=
  if bytes_eqb name [] || bytes_eqb name (B "string") then SEG_DYNAMIC_STRING
  else if bytes_eqb name (B "int") then SEG_DYNAMIC_INT
  else if bytes_eqb name (B "float") then SEG_DYNAMIC_FLOAT
  else if bytes_eqb name (B "uuid") then SEG_DYNAMIC_UUID
  else if bytes_eqb name (B "path") then SEG_DYNAMIC_PATH
  else if bytes_eqb name (B "any") then SEG_DYNAMIC_ANY
  else SEG_DYNAMIC_STRING.

(** The scan of a marker [<...>] for its colon and parentheses: the
    offsets of the colon, the first [(] and the last [)] after it. *)
Record marker_scan := {
  ms_colon : option nat;
  ms_paren_open : option nat;
  ms_paren_close : option nat
}.

Fixpoint scan_marker (i : nat) (l : bytes) (st : marker_scan) : marker_scan :=
  match l with
  | [] => st
  | c :: l' =>
      let po := if Ascii.eqb c "(" && negb (bool_decide (is_Some (ms_paren_open st)))
                then Some i else ms_paren_open st in
      let pc := if Ascii.eqb c ")" && bool_decide (is_Some po)
                then Some i else ms_paren_close st in
      let co := if Ascii.eqb c ":" && negb (bool_decide (is_Some (ms_colon st)))
                   && (negb (bool_decide (is_Some po)) || bool_decide (is_Some pc))
                then Some i else ms_colon st in
      scan_marker (S i) l'
        {| ms_colon := co; ms_paren_open := po; ms_paren_close := pc |}
  end.

(** [while (is < ie && isspace( *is)) is++; while (ie > is && isspace( *(ie-1))) ie--] *)
Definition trim_space (l : bytes) : bytes :=
  let l := skipn (scan_while isspace l) l in
  firstn (scan_back isspace l) l.

(** The items of [any(...)]: split at commas, trimmed, the empty ones
    dropped. *)
Definition parse_any_items (items : bytes) : list bytes :=
  filter (fun it => it <> []) (map trim_space (split_on "," items)).

(** The segment for the inside [m] of a marker [<m>]. *)
Definition dynamic_segment (m : bytes) : RuleSegment :=
  let sc := scan_marker 0 m
              {| ms_colon := None; ms_paren_open := None; ms_paren_close := None |} in
  let '(conv_name, var) :=
    match ms_colon sc with
    | Some colon =>
        (firstn (match ms_paren_open sc with
                 | Some po => po
                 | None => colon
                 end) m,
         skipn (colon + 1) m)
    | None => ([], m)
    end in
  let type := converter_name_to_type conv_name in
  {| seg_type := type;
     static_text := [];
     var_name := var;
     any_items :=
       match ms_paren_open sc, ms_paren_close sc with
       | Some po, Some pc =>
           if SegmentType_eqb type SEG_DYNAMIC_ANY
           then Some (parse_any_items (firstn (pc - (po + 1)) (skipn (po + 1) m)))
           else None
       | _, _ => None
       end |}.

(** [parse_rule_segments]: [None] on an unclosed [<].  Every iteration
    consumes at least one byte, so [length p] iterations are enough; with
    less fuel the result is [None] too ([parse_rule_segments_fuel] tells
    the two apart). *)
Fixpoint parse_rule_segments_loop (fuel : nat) (p : bytes)
  : option (list RuleSegment) :=
  match p with
  | [] => Some []
  | c :: p' =>
      match fuel with
      | O => None
      | S fuel' =>
          if Ascii.eqb c "<" then
            let n := scan_while (not_char ">") p' in
            if (length p' <=? n)%nat then None
            else
              segs ← parse_rule_segments_loop fuel' (skipn (n + 1) p');
              Some (dynamic_segment (firstn n p') :: segs)
          else
            let n := scan_while (not_char "<") p in
            segs ← parse_rule_segments_loop fuel' (skipn n p);
            Some ({| seg_type := SEG_STATIC; static_text := firstn n p;
                     var_name := []; any_items := None |} :: segs)
      end
  end.

Definition parse_rule_segments (rule : bytes) : option (list RuleSegment) :=
  parse_rule_segments_loop (length rule) rule.

(** [Rule_init]: [methods] is [None] when the argument is absent or
    [None]; the result is [None] when the pattern does not parse. *)
Definition Rule_init (rule : bytes) (endpoint_arg : option bytes)
    (methods : option (list bytes)) (strict : bool) : option Cruet_Rule :=
  let '(bitmask, extras) :=
    match methods with
    | Some ms =>
        fold_left
          (fun '(bm, ex) item =>
             let upper := map upper_az item in
             let bit := cruet_method_str_to_bit upper in
             if negb (bit =? 0)%Z then (Z.lor bm bit, ex)
             else (bm, Some (match ex with
                             | Some l => l ++ [upper]
                             | None => [upper]
                             end)))
          ms (0%Z, None)
    | None => (CRUET_METHOD_GET, None)
    end in
  let bitmask := Z.lor bitmask (Z.lor CRUET_METHOD_HEAD CRUET_METHOD_OPTIONS) in
  segs ← parse_rule_segments rule;
  Some {| rule_str := rule;
          endpoint := endpoint_arg;
          methods_bitmask := bitmask;
          methods_extra := (fun l => list_to_set l) <$> extras;
          strict_slashes := strict;
          segments := segs;
          is_static :=
            forallb (fun s => SegmentType_eqb (seg_type s) SEG_STATIC) segs |}.

(** The [methods] property. *)
Definition standard_methods : list (Z * bytes) :=
  [ (CRUET_METHOD_GET, B "GET"); (CRUET_METHOD_HEAD, B "HEAD");
    (CRUET_METHOD_POST, B "POST"); (CRUET_METHOD_PUT, B "PUT");
    (CRUET_METHOD_DELETE, B "DELETE"); (CRUET_METHOD_PATCH, B "PATCH");
    (CRUET_METHOD_OPTIONS, B "OPTIONS"); (CRUET_METHOD_TRACE, B "TRACE") ].

Definition Rule_get_methods (r : Cruet_Rule) : gset bytes :=
  let method_set :=
    fold_left
      (fun (acc : gset bytes) '(bit, name) =>
         if negb (Z.land (methods_bitmask r) bit =? 0)%Z
         then acc ∪ {[ name ]} else acc)
      standard_methods ∅ in
  match methods_extra r with
  | Some extra => method_set ∪ extra
  | None => method_set
  end.

(** *** Python values *)

Definition is_digit (c : ascii) : bool :=
  let n := nat_of_ascii c in (48 <=? n)%nat && (n <=? 57)%nat.

(** [(c >= '0' && c <= '9') || (c >= 'a' && c <= 'f') || (c >= 'A' && c <= 'F')] *)
Definition is_hex (c : ascii) : bool :=
  let n := nat_of_ascii c in
  ((48 <=? n)%nat && (n <=? 57)%nat) || ((97 <=? n)%nat && (n <=? 102)%nat)
  || ((65 <=? n)%nat && (n <=? 70)%nat).

Definition hex_val (c : ascii) : Z :=
  let n := nat_of_ascii c in
  if (n <=? 57)%nat then Z.of_nat n - 48
  else if (97 <=? n)%nat then Z.of_nat n - 87
  else Z.of_nat n - 55.

Definition hex_char (d : Z) : ascii :=
  if (d <? 10)%Z then ascii_of_nat (Z.to_nat d + 48)
  else ascii_of_nat (Z.to_nat d + 87).

(** [uuid.UUID(s).int] for [s] in the hyphenated form: the hex digits read
    as one number. *)
Definition uuid_int (s : bytes) : Z :=
  fold_left (fun acc c => if Ascii.eqb c "-" then acc else acc * 16 + hex_val c)%Z
    s 0%Z.

(** The step of [uuid_int]. *)
Definition uuid_step (acc : Z) (c : ascii) : Z :=
  if Ascii.eqb c "-" then acc else (acc * 16 + hex_val c)%Z.

Fixpoint hex_digits (n : nat) (z : Z) : bytes :=
  match n with
  | O => []
  | S n' => hex_digits n' (z / 16) ++ [hex_char (z mod 16)]
  end.

(** [str(u)] of a [uuid.UUID]: 32 lower-case hex digits as 8-4-4-4-12. *)
Definition uuid_str (u : Z) : bytes :=
  let h := hex_digits 32 u in
  firstn 8 h ++ "-" :: firstn 4 (skipn 8 h) ++ "-" :: firstn 4 (skipn 12 h)
  ++ "-" :: firstn 4 (skipn 16 h) ++ "-" :: skipn 20 h.

(** [str(z)] of a Python int. *)
Definition int_str (z : Z) : bytes :=
  list_ascii_of_string (NilZero.string_of_int (Z.to_int z)).

(** The number that the decimal digits [d] add to [acc]. *)
Fixpoint uint_val (acc : Z) (d : Decimal.uint) : Z :=
  match d with
  | Decimal.Nil => acc
  | Decimal.D0 l => uint_val (acc * 10) l
  | Decimal.D1 l => uint_val (acc * 10 + 1) l
  | Decimal.D2 l => uint_val (acc * 10 + 2) l
  | Decimal.D3 l => uint_val (acc * 10 + 3) l
  | Decimal.D4 l => uint_val (acc * 10 + 4) l
  | Decimal.D5 l => uint_val (acc * 10 + 5) l
  | Decimal.D6 l => uint_val (acc * 10 + 6) l
  | Decimal.D7 l => uint_val (acc * 10 + 7) l
  | Decimal.D8 l => uint_val (acc * 10 + 8) l
  | Decimal.D9 l => uint_val (acc * 10 + 9) l
  end.

Section values.
Context `{FloatModel}.

(** The values a match puts in its dict. *)
Inductive PyVal :=
  | PyStr (s : bytes)
  | PyLong (z : Z)
  | PyFloat (f : pyfloat)
  | PyUUID (u : Z).

(** [PyObject_Str] *)
Definition py_str (v : PyVal) : bytes :=
  match v with
  | PyStr s => s
  | PyLong z => int_str z
  | PyFloat f => float_str f
  | PyUUID u => uuid_str u
  end.

(** The check of the 8-4-4-4-12 form. *)
Definition uuid_format (value : bytes) : bool :=
  (length value =? 36)%nat
  && forallb
       (fun '(i, c) =>
          if (i =? 8)%nat || (i =? 13)%nat || (i =? 18)%nat || (i =? 23)%nat
          then Ascii.eqb c "-" else is_hex c)
       (combine (seq 0 36) value).

(** [convert_segment_value]: [None] is [Py_None], no match. *)
Definition convert_segment_value (seg : RuleSegment) (value : bytes)
  : option PyVal :=
  match seg_type seg with
  | SEG_DYNAMIC_STRING => Some (PyStr value)
  | SEG_DYNAMIC_INT =>
      if forallb is_digit value then Some (PyLong (strtol value)) else None
  | SEG_DYNAMIC_FLOAT => PyFloat <$> strtod_token value
  | SEG_DYNAMIC_UUID =>
      if uuid_format value then Some (PyUUID (uuid_int value)) else None
  | SEG_DYNAMIC_PATH => Some (PyStr value)
  | SEG_DYNAMIC_ANY =>
      match any_items seg with
      | Some items =>
          if bool_decide (value ∈ items) then Some (PyStr value) else None
      | None => Some (PyStr value)
      end
  | SEG_STATIC => Some (PyStr value)
  end.

(** The total length of the static segments among [segs]. *)
Definition trailing_static_len (segs : list RuleSegment) : nat :=
  fold_left
    (fun trail s =>
       if SegmentType_eqb (seg_type s) SEG_STATIC
       then trail + length (static_text s) else trail)
    segs 0.

(** The loop of [Cruet_Rule_match_internal] over the segments: the values
    and what is left of the path, [None] when a segment does not match. *)
Fixpoint match_segments (segs : list RuleSegment) (p : bytes)
    (values : gmap bytes PyVal) : option (gmap bytes PyVal * bytes) :=
  match segs with
  | [] => Some (values, p)
  | seg :: rest =>
      match seg_type seg with
      | SEG_STATIC =>
          let n := length (static_text seg) in
          if (length p <? n)%nat || negb (bytes_eqb (firstn n p) (static_text seg))
          then None
          else match_segments rest (skipn n p) values
      | SEG_DYNAMIC_PATH =>
          let remaining := length p in
          let trail := trailing_static_len rest in
          if (remaining <=? trail)%nat then None
          else
            let capture_len := remaining - trail in
            if (capture_len =? 0)%nat then None
            else
              val ← convert_segment_value seg (firstn capture_len p);
              match_segments rest (skipn capture_len p)
                (<[var_name seg := val]> values)
      | _ =>
          let n := scan_while (not_char "/") p in
          if (n =? 0)%nat then None
          else
            val ← convert_segment_value seg (firstn n p);
            match_segments rest (skipn n p) (<[var_name seg := val]> values)
      end
  end.

(** [None] is [Py_None]. *)
Definition Cruet_Rule_match_internal (self : Cruet_Rule) (path : bytes)
  : option (gmap bytes PyVal) :=
  '(values, p) ← match_segments (segments self) path ∅;
  match p with
  | [] => Some values
  | _ =>
      if negb (strict_slashes self) && bytes_eqb p (B "/") then Some values
      else None
  end.

(** The outcome of [build]: the URL, or the exception. *)
Inductive build_result :=
  | Built (url : bytes)
  | MissingArgument (name : bytes)
  | NoRuleForEndpoint.

Fixpoint build_parts (segs : list RuleSegment) (values : gmap bytes PyVal)
  : bytes + bytes :=
  match segs with
  | [] => inl []
  | seg :: rest =>
      let part :=
        if SegmentType_eqb (seg_type seg) SEG_STATIC then Some (static_text seg)
        else py_str <$> values !! var_name seg in
      match part with
      | None => inr (var_name seg)
      | Some t =>
          match build_parts rest values with
          | inl url => inl (t ++ url)
          | inr name => inr name
          end
      end
  end.

Definition Rule_build (self : Cruet_Rule) (values : gmap bytes PyVal)
  : build_result :=
  match build_parts (segments self) values with
  | inl url => Built url
  | inr name => MissingArgument name
  end.

End values.

(** *** The static index *)

(** A slot of the table: [None] when not occupied. *)
Abbreviation Cruet_StaticEntry := (option (bytes * Cruet_Rule)).

(** [capacity] is [length entries]. *)
Record Cruet_StaticIndex := {
  entries : list Cruet_StaticEntry;
  count : nat
}.

Definition STATIC_INDEX_INITIAL_CAP : nat := 16.
Definition STATIC_INDEX_LOAD_FACTOR : nat := 70.

Definition fnv1a_hash (data : bytes) : Z :=
  fold_left
    (fun h c => (Z.lxor h (Z.of_nat (nat_of_ascii c)) * 1099511628211) mod 2 ^ 64)%Z
    data 14695981039346656037%Z.

Definition static_index_init : Cruet_StaticIndex :=
  {| entries := repeat None STATIC_INDEX_INITIAL_CAP; count := 0 |}.

(** The probe loop of [static_index_find_slot], from the slot [idx].  It
    ends at a free slot or at the key; when [fuel] is the capacity and the
    result is [None], every slot holds another key and the loop of the C
    code does not end. *)
Fixpoint probe (fuel : nat) (es : list Cruet_StaticEntry) (key : bytes)
    (idx : nat) : option nat :=
  match fuel with
  | O => None
  | S fuel' =>
      match es !! idx with
      | Some None => Some idx
      | Some (Some (k, _)) =>
          if bytes_eqb k key then Some idx
          else probe fuel' es key ((idx + 1) mod length es)
      | None => None
      end
  end.

Definition home (es : list Cruet_StaticEntry) (key : bytes) : nat :=
  Z.to_nat (fnv1a_hash key mod Z.of_nat (length es)).

Definition static_index_find_slot (es : list Cruet_StaticEntry) (key : bytes)
  : option nat :=
  probe (length es) es key (home es key).

(** The loop of [static_index_grow] over the old entries. *)
Fixpoint rehash (new_entries old : list Cruet_StaticEntry)
  : option (list Cruet_StaticEntry) :=
  match old with
  | [] => Some new_entries
  | None :: old' => rehash new_entries old'
  | Some (k, r) :: old' =>
      i ← static_index_find_slot new_entries k;
      rehash (<[i := Some (k, r)]> new_entries) old'
  end.

Definition static_index_grow (idx : Cruet_StaticIndex)
  : option Cruet_StaticIndex :=
  new_entries ← rehash (repeat None (length (entries idx) * 2)) (entries idx);
  Some {| entries := new_entries; count := count idx |}.

Definition static_index_insert (idx : Cruet_StaticIndex) (key : bytes)
    (rule : Cruet_Rule) : option Cruet_StaticIndex :=
  idx ← (if ((length (entries idx) * STATIC_INDEX_LOAD_FACTOR
              <? (count idx + 1) * 100)%nat)
         then static_index_grow idx else Some idx);
  i ← static_index_find_slot (entries idx) key;
  match entries idx !! i with
  | Some (Some _) => Some idx
  | _ =>
      Some {| entries := <[i := Some (key, rule)]> (entries idx);
              count := count idx + 1 |}
  end.

(** The rule under [key], if any; the outer [None] is a probe that does
    not end. *)
Definition static_index_lookup (idx : Cruet_StaticIndex) (key : bytes)
  : option (option Cruet_Rule) :=
  if (count idx =? 0)%nat then Some None
  else
    i ← static_index_find_slot (entries idx) key;
    Some (match entries idx !! i with
          | Some (Some (_, r)) => Some r
          | _ => None
          end).

(** *** Map and MapAdapter *)

Record Cruet_Map := {
  rules : list Cruet_Rule;
  static_index : Cruet_StaticIndex;
  dynamic_rules : list Cruet_Rule
}.

Definition Map_init : Cruet_Map :=
  {| rules := []; static_index := static_index_init; dynamic_rules := [] |}.

Definition Map_add (self : Cruet_Map) (r : Cruet_Rule) : option Cruet_Map :=
  idx ← (if is_static r
         then static_index_insert (static_index self) (rule_str r) r
         else Some (static_index self));
  Some {| rules := rules self ++ [r];
          static_index := idx;
          dynamic_rules :=
            if negb (is_static r) then dynamic_rules self ++ [r]
            else dynamic_rules self |}.

(** The field [map] of the C struct is [adapter_map] here. *)
Record Cruet_MapAdapter := {
  adapter_map : Cruet_Map;
  server_name : bytes
}.

Definition Map_bind (self : Cruet_Map) (name : bytes) : Cruet_MapAdapter :=
  {| adapter_map := self; server_name := name |}.

Section matching.
Context `{FloatModel}.

(** The outcome of [match]: the tuple, or one of the two [LookupError]s. *)
Inductive match_result :=
  | Matched (endpoint : bytes) (values : gmap bytes PyVal)
  | NotFound
  | MethodNotAllowed.

Definition endpoint_or_empty (r : Cruet_Rule) : bytes :=
  match endpoint r with
  | Some e => e
  | None => []
  end.

(** The key of the trailing-slash alternate lookup. *)
Definition alt_key (path : bytes) : option bytes :=
  if (1 <? length path)%nat && head_is "/" (rev path)
  then Some (firstn (length path - 1) path)
  else if (length path + 1 <? 4096)%nat then Some (path ++ B "/")
  else None.

(** The loop over the dynamic rules. *)
Fixpoint dynamic_scan (rs : list Cruet_Rule) (path : bytes) (method_bit : Z)
    (method_py : bytes) (method_matched_any : bool) : match_result :=
  match rs with
  | [] => if method_matched_any then MethodNotAllowed else NotFound
  | rule :: rs' =>
      match Cruet_Rule_match_internal rule path with
      | None => dynamic_scan rs' path method_bit method_py method_matched_any
      | Some result =>
          if negb (cruet_rule_has_method rule method_bit method_py)
          then dynamic_scan rs' path method_bit method_py true
          else Matched (endpoint_or_empty rule) result
      end
  end.

(** [MapAdapter_match]; the outer [None] is a probe of the static index
    that does not end. *)
Definition MapAdapter_match (self : Cruet_MapAdapter) (path method : bytes)
  : option match_result :=
  let method_upper := map upper_az (firstn 31 method) in
  let method_bit := cruet_method_str_to_bit method_upper in
  let idx := static_index (adapter_map self) in
  static_rule ← static_index_lookup idx path;
  match static_rule with
  | Some r =>
      if cruet_rule_has_method r method_bit method_upper
      then Some (Matched (endpoint_or_empty r) ∅)
      else Some (dynamic_scan (dynamic_rules (adapter_map self)) path method_bit
                   method_upper true)
  | None =>
      alt_rule ← match alt_key path with
                 | Some k => static_index_lookup idx k
                 | None => Some None
                 end;
      match alt_rule with
      | Some r =>
          if negb (strict_slashes r) then
            if cruet_rule_has_method r method_bit method_upper
            then Some (Matched (endpoint_or_empty r) ∅)
            else Some (dynamic_scan (dynamic_rules (adapter_map self)) path method_bit
                         method_upper true)
          else Some (dynamic_scan (dynamic_rules (adapter_map self)) path method_bit
                       method_upper false)
      | None =>
          Some (dynamic_scan (dynamic_rules (adapter_map self)) path method_bit
                  method_upper false)
      end
  end.

(** [MapAdapter_build] *)
Definition MapAdapter_build (self : Cruet_MapAdapter) (endpoint_arg : bytes)
    (values : gmap bytes PyVal) : build_result :=
  match find (fun r => bool_decide (endpoint r = Some endpoint_arg))
          (rules (adapter_map self)) with
  | Some rule => Rule_build rule values
  | None => NoRuleForEndpoint
  end.

End matching.

(** *** The static index and the map, as the specification describes them *)

(** The table holds the rule [r] under the key [k]. *)
Definition table_has (es : list Cruet_StaticEntry) (k : bytes) (r : Cruet_Rule)
  : Prop :=
  exists i, es !! i = Some (Some (k, r)).

(** Where a probe for [key] ends, and where it goes on. *)
Definition stop (es : list Cruet_StaticEntry) (key : bytes) (i : nat) : Prop :=
  es !! i = Some None \/ exists r, es !! i = Some (Some (key, r)).

Definition other (es : list Cruet_StaticEntry) (key : bytes) (i : nat) : Prop :=
  exists k r, es !! i = Some (Some (k, r)) /\ k <> key.

(** The slot [d] steps after the home slot of [k]. *)
Definition slot_at (es : list Cruet_StaticEntry) (k : bytes) (d : nat) : nat :=
  (home es k + d) mod length es.

(** The invariant of open addressing with linear probing: a key is in one
    slot only, and every slot between the home slot of a key and the slot
    that holds it is occupied. *)
Record table_inv (es : list Cruet_StaticEntry) : Prop := {
  inv_cap : 0 < length es;
  inv_unique : forall i j k r r',
    es !! i = Some (Some (k, r)) -> es !! j = Some (Some (k, r')) -> i = j;
  inv_path : forall i k r,
    es !! i = Some (Some (k, r)) ->
    exists d, d < length es /\ i = slot_at es k d /\
              forall d', d' < d -> exists e, es !! slot_at es k d' = Some (Some e)
}.

(** The number of occupied slots. *)
Fixpoint occ (es : list Cruet_StaticEntry) : nat :=
  match es with
  | [] => 0
  | None :: t => occ t
  | Some _ :: t => S (occ t)
  end.

Record index_inv (idx : Cruet_StaticIndex) : Prop := {
  ii_table : table_inv (entries idx);
  ii_count : count idx = occ (entries idx);
  ii_load : count idx * 100 <= length (entries idx) * STATIC_INDEX_LOAD_FACTOR;
  ii_cap : STATIC_INDEX_INITIAL_CAP <= length (entries idx)
}.

(** The first static rule registered with the pattern [k]. *)
Definition first_static (rs : list Cruet_Rule) (k : bytes) : option Cruet_Rule :=
  find (fun r => is_static r && bytes_eqb (rule_str r) k) rs.

(** The map that [Map()] and [add] of the rules [rs], in order, build. *)
Definition Map_of (rs : list Cruet_Rule) : option Cruet_Map :=
  fold_left (fun m r => m ← m; Map_add m r) rs (Some Map_init).

(** A byte of a marker that is none of [:], [(] and [)]. *)
Definition marker_plain (c : ascii) : bool :=
  not_char ":" c && not_char "(" c && not_char ")" c.

(** A static segment. *)
Definition static_segment (text : bytes) : RuleSegment :=
  {| seg_type := SEG_STATIC; static_text := text; var_name := [];
     any_items := None |}.

(** The pattern has a [<] that no [>] follows. *)
Definition unclosed (rule : bytes) : Prop :=
  exists a b, rule = a ++ "<" :: b /\ forallb (not_char ">") b = true.

(** The patterns of the static rules among [rs]. *)
Definition static_patterns (rs : list Cruet_Rule) : gset bytes :=
  list_to_set (rule_str <$> filter (fun r => is_static r = true) rs).

Section routes.
Context `{FloatModel}.

(** The method as [match] normalises it, and its bit. *)
Definition method_upper (method : bytes) : bytes :=
  List.map upper_az (firstn 31 method).

Definition allows (r : Cruet_Rule) (method : bytes) : bool :=
  cruet_rule_has_method r (cruet_method_str_to_bit (method_upper method))
    (method_upper method).

(** The static rule that the exact lookup or, failing that, the
    trailing-slash probe finds for [path] and honours. *)
Definition static_probe (rs : list Cruet_Rule) (path : bytes)
  : option Cruet_Rule :=
  match first_static rs path with
  | Some r => Some r
  | None =>
      match alt_key path ≫= first_static rs with
      | Some r => if strict_slashes r then None else Some r
      | None => None
      end
  end.

(** The dynamic rules, in the order of registration. *)
Definition dynamic_of (rs : list Cruet_Rule) : list Cruet_Rule :=
  filter (fun r => is_static r = false) rs.

(** [match] over the registered rules [rs]. *)
Definition route (rs : list Cruet_Rule) (path method : bytes) : match_result :=
  let scan :=
    dynamic_scan (dynamic_of rs) path
      (cruet_method_str_to_bit (method_upper method)) (method_upper method) in
  match static_probe rs path with
  | Some r =>
      if allows r method then Matched (endpoint_or_empty r) ∅ else scan true
  | None => scan false
  end.


(** The rule [r] is what some call of [Rule(...)] builds. *)
Definition built (r : Cruet_Rule) : Prop :=
  exists rule endpoint_arg methods strict,
    Rule_init rule endpoint_arg methods strict = Some r.



Definition is_dynamic (seg : RuleSegment) : bool :=
  negb (SegmentType_eqb (seg_type seg) SEG_STATIC).


(** The segment keeps the text it takes from the path as it is: it is
    static, or a [string], [path] or [any] segment. *)
Definition textual (seg : RuleSegment) : bool :=
  match seg_type seg with
  | SEG_STATIC | SEG_DYNAMIC_STRING | SEG_DYNAMIC_PATH | SEG_DYNAMIC_ANY => true
  | _ => false
  end.

(** The variables of the segments [segs], in order. *)
Definition variables (segs : list RuleSegment) : list bytes :=
  var_name <$> filter (fun seg => is_dynamic seg = true) segs.


End routes.

End Routing.

(** A float model for the examples, none of which has a [float] segment:
    no token is a float. *)
Definition no_floats : FloatModel :=
  {| pyfloat := Empty_set;
     strtod_token := fun _ => None;
     float_str := fun f => match f with end |}.

(** * Properties *)

(** ** Scans *)

Section scan.
Variable keep : ascii -> bool.

Lemma scan_while_le l : scan_while keep l <= length l.
Proof. induction l as [|c l IH]; simpl; [lia|]. destruct (keep c); simpl; lia. Qed.

Lemma scan_while_all l : forallb keep l = true -> scan_while keep l = length l.
Proof.
  induction l as [|c l IH]; simpl; [done|].
  intros [-> Hl]%andb_true_iff. by rewrite IH.
Qed.

Lemma scan_while_stop a c l :
  forallb keep a = true -> keep c = false ->
  scan_while keep (a ++ c :: l) = length a.
Proof.
  intros Ha Hc. induction a as [|d a IH]; simpl in *; [by rewrite Hc|].
  apply andb_true_iff in Ha as [-> Ha]. by rewrite IH.
Qed.

Lemma scan_while_split l :
  scan_while keep l < length l ->
  exists c r, l = firstn (scan_while keep l) l ++ c :: r /\ keep c = false /\
              forallb keep (firstn (scan_while keep l) l) = true /\
              r = skipn (scan_while keep l + 1) l.
Proof.
  induction l as [|d l IH]; simpl; [lia|].
  destruct (keep d) eqn:Hd; simpl.
  - intros Hlt. destruct IH as (c & r & E & Hc & Hall & Hr); [lia|].
    exists c, r. rewrite Hd, Hall. by rewrite <- E.
  - intros _. exists d, l. by rewrite ?drop_0.
Qed.

Lemma scan_while_prefix l : forallb keep (firstn (scan_while keep l) l) = true.
Proof.
  induction l as [|d l IH]; simpl; [done|].
  destruct (keep d) eqn:Hd; simpl; [by rewrite Hd|done].
Qed.

Lemma scan_while_app a l :
  forallb keep a = true -> scan_while keep (a ++ l) = length a + scan_while keep l.
Proof.
  induction a as [|d a IH]; simpl; [done|].
  intros [-> Ha]%andb_true_iff. by rewrite IH.
Qed.

Lemma scan_while_skipn l : scan_while keep (skipn (scan_while keep l) l) = 0.
Proof.
  induction l as [|d l IH]; simpl; [done|].
  destruct (keep d) eqn:Hd; simpl; [done|by rewrite Hd].
Qed.

(** The bytes split at the point where the scan stops. *)
Lemma scan_while_cases l :
  (forallb keep l = true) \/
  exists a c r, l = a ++ c :: r /\ forallb keep a = true /\ keep c = false.
Proof.
  induction l as [|d l [IH|(a & c & r & -> & Ha & Hc)]]; simpl.
  - by left.
  - destruct (keep d) eqn:Hd; [by left|]. right. by exists [], d, l.
  - destruct (keep d) eqn:Hd.
    + right. exists (d :: a), c, r. simpl. by rewrite Hd.
    + right. by exists [], d, (a ++ c :: r).
Qed.
End scan.

(** ** The HTTP request parser *)

Module ParserFacts.
Import HttpParser.

Lemma find_crlf_bound buf n : find_crlf buf = Some n -> n + 2 <= length buf.
Proof.
  revert n. induction buf as [|c buf IH]; intros n; simpl; [discriminate|].
  destruct buf as [|d buf]; [discriminate|].
  destruct (_ && _). { intros [= <-]. simpl. lia. }
  destruct (find_crlf (d :: buf)) eqn:E; simpl; [|discriminate].
  intros [= <-]. specialize (IH _ eq_refl). simpl in *. lia.
Qed.

Lemma find_crlf_cons c d l :
  find_crlf (c :: d :: l) =
  if Ascii.eqb c CR && Ascii.eqb d LF then Some 0 else S <$> find_crlf (d :: l).
Proof. reflexivity. Qed.

Lemma find_crlf_app h rest :
  find_crlf h = None -> find_crlf (h ++ CRLF ++ rest) = Some (length h).
Proof.
  induction h as [|c h IH]; [done|].
  destruct h as [|d h].
  - intros _. simpl. destruct (Ascii.eqb c CR); simpl; done.
  - rewrite find_crlf_cons. change ((c :: d :: h) ++ CRLF ++ rest)
      with (c :: d :: (h ++ CRLF ++ rest)). rewrite find_crlf_cons.
    destruct (_ && _); [done|].
    destruct (find_crlf (d :: h)) eqn:E; [done|]. intros _.
    change (d :: h ++ CRLF ++ rest) with ((d :: h) ++ CRLF ++ rest).
    by rewrite IH.
Qed.

Lemma find_crlf_prefix buf n :
  find_crlf buf = Some n -> find_crlf (firstn n buf) = None.
Proof.
  revert n. induction buf as [|c buf IH]; intros n; [done|].
  destruct buf as [|d buf]; [done|]. rewrite find_crlf_cons.
  destruct (_ && _) eqn:E; [by intros [= <-]|].
  destruct (find_crlf (d :: buf)) as [k|] eqn:Ek; [|done]. intros [= <-].
  specialize (IH _ eq_refl). rewrite firstn_cons.
  destruct k as [|k]; [done|]. rewrite firstn_cons in IH |- *.
  rewrite find_crlf_cons, E, IH. done.
Qed.

Lemma find_crlf_split buf n :
  find_crlf buf = Some n -> buf = firstn n buf ++ CRLF ++ skipn (n + 2) buf.
Proof.
  revert n. induction buf as [|c buf IH]; intros n; [done|].
  destruct buf as [|d buf]; [done|]. rewrite find_crlf_cons.
  destruct (_ && _) eqn:E.
  - intros [= <-]. apply andb_true_iff in E as [->%Ascii.eqb_eq ->%Ascii.eqb_eq]. done.
  - destruct (find_crlf (d :: buf)) as [k|] eqn:Ek; [|done]. intros [= <-].
    change (S k + 2) with (S (k + 2)). rewrite firstn_cons, skipn_cons.
    simpl. f_equal. exact (IH _ eq_refl).
Qed.

(** The header loop never runs out of fuel. *)
Lemma header_loop_fuel_gen fuel hp st :
  length hp <= fuel -> is_Some (header_loop fuel hp st).
Proof.
  revert hp st. induction fuel as [|fuel IH]; intros hp st Hlen.
  - destruct hp; [by eexists|simpl in Hlen; lia].
  - destruct hp as [|c hp]; [by eexists|].
    cbn [header_loop]. destruct (find_crlf (c :: hp)) as [[|n]|] eqn:E; [by eexists| |by eexists].
    apply find_crlf_bound in E.
    assert (length (skipn (S n + 2) (c :: hp)) <= fuel).
    { rewrite length_skipn. simpl in *. lia. }
    cbv zeta. destruct (_ <=? _)%nat; by apply IH.
Qed.

Lemma header_loop_fuel hp st : is_Some (header_loop (length hp) hp st).
Proof. by apply header_loop_fuel_gen. Qed.

(** One iteration of the header loop. *)
Lemma header_loop_unfold fuel hp st n :
  find_crlf hp = Some (S n) ->
  header_loop (S fuel) hp st =
  header_loop fuel (skipn (S n + 2) hp) (apply_line st (firstn (S n) hp)).
Proof.
  intros E. destruct hp as [|c hp]; [done|].
  cbn [header_loop]. rewrite E. cbv zeta. unfold apply_line.
  destruct (_ <=? _)%nat; done.
Qed.

Local Arguments header_loop : simpl never.

Lemma header_loop_line fuel h tl st :
  header_line h ->
  header_loop (S fuel) (h ++ CRLF ++ tl) st = header_loop fuel tl (apply_line st h).
Proof.
  intros [Hne Hh]. pose proof (find_crlf_app h tl Hh) as E.
  assert (Ht : firstn (length h) (h ++ CRLF ++ tl) = h) by apply take_app_length.
  assert (Hd : skipn (length h + 2) (h ++ CRLF ++ tl) = tl).
  { rewrite app_assoc. apply drop_app_length'. rewrite length_app. simpl. lia. }
  destruct (length h) as [|n] eqn:Hn; [by destruct h|].
  rewrite (header_loop_unfold _ _ _ n E). by rewrite Ht, Hd.
Qed.

Lemma header_loop_block hlines fuel tl st :
  Forall header_line hlines ->
  header_loop (length hlines + fuel) (block hlines ++ tl) st
  = header_loop fuel tl (fold_left apply_line hlines st).
Proof.
  intros H. revert st. induction H as [|h hlines Hh _ IH]; intros st; [done|].
  unfold block in *. simpl. rewrite <- !app_assoc.
  rewrite (header_loop_line _ h); [|done]. apply IH.
Qed.

Lemma header_loop_tail fuel tl st :
  header_tail tl ->
  header_loop fuel tl st =
  Some (st, match find_crlf tl with Some _ => skipn 2 tl | None => tl end).
Proof.
  destruct 1 as [rest|t Ht].
  - destruct fuel; done.
  - destruct fuel, t; unfold header_loop; rewrite ?Ht; done.
Qed.

Lemma block_length hlines :
  Forall header_line hlines -> length hlines <= length (block hlines).
Proof.
  induction 1 as [|h hlines [Hh _] _ IH]; [done|].
  unfold block in *. simpl. rewrite !length_app. simpl. lia.
Qed.

Lemma run_header_loop_block hlines tl st :
  Forall header_line hlines -> header_tail tl ->
  run_header_loop (block hlines ++ tl) st =
  (fold_left apply_line hlines st,
   match find_crlf tl with Some _ => skipn 2 tl | None => tl end).
Proof.
  intros Hl Ht. unfold run_header_loop.
  pose proof (block_length _ Hl).
  replace (length (block hlines ++ tl))
    with (length hlines + (length (block hlines ++ tl) - length hlines)).
  2:{ rewrite length_app. lia. }
  rewrite header_loop_block by done. by rewrite header_loop_tail.
Qed.

(** *** The request line *)

Lemma parse_request_line line m u v rest :
  request_line line m u v ->
  cruet_parse_http_request (line ++ CRLF ++ rest) =
  let '(st, hp) := run_header_loop rest hstate_init in
  Some {| method := m;
          path := firstn (scan_while (not_char "?") u) u;
          version := v;
          query_string := skipn (scan_while (not_char "?") u + 1) u;
          headers := hs_headers st;
          body := extract_body (hs_content_length st) hp;
          keep_alive := hs_keep_alive st |}.
Proof.
  intros (Hline & Hm & Hu & Hv & Hcr).
  unfold cruet_parse_http_request.
  rewrite (find_crlf_app _ rest Hcr).
  destruct (line ++ CRLF ++ rest) eqn:Hdata; [by destruct line|].
  rewrite <- Hdata. clear Hdata.
  assert (Ht : firstn (length line) (line ++ CRLF ++ rest) = line) by apply take_app_length.
  assert (Hd : skipn (length line + 2) (line ++ CRLF ++ rest) = rest).
  { rewrite app_assoc. apply drop_app_length'. rewrite length_app. simpl. lia. }
  cbv zeta. rewrite Ht, Hd.
  assert (Hml : scan_while (not_char " ") line = length m).
  { rewrite Hline. by apply scan_while_stop. }
  rewrite Hml.
  assert (Hlen : (length line <=? length m)%nat = false).
  { apply Nat.leb_gt. rewrite Hline, length_app. simpl. lia. }
  rewrite Hlen.
  assert (Hur : skipn (length m + 1) line = u ++ " " :: v).
  { rewrite Hline. rewrite (app_assoc m [" "] (u ++ " " :: v)) at 1.
    replace (m ++ " " :: u ++ " " :: v) with ((m ++ [" "]) ++ u ++ " " :: v)
      by by rewrite <- app_assoc.
    apply drop_app_length'. rewrite length_app. simpl. lia. }
  rewrite Hur.
  assert (Hul : scan_while (not_char " ") (u ++ " " :: v) = length u)
    by by apply scan_while_stop.
  rewrite Hul.
  assert (Hlen2 : (length (u ++ " " :: v) <=? length u)%nat = false).
  { apply Nat.leb_gt. rewrite length_app. simpl. lia. }
  rewrite Hlen2.
  assert (Hv' : skipn (length u + 1) (u ++ " " :: v) = v).
  { replace (u ++ " " :: v) with ((u ++ [" "]) ++ v) by by rewrite <- app_assoc.
    apply drop_app_length'. rewrite length_app. simpl. lia. }
  rewrite Hv'.
  assert (Hlen3 : (length v <? 6)%nat = false) by (apply Nat.ltb_ge; lia).
  rewrite Hlen3. rewrite take_app_length.
  replace (firstn (length m) line) with m; [done|].
  rewrite Hline. by rewrite take_app_length.
Qed.

(** *** Header lines *)








(** C1: for the bytes "GET /x HTTP/1.1" CR LF, a complete request line
    with neither a header line nor the blank line after it, the parser
    does not return [None]: it returns the result of a request without
    headers and without a body. *)
Theorem request_line_only_is_parsed :
  cruet_parse_http_request (B "GET /x HTTP/1.1" ++ CRLF) =
  Some {| method := B "GET"; path := B "/x"; version := B "HTTP/1.1";
          query_string := []; headers := ∅; body := []; keep_alive := true |}.
Proof. vm_compute. reflexivity. Qed.





(** *** Malformed request lines *)

Lemma count_no_space l :
  forallb (not_char " ") l = true <-> count_occ ascii_dec l " " = 0.
Proof.
  induction l as [|c l IH]; simpl; [done|]. unfold not_char at 1.
  destruct (ascii_dec c " ") as [->|Hne].
  - simpl. split; [done|lia].
  - apply Ascii.eqb_neq in Hne. rewrite Hne. simpl. exact IH.
Qed.

Lemma count_app_space a r :
  forallb (not_char " ") a = true ->
  count_occ ascii_dec (a ++ " " :: r) " " = S (count_occ ascii_dec r " ").
Proof.
  intros Ha%count_no_space. rewrite count_occ_app, Ha. simpl.
  by destruct (ascii_dec " " " ").
Qed.

(** C6, as the code has it: when the first line of the input is complete
    and has fewer than two spaces, or has a version token shorter than six
    bytes, the parser returns [None], which is also its outcome for an
    unfinished request line. *)
Theorem malformed_request_line data line_end :
  find_crlf data = Some line_end ->
  (count_occ ascii_dec (firstn line_end data) " " < 2 \/
   exists m u v,
     firstn line_end data = m ++ " " :: u ++ " " :: v /\
     forallb (not_char " ") m = true /\ forallb (not_char " ") u = true /\
     length v < 6) ->
  cruet_parse_http_request data = None.
Proof.
  intros E Hbad. unfold cruet_parse_http_request.
  destruct data as [|c data]; [done|]. rewrite E. cbv zeta.
  set (line := firstn line_end (c :: data)) in *.
  destruct (Nat.leb_spec (length line) (scan_while (not_char " ") line)) as [|H1]; [done|].
  destruct (scan_while_split _ _ H1) as (c1 & r1 & E1 & Hc1 & Hp1 & Hr1).
  apply negb_false_iff, Ascii.eqb_eq in Hc1. subst c1. rewrite <- Hr1.
  destruct (Nat.leb_spec (length r1) (scan_while (not_char " ") r1)) as [|H2]; [done|].
  destruct (scan_while_split _ _ H2) as (c2 & r2 & E2 & Hc2 & Hp2 & Hr2).
  apply negb_false_iff, Ascii.eqb_eq in Hc2. subst c2. rewrite <- Hr2.
  destruct Hbad as [Hcount|(m & u & v & Hline & Hm & Hu & Hv)].
  - exfalso. rewrite E1, count_app_space in Hcount by done.
    rewrite E2, count_app_space in Hcount by done. lia.
  - assert (Hml : scan_while (not_char " ") line = length m).
    { rewrite Hline. by apply scan_while_stop. }
    rewrite Hml, Hline, take_app_length in E1.
    apply app_inv_head in E1. injection E1 as <-.
    assert (Hul : scan_while (not_char " ") (u ++ " " :: v) = length u)
      by by apply scan_while_stop.
    rewrite Hul, take_app_length in E2.
    apply app_inv_head in E2. injection E2 as <-.
    by apply Nat.ltb_lt in Hv as ->.
Qed.

Lemma malformed_request_line_witness :
  cruet_parse_http_request (B "GET /x" ++ CRLF ++
                            B "Host: a" ++ CRLF ++ CRLF) = None.
Proof.
  apply (malformed_request_line _ 6); [reflexivity|].
  left. vm_compute. lia.
Defined.

(** C6 as stated does not hold: a complete line with one space, an
    unfinished request line and a line with a short version token all give
    [None]; no outcome tells a malformed line from an unfinished one. *)
Lemma malformed_same_as_incomplete :
  cruet_parse_http_request (B "GET /x" ++ CRLF) = None /\
  cruet_parse_http_request (B "GET /x HTTP/1.1") = None /\
  cruet_parse_http_request (B "GET /x HTTP" ++ CRLF) = None.
Proof. repeat split; reflexivity. Qed.

End ParserFacts.

(** ** The cookie header parser *)

Module CookieFacts.
Import Cookies.

Lemma cookie_loop_skip fuel p r :
  cookie_loop fuel p r = cookie_loop fuel (skipn (scan_while is_skip p) p) r.
Proof. destruct fuel; simpl; by rewrite scan_while_skipn. Qed.

Lemma cookie_loop_skip_app fuel a p r :
  forallb is_skip a = true -> cookie_loop fuel (a ++ p) r = cookie_loop fuel p r.
Proof.
  intros Ha. rewrite (cookie_loop_skip _ (a ++ p)), (cookie_loop_skip _ p).
  rewrite scan_while_app by done. by rewrite drop_app_add.
Qed.

Lemma tail_scan keep tail :
  is_tail tail -> keep ";" = false -> scan_while keep tail = 0.
Proof. destruct tail as [|c tail]; simpl; [done|]. by intros -> ->. Qed.

Lemma tail_head c tail : is_tail tail -> c <> ";" -> head_is c tail = false.
Proof.
  destruct tail as [|d tail]; simpl; [done|]. intros -> Hc.
  apply Ascii.eqb_neq. congruence.
Qed.

Lemma name_char_forallb l :
  forallb name_char l = forallb (not_char "=") l && forallb (not_char ";") l.
Proof.
  induction l as [|c l IH]; simpl; [done|]. rewrite IH. unfold name_char, not_char.
  destruct (c =? "="), (c =? ";"), (forallb _ l), (forallb _ l); done.
Qed.

Lemma scan_while_app_lt keep (l t : bytes) :
  scan_while keep l < length l -> scan_while keep (l ++ t) = scan_while keep l.
Proof.
  induction l as [|c l IH]; simpl; [lia|].
  destruct (keep c); [|done]. intros H. rewrite IH; [done|lia].
Qed.

Lemma cookie_loop_unfold f p r :
  scan_while is_skip p = 0 -> p <> [] ->
  cookie_loop (S f) p r =
    let name_len := scan_while name_char p in
    let raw_name := firstn name_len p in
    let p := skipn name_len p in
    if negb (head_is "=" p) then
      cookie_loop f (skipn (scan_while (not_char ";") p) p) r
    else
      let name := firstn (scan_back is_sp_tab raw_name) raw_name in
      let p := skipn 1 p in
      let p := skipn (scan_while is_sp_tab p) p in
      let '(value, p) :=
        if head_is DQUOTE p then
          let p := skipn 1 p in
          let n := scan_while (not_char DQUOTE) p in
          (firstn n p, skipn (n + 1) p)
        else
          let n := scan_while (not_char ";") p in
          let raw := firstn n p in
          (firstn (scan_back is_sp_tab raw) raw, skipn n p) in
      cookie_loop f p
        (match name with
         | [] => r
         | _ => <[name := value]> r
         end).
Proof.
  intros H0 Hne. cbn [cookie_loop]. rewrite H0, drop_0.
  destruct p; [done|]. reflexivity.
Qed.

Lemma cookie_loop_nil fuel r : cookie_loop fuel [] r = Some r.
Proof. by destruct fuel. Qed.

Local Arguments cookie_loop : simpl never.

Lemma ltrim_app ws l :
  forallb is_sp_tab ws = true -> ltrim (ws ++ l) = ltrim l.
Proof.
  intros H. unfold ltrim. rewrite scan_while_app by done. by rewrite drop_app_add.
Qed.

Lemma ltrim_all l : forallb is_sp_tab l = true -> ltrim l = [].
Proof. intros H. unfold ltrim. rewrite scan_while_all by done. apply drop_all. Qed.

(** A segment without [=] sets nothing. *)
Lemma code_segment_no_eq seg :
  forallb (not_char "=") seg = true -> code_segment seg = None.
Proof.
  intros H. unfold code_segment. rewrite scan_while_all by done.
  by rewrite Nat.leb_refl.
Qed.

Lemma well_quoted_no_eq seg :
  forallb (not_char "=") seg = true -> well_quoted seg.
Proof.
  intros H. unfold well_quoted. rewrite scan_while_all by done.
  rewrite drop_ge by lia. done.
Qed.

(** Leading blanks of a segment do not matter. *)
Lemma code_segment_ws ws body :
  forallb is_sp_tab ws = true -> code_segment (ws ++ body) = code_segment body.
Proof.
  intros H. unfold code_segment.
  assert (Hne : forallb (not_char "=") ws = true).
  { clear -H. induction ws as [|c ws IH]; simpl in *; [done|].
    apply andb_true_iff in H as [Hc H]. rewrite IH by done.
    unfold is_sp_tab in Hc. unfold not_char.
    apply orb_true_iff in Hc as [->%Ascii.eqb_eq| ->%Ascii.eqb_eq]; done. }
  rewrite scan_while_app by done. rewrite length_app.
  rewrite <- Nat.add_assoc, drop_app_add, take_app_add.
  replace (length ws + length body <=? length ws + scan_while (not_char "=") body)%nat
    with (length body <=? scan_while (not_char "=") body)%nat.
  2:{ destruct (Nat.leb_spec (length body) (scan_while (not_char "=") body));
      symmetry; [apply Nat.leb_le|apply Nat.leb_gt]; lia. }
  unfold trim. by rewrite ltrim_app.
Qed.

Lemma well_quoted_ws ws body :
  forallb is_sp_tab ws = true -> well_quoted (ws ++ body) -> well_quoted body.
Proof.
  intros H. unfold well_quoted.
  assert (Hne : forallb (not_char "=") ws = true).
  { clear -H. induction ws as [|c ws IH]; simpl in *; [done|].
    apply andb_true_iff in H as [Hc H]. rewrite IH by done.
    unfold is_sp_tab in Hc. unfold not_char.
    apply orb_true_iff in Hc as [->%Ascii.eqb_eq| ->%Ascii.eqb_eq]; done. }
  rewrite scan_while_app by done.
  by rewrite <- Nat.add_assoc, drop_app_add.
Qed.

Lemma forallb_skipn {A} (f : A -> bool) n (l : list A) :
  forallb f l = true -> forallb f (skipn n l) = true.
Proof.
  revert n. induction l as [|c l IH]; intros [|n]; simpl; try done.
  intros [_ H]%andb_true_iff. by apply IH.
Qed.

(** The value of a segment and where the scan stands after it. *)
Lemma value_step v tail :
  forallb (not_char ";") v = true -> is_tail tail ->
  (head_is DQUOTE (ltrim v) = true ->
   let q := skipn 1 (ltrim v) in
   let n := scan_while (not_char DQUOTE) q in
   n < length q /\ forallb (not_char "=") (skipn (n + 1) q) = true) ->
  exists junk,
    forallb (not_char ";") junk = true /\
    forallb (not_char "=") junk = true /\
    length junk <= length v /\
    (let p := skipn (scan_while is_sp_tab (v ++ tail)) (v ++ tail) in
     if head_is DQUOTE p then
       let p := skipn 1 p in
       let n := scan_while (not_char DQUOTE) p in
       (firstn n p, skipn (n + 1) p)
     else
       let n := scan_while (not_char ";") p in
       let raw := firstn n p in
       (firstn (scan_back is_sp_tab raw) raw, skipn n p))
    = (cookie_value v, junk ++ tail).
Proof.
  intros Hns Htail Hwq. cbv zeta. unfold cookie_value.
  destruct (scan_while_cases is_sp_tab v) as [Hws|(ws & d & v' & -> & Hws & Hd)].
  - exists []. rewrite scan_while_app by done.
    rewrite (tail_scan _ _ Htail) by done. rewrite Nat.add_0_r, drop_app_length.
    rewrite ltrim_all by done. simpl.
    rewrite (tail_head _ _ Htail) by done.
    rewrite (tail_scan _ _ Htail) by (unfold not_char; done).
    rewrite drop_0, take_0. repeat split. lia.
  - rewrite <- app_assoc, <- app_comm_cons.
    rewrite scan_while_stop, drop_app_length by done.
    rewrite ltrim_app in Hwq |- * by done.
    assert (Hl : ltrim (d :: v') = d :: v').
    { unfold ltrim. simpl. by rewrite Hd. }
    rewrite Hl in Hwq |- *. cbv zeta in Hwq.
    change (head_is DQUOTE (d :: v')) with (d =? DQUOTE) in *.
    change (head_is DQUOTE (d :: v' ++ tail)) with (d =? DQUOTE).
    change (skipn 1 (d :: v')) with v' in *.
    change (skipn 1 (d :: v' ++ tail)) with (v' ++ tail).
    rewrite forallb_app in Hns. apply andb_true_iff in Hns as [_ Hns].
    destruct (d =? DQUOTE) eqn:Hdq.
    + destruct (Hwq eq_refl) as [Hlt Hjunk].
      exists (skipn (scan_while (not_char DQUOTE) v' + 1) v').
      simpl in Hns. apply andb_true_iff in Hns as [_ Hns].
      split; [by apply forallb_skipn|]. split; [done|].
      split. { rewrite length_skipn, length_app. simpl. lia. }
      rewrite scan_while_app_lt by done.
      rewrite take_app_le by lia. rewrite drop_app_le by lia. done.
    + exists []. split; [done|]. split; [done|]. split; [simpl; lia|].
      change (d :: v' ++ tail) with ((d :: v') ++ tail).
      rewrite scan_while_app by done.
      rewrite (tail_scan _ _ Htail) by (unfold not_char; done).
      rewrite Nat.add_0_r, take_app_length, drop_app_length. done.
Qed.

Lemma code_segment_eq n v :
  forallb (not_char "=") n = true -> ltrim n = n ->
  code_segment (n ++ "=" :: v) =
  match rtrim n with
  | [] => None
  | name => Some (name, cookie_value v)
  end.
Proof.
  intros Hn Hl. unfold code_segment.
  rewrite scan_while_stop by done.
  assert ((length (n ++ "=" :: v) <=? length n)%nat = false) as ->.
  { apply Nat.leb_gt. rewrite length_app. simpl. lia. }
  rewrite take_app_length. unfold trim. rewrite Hl.
  replace (skipn (length n + 1) (n ++ "=" :: v)) with v; [done|].
  replace (n ++ "=" :: v) with ((n ++ ["="]) ++ v) by by rewrite <- app_assoc.
  symmetry. apply drop_app_length'. rewrite length_app. simpl. lia.
Qed.

(** One iteration on a segment that does not begin with a blank. *)
Lemma body_step body tail f r :
  body <> [] -> scan_while is_sp_tab body = 0 ->
  forallb (not_char ";") body = true -> is_tail tail -> well_quoted body ->
  exists junk,
    forallb (not_char ";") junk = true /\
    forallb (not_char "=") junk = true /\
    length junk < length body /\
    cookie_loop (S f) (body ++ tail) r
    = cookie_loop f (junk ++ tail) (add_cookie code_segment r body).
Proof.
  intros Hne Hhd Hns Htail Hwq.
  assert (Hskip : scan_while is_skip (body ++ tail) = 0).
  { destruct body as [|c body]; [done|]. simpl in *.
    unfold is_skip. destruct (is_sp_tab c); [done|].
    apply andb_true_iff in Hns as [Hc _]. unfold not_char in Hc.
    apply negb_true_iff in Hc. by rewrite Hc. }
  rewrite cookie_loop_unfold; [|done|by destruct body].
  cbv zeta.
  destruct (scan_while_cases (not_char "=") body) as [Hnoeq|(n & e & v & -> & Hn & He)].
  - exists []. split; [done|]. split; [done|].
    split; [destruct body; [done|simpl; lia]|].
    assert (Hnc : forallb name_char body = true)
      by by rewrite name_char_forallb, Hnoeq, Hns.
    rewrite scan_while_app by done.
    rewrite (tail_scan _ _ Htail) by done.
    rewrite Nat.add_0_r, drop_app_length.
    rewrite (tail_head _ _ Htail) by done. simpl negb. cbv iota.
    rewrite (tail_scan _ _ Htail) by (unfold not_char; done).
    rewrite drop_0. unfold add_cookie. by rewrite code_segment_no_eq.
  - unfold not_char in He. apply negb_false_iff, Ascii.eqb_eq in He. subst e.
    rewrite forallb_app in Hns. apply andb_true_iff in Hns as [Hnsn Hnsv].
    simpl in Hnsv.
    assert (Hnc : forallb name_char n = true)
      by by rewrite name_char_forallb, Hn, Hnsn.
    rewrite <- app_assoc, <- app_comm_cons. rewrite scan_while_stop by done.
    rewrite take_app_length, drop_app_length.
    change (head_is "=" ("=" :: v ++ tail)) with true.
    change (skipn 1 ("=" :: v ++ tail)) with (v ++ tail).
    cbn [negb].
    assert (Hln : ltrim n = n).
    { unfold ltrim. destruct n as [|c n]; [done|]. simpl in *.
      destruct (is_sp_tab c); [done|]. done. }
    assert (Hv : skipn (scan_while (not_char "=") (n ++ "=" :: v) + 1) (n ++ "=" :: v) = v).
    { rewrite scan_while_stop by done.
      replace (n ++ "=" :: v) with ((n ++ ["="]) ++ v) by by rewrite <- app_assoc.
      apply drop_app_length'. rewrite length_app. simpl. lia. }
    unfold well_quoted in Hwq. rewrite Hv in Hwq.
    destruct (value_step v tail Hnsv Htail Hwq) as (junk & H1 & H2 & H3 & Hval).
    exists junk. split; [done|]. split; [done|].
    split; [rewrite length_app; simpl; lia|].
    cbv zeta in Hval. rewrite Hval.
    unfold add_cookie. rewrite code_segment_eq by done.
    unfold rtrim. by destruct (firstn _ n).
Qed.

(** *** Splitting at [;] *)

Lemma split_on_single sep seg :
  forallb (not_char sep) seg = true -> split_on sep seg = [seg].
Proof.
  induction seg as [|c seg IH]; simpl; [done|]. unfold not_char at 1.
  intros [Hc H]%andb_true_iff. apply negb_true_iff in Hc. rewrite Hc.
  by rewrite IH.
Qed.

Lemma split_on_app sep seg rest :
  forallb (not_char sep) seg = true ->
  split_on sep (seg ++ sep :: rest) = seg :: split_on sep rest.
Proof.
  induction seg as [|c seg IH]; simpl.
  - by rewrite Ascii.eqb_refl.
  - unfold not_char at 1. intros [Hc H]%andb_true_iff.
    apply negb_true_iff in Hc. rewrite Hc. by rewrite IH.
Qed.

Lemma sp_tab_is_skip l :
  forallb is_sp_tab l = true -> forallb is_skip l = true.
Proof.
  induction l as [|c l IH]; simpl; [done|]. intros [Hc H]%andb_true_iff.
  unfold is_skip at 1. by rewrite Hc, IH.
Qed.

(** The parser and the splitting description agree. *)
Lemma cookie_loop_split s :
  forall fuel r,
    length s <= fuel -> Forall well_quoted (split_on ";" s) ->
    cookie_loop fuel s r
    = Some (fold_left (add_cookie code_segment) (split_on ";" s) r).
Proof.
  remember (length s) as k eqn:Hk. revert s Hk.
  induction k as [k IH] using lt_wf_ind. intros s -> fuel r Hfuel Hwq.
  (* the first segment and what follows it *)
  assert (exists seg tail, s = seg ++ tail /\ forallb (not_char ";") seg = true /\
            is_tail tail /\
            split_on ";" s = seg :: match tail with [] => [] | _ :: rest => split_on ";" rest end)
    as (seg & tail & -> & Hns & Htail & Hsplit).
  { destruct (scan_while_cases (not_char ";") s) as [H|(a & c & rest & -> & Ha & Hc)].
    - exists s, []. rewrite app_nil_r. by rewrite split_on_single.
    - unfold not_char in Hc. apply negb_false_iff, Ascii.eqb_eq in Hc. subst c.
      exists a, (";" :: rest). by rewrite split_on_app. }
  rewrite Hsplit in Hwq |- *. apply Forall_cons in Hwq as [Hwq1 Hwq2].
  (* what the loop does from the tail on *)
  assert (Hcont : forall junk f r',
            forallb (not_char ";") junk = true ->
            forallb (not_char "=") junk = true ->
            length (junk ++ tail) < length (seg ++ tail) ->
            length (junk ++ tail) <= f ->
            cookie_loop f (junk ++ tail) r'
            = Some (fold_left (add_cookie code_segment)
                      match tail with [] => [] | _ :: rest => split_on ";" rest end r')).
  { intros junk f r' Hj1 Hj2 Hlt Hf.
    rewrite (IH _ Hlt (junk ++ tail) eq_refl f r' Hf).
    - destruct tail as [|c rest].
      + rewrite app_nil_r, split_on_single by done. simpl.
        unfold add_cookie. by rewrite code_segment_no_eq.
      + simpl in Htail. subst c. rewrite split_on_app by done. simpl.
        unfold add_cookie at 2. by rewrite code_segment_no_eq.
    - destruct tail as [|c rest].
      + rewrite app_nil_r, split_on_single by done.
        constructor; [by apply well_quoted_no_eq|done].
      + simpl in Htail. subst c. rewrite split_on_app by done.
        constructor; [by apply well_quoted_no_eq|done]. }
  simpl fold_left.
  destruct (scan_while_cases is_sp_tab seg) as [Hws|(ws & d & body & -> & Hws & Hd)].
  - (* a blank segment *)
    assert (Hnone : add_cookie code_segment r seg = r).
    { unfold add_cookie. rewrite <- (app_nil_r seg), code_segment_ws by done. done. }
    rewrite Hnone. destruct tail as [|c rest].
    + rewrite app_nil_r. rewrite cookie_loop_skip.
      rewrite scan_while_all, drop_all.
      * apply cookie_loop_nil.
      * by apply sp_tab_is_skip.
    + simpl in Htail. subst c.
      replace (seg ++ ";" :: rest) with ((seg ++ [";"]) ++ rest) by by rewrite <- app_assoc.
      rewrite cookie_loop_skip_app.
      2:{ rewrite forallb_app. simpl. rewrite andb_true_r.
          by apply sp_tab_is_skip. }
      rewrite length_app in Hfuel. simpl in Hfuel.
      apply (IH (length rest)); [rewrite length_app; simpl; lia|done|lia|done].
  - (* blanks, then the segment proper *)
    rewrite <- app_assoc. rewrite cookie_loop_skip_app.
    2:{ by apply sp_tab_is_skip. }
    unfold add_cookie at 2. rewrite code_segment_ws by done.
    fold (add_cookie code_segment r (d :: body)).
    apply well_quoted_ws in Hwq1; [|done].
    rewrite forallb_app in Hns. apply andb_true_iff in Hns as [_ Hns].
    destruct fuel as [|f]; [rewrite !length_app in Hfuel; simpl in Hfuel; lia|].
    destruct (body_step (d :: body) tail f r) as (junk & H1 & H2 & H3 & ->);
      try done.
    { simpl. by rewrite Hd. }
    apply Hcont; try done.
    + rewrite !length_app in *. simpl in *. lia.
    + rewrite !length_app in *. simpl in *. lia.
Qed.

(** The loop never runs out of fuel. *)
Lemma cookie_loop_fuel_gen fuel p r :
  length p <= fuel -> is_Some (cookie_loop fuel p r).
Proof.
  revert p r. induction fuel as [|fuel IH]; intros p r Hlen.
  - destruct p; [by eexists|simpl in Hlen; lia].
  - rewrite cookie_loop_skip.
    pose proof (scan_while_skipn is_skip p) as H0.
    assert (Hl1 : length (skipn (scan_while is_skip p) p) <= S fuel)
      by (rewrite length_skipn; lia).
    destruct (skipn (scan_while is_skip p) p) as [|c p1] eqn:Ep1; [by eexists|].
    rewrite cookie_loop_unfold by done. cbv zeta.
    set (p2 := skipn (scan_while name_char (c :: p1)) (c :: p1)).
    destruct (head_is "=" p2) eqn:Hhd; cbn [negb].
    + destruct (if head_is DQUOTE _ then _ else _) as [value p5] eqn:Ev.
      apply IH.
      assert (length p5 <= length (skipn 1 p2)).
      { destruct (head_is DQUOTE _); injection Ev as _ <-;
          rewrite !length_skipn; lia. }
      assert (length p2 <= length (c :: p1)) by (unfold p2; rewrite length_skipn; lia).
      destruct p2; [done|]. simpl in *. rewrite ?drop_0 in *. lia.
    + apply IH. rewrite length_skipn.
      assert (1 <= scan_while name_char (c :: p1)).
      { destruct (scan_while name_char (c :: p1)) eqn:E0; [|lia].
        unfold p2 in Hhd. simpl in Hhd, E0, H0.
        unfold name_char in E0. unfold is_skip in H0. rewrite Hhd in E0.
        destruct (c =? ";"); [|done]. by rewrite orb_true_r in H0. }
      unfold p2. rewrite length_skipn. simpl in *. lia.
Qed.

Lemma cookie_loop_fuel s r : is_Some (cookie_loop (length s) s r).
Proof. by apply cookie_loop_fuel_gen. Qed.

(** C9, as the code has it: [parse_cookies("a=1; b=2; c=")] is
    [{a: "1", b: "2", c: ""}]; and for every header in which each quoted
    value is closed within its segment and followed there by no [=], the
    result is that of splitting at [;], splitting each segment at its
    first [=], trimming the blanks around name and value, taking a quoted
    value up to its closing quote as it is, skipping the segments without
    [=] or with an empty name, a later name overwriting an earlier one. *)
Theorem parse_cookies_split :
  cruet_parse_cookies (B "a=1; b=2; c=")
    = <[B "c" := []]> (<[B "b" := B "2"]> (<[B "a" := B "1"]> ∅)) /\
  forall s, Forall well_quoted (split_on ";" s) ->
            cruet_parse_cookies s = split_parse_cookies s.
Proof.
  split; [by vm_compute|]. intros s Hwq.
  unfold cruet_parse_cookies, split_parse_cookies.
  by rewrite cookie_loop_split.
Qed.

Lemma parse_cookies_split_witness :
  cruet_parse_cookies (B "sid = " ++ DQUOTE :: B "a b" ++ DQUOTE :: B " ; junk;=x; sid=2; t= 3 ")
  = <[B "t" := B "3"]> (<[B "sid" := B "2"]> ∅).
Proof.
  rewrite (proj2 parse_cookies_split).
  - vm_compute. reflexivity.
  - match goal with |- Forall _ ?l =>
      let l' := eval vm_compute in l in change (Forall well_quoted l') end.
    repeat (apply Forall_cons_2;
      [vm_compute; intros Hq; first [discriminate Hq | split; [lia | reflexivity]]|]).
    apply Forall_nil_2.
Defined.

(** C9 as stated does not hold: a [;] inside a quoted value does not end
    the segment, so the header [a="x;y"] gives [a] the value [x;y], where
    splitting at [;] first gives it the text before the [;]. *)
Lemma parse_cookies_not_split_first :
  cruet_parse_cookies (B "a=" ++ DQUOTE :: B "x;y" ++ [DQUOTE]) !! B "a" = Some (B "x;y") /\
  spec_parse_cookies (B "a=" ++ DQUOTE :: B "x;y" ++ [DQUOTE]) !! B "a" = Some (DQUOTE :: B "x") /\
  cruet_parse_cookies (B "a=" ++ DQUOTE :: B "x;y" ++ [DQUOTE])
    <> spec_parse_cookies (B "a=" ++ DQUOTE :: B "x;y" ++ [DQUOTE]).
Proof.
  split; [by vm_compute|]. split; [by vm_compute|].
  intros H. apply (f_equal (fun m => m !! B "a")) in H. by vm_compute in H.
Qed.

End CookieFacts.

(** ** The routing engine *)

Module RoutingFacts.
Import Routing.

Lemma bytes_eqb_eq a b : bytes_eqb a b = true <-> a = b.
Proof. unfold bytes_eqb. apply bool_decide_eq_true. Qed.

Lemma bytes_eqb_neq a b : bytes_eqb a b = false <-> a <> b.
Proof. unfold bytes_eqb. apply bool_decide_eq_false. Qed.

(** The fuel of [parse_rule_segments] is enough: the loop gives the same
    result with any larger fuel, so that [None] stands for an unclosed
    [<] only. *)
Lemma parse_rule_segments_fuel fuel p :
  length p <= fuel ->
  parse_rule_segments_loop fuel p = parse_rule_segments_loop (length p) p.
Proof.
  assert (H : forall k q f1 f2, length q <= k -> length q <= f1 -> length q <= f2 ->
            parse_rule_segments_loop f1 q = parse_rule_segments_loop f2 q).
  { induction k as [|k IH]; intros [|c q] f1 f2 Hk H1 H2; simpl in Hk, H1, H2;
      try (by destruct f1, f2); try lia.
    destruct f1 as [|f1]; [lia|]. destruct f2 as [|f2]; [lia|].
    cbn [parse_rule_segments_loop].
    destruct (Ascii.eqb c "<") eqn:Hc.
    - destruct (length q <=? scan_while (not_char ">") q)%nat; [done|].
      rewrite (IH _ f1 f2); [done|..]; rewrite length_skipn; lia.
    - assert (Hn : scan_while (not_char "<") (c :: q)
                   = S (scan_while (not_char "<") q)).
      { simpl. unfold not_char at 1. by rewrite Hc. }
      rewrite Hn. cbn [skipn].
      rewrite (IH _ f1 f2); [done|..]; rewrite length_skipn; lia. }
  intros Hf. by apply (H (length p)).
Qed.

Section modular.
Variable n : nat.
Hypothesis Hn : 0 < n.

Lemma offset_step h d : ((h + 1) mod n + d) mod n = (h + S d) mod n.
Proof.
  rewrite Nat.Div0.add_mod_idemp_l. f_equal. lia.
Qed.

Lemma offset_exists h e : h < n -> e < n -> exists d, d < n /\ (h + d) mod n = e.
Proof.
  intros Hh He. destruct (le_lt_dec h e).
  - exists (e - h). split; [lia|]. replace (h + (e - h)) with e by lia.
    by apply Nat.mod_small.
  - exists (e + n - h). split; [lia|].
    replace (h + (e + n - h)) with (e + 1 * n) by lia.
    rewrite Nat.Div0.mod_add. by apply Nat.mod_small.
Qed.

Lemma offset_inj h d1 d2 :
  h < n -> d1 < n -> d2 < n -> (h + d1) mod n = (h + d2) mod n -> d1 = d2.
Proof.
  intros Hh H1 H2 E.
  assert (Hc : forall d, d < n -> (h + d) mod n = if le_lt_dec n (h + d) then h + d - n else h + d).
  { intros d Hd. destruct (le_lt_dec n (h + d)).
    - replace (h + d) with ((h + d - n) + 1 * n) at 1 by lia.
      rewrite Nat.Div0.mod_add. apply Nat.mod_small. lia.
    - by apply Nat.mod_small. }
  rewrite !Hc in E by done.
  destruct (le_lt_dec n (h + d1)), (le_lt_dec n (h + d2)); lia.
Qed.
End modular.

Lemma home_lt es key : 0 < length es -> home es key < length es.
Proof.
  intros H. unfold home.
  pose proof (Z.mod_pos_bound (fnv1a_hash key) (Z.of_nat (length es))). lia.
Qed.

Lemma slot_at_lt es key d : 0 < length es -> slot_at es key d < length es.
Proof. intros H. unfold slot_at. apply Nat.mod_upper_bound. lia. Qed.

Lemma stop_not_other es key i : stop es key i -> other es key i -> False.
Proof.
  intros [H|[r H]] (k & r' & H' & Hk); rewrite H in H'; naive_solver.
Qed.

(** The probe ends at the first slot on its way that is free or holds the
    key. *)
Lemma probe_walk fuel es key idx :
  0 < length es -> idx < length es ->
  (exists d, d < fuel /\ stop es key ((idx + d) mod length es)) ->
  exists d, d < fuel /\
    probe fuel es key idx = Some ((idx + d) mod length es) /\
    stop es key ((idx + d) mod length es) /\
    forall d', d' < d -> other es key ((idx + d') mod length es).
Proof.
  intros Hcap. revert idx.
  induction fuel as [|fuel IH]; intros idx Hidx (d & Hd & Hstop); [lia|].
  cbn [probe].
  destruct (es !! idx) as [[[k r]|]|] eqn:E.
  - destruct (bytes_eqb k key) eqn:Ek.
    + apply bytes_eqb_eq in Ek. subst k. exists 0.
      rewrite Nat.add_0_r, Nat.mod_small by done.
      split; [lia|]. split; [done|]. split; [right; eauto|]. intros; lia.
    + apply bytes_eqb_neq in Ek.
      destruct d as [|d].
      { rewrite Nat.add_0_r, Nat.mod_small in Hstop by done.
        exfalso. apply (stop_not_other es key idx); [done|]. by exists k, r. }
      destruct (IH ((idx + 1) mod length es)) as (d2 & Hd2 & Hp & Hs & Ho).
      { apply Nat.mod_upper_bound. lia. }
      { exists d. split; [lia|]. by rewrite offset_step by done. }
      exists (S d2). rewrite offset_step in Hp, Hs by done.
      split; [lia|]. split; [done|]. split; [done|].
      intros [|d'] Hd'.
      * rewrite Nat.add_0_r, Nat.mod_small by done. by exists k, r.
      * rewrite <- offset_step by done. apply Ho. lia.
  - exists 0. rewrite Nat.add_0_r, Nat.mod_small by done.
    split; [lia|]. split; [done|]. split; [by left|]. intros; lia.
  - apply lookup_ge_None in E. exfalso. lia.
Qed.

Section table.
Variable es : list Cruet_StaticEntry.
Hypothesis Hinv : table_inv es.

Lemma find_slot_present key r i :
  es !! i = Some (Some (key, r)) -> static_index_find_slot es key = Some i.
Proof.
  intros Hi. pose proof (inv_cap es Hinv) as Hcap.
  destruct (inv_path es Hinv i key r Hi) as (d & Hd & -> & Hocc).
  unfold static_index_find_slot.
  destruct (probe_walk (length es) es key (home es key) Hcap (home_lt es key Hcap))
    as (d2 & Hd2 & Hp & Hs & Ho).
  { exists d. split; [done|]. right. by exists r. }
  rewrite Hp. f_equal. fold (slot_at es key d2). f_equal.
  destruct (lt_eq_lt_dec d2 d) as [[Hlt| ->]|Hgt]; [|done|].
  - (* the probe stopped before the key *)
    destruct Hs as [Hs|[r2 Hs]].
    + destruct (Hocc d2 Hlt) as [e He]. unfold slot_at in He. congruence.
    + pose proof (inv_unique es Hinv _ _ _ _ _ Hi Hs) as Heq.
      apply offset_inj in Heq; [lia|done|by apply home_lt|done|done].
  - exfalso. apply (stop_not_other es key (slot_at es key d)).
    + right. by exists r.
    + by apply Ho.
Qed.

End table.


Lemma occ_le es : occ es <= length es.
Proof. induction es as [|[e|] es IH]; simpl; lia. Qed.

Lemma occ_free es : occ es < length es -> exists i, es !! i = Some None.
Proof.
  induction es as [|[e|] es IH]; simpl; intros Hlt; [lia| |by exists 0].
  destruct IH as [i Hi]; [lia|]. by exists (S i).
Qed.

Lemma occ_zero es i e : occ es = 0 -> es !! i = Some (Some e) -> False.
Proof.
  revert i. induction es as [|[e'|] es IH]; intros [|i]; simpl; try done.
  intros H0 Hi. by apply (IH i).
Qed.

Lemma occ_insert es i e :
  es !! i = Some None -> occ (<[i := Some e]> es) = S (occ es).
Proof.
  revert i. induction es as [|[e'|] es IH]; intros [|i]; simpl; try done.
  - intros Hi. by rewrite IH.
  - intros Hi. by rewrite IH.
Qed.

Lemma occ_repeat n : occ (repeat None n) = 0.
Proof. induction n; simpl; done. Qed.

Lemma lookup_repeat_None n i e : repeat (@None (bytes * Cruet_Rule)) n !! i = Some (Some e) -> False.
Proof.
  revert i. induction n as [|n IH]; intros [|i]; simpl; try done. apply IH.
Qed.

Lemma table_inv_repeat n : 0 < n -> table_inv (repeat None n).
Proof.
  intros Hn. split.
  - by rewrite repeat_length.
  - intros i j k r r' Hi. by apply lookup_repeat_None in Hi.
  - intros i k r Hi. by apply lookup_repeat_None in Hi.
Qed.

Lemma home_insert es i e key : home (<[i := e]> es) key = home es key.
Proof. unfold home. by rewrite length_insert. Qed.

Lemma slot_at_insert es i e key d : slot_at (<[i := e]> es) key d = slot_at es key d.
Proof. unfold slot_at. by rewrite home_insert, length_insert. Qed.

(** Filling the free slot a probe has reached keeps the table well-formed. *)
Lemma table_inv_insert es key rule d :
  table_inv es ->
  d < length es ->
  es !! slot_at es key d = Some None ->
  (forall r, ~ table_has es key r) ->
  (forall d', d' < d -> exists e, es !! slot_at es key d' = Some (Some e)) ->
  table_inv (<[slot_at es key d := Some (key, rule)]> es).
Proof.
  intros Hinv Hd Hfree Habs Hocc. set (i := slot_at es key d) in *.
  assert (Hi : i < length es) by (apply lookup_lt_is_Some; eauto).
  split.
  - rewrite length_insert. apply (inv_cap es Hinv).
  - intros a b k r r' Ha Hb.
    destruct (decide (a = i)) as [->|Hai], (decide (b = i)) as [->|Hbi]; [done| | |].
    + rewrite list_lookup_insert_eq in Ha by done. injection Ha as <- <-.
      rewrite list_lookup_insert_ne in Hb by done. exfalso. apply (Habs r'). by exists b.
    + rewrite list_lookup_insert_eq in Hb by done. injection Hb as <- <-.
      rewrite list_lookup_insert_ne in Ha by done. exfalso. apply (Habs r). by exists a.
    + rewrite list_lookup_insert_ne in Ha, Hb by done.
      apply (inv_unique es Hinv _ _ _ _ _ Ha Hb).
  - intros a k r Ha. rewrite length_insert.
    assert (Hkeep : forall k0 d0,
               (exists e, es !! slot_at es k0 d0 = Some (Some e)) ->
               exists e, <[i := Some (key, rule)]> es !! slot_at es k0 d0 = Some (Some e)).
    { intros k0 d0 [e He]. destruct (decide (slot_at es k0 d0 = i)) as [->|Hne].
      - rewrite list_lookup_insert_eq by done. eauto.
      - rewrite list_lookup_insert_ne by done. eauto. }
    destruct (decide (a = i)) as [->|Hai].
    + rewrite list_lookup_insert_eq in Ha by done. injection Ha as <- <-.
      exists d. split; [done|]. split; [by rewrite slot_at_insert|].
      intros d' Hd'. rewrite slot_at_insert. apply Hkeep. by apply Hocc.
    + rewrite list_lookup_insert_ne in Ha by done.
      destruct (inv_path es Hinv a k r Ha) as (d0 & Hd0 & -> & Hp).
      exists d0. split; [done|]. split; [by rewrite slot_at_insert|].
      intros d' Hd'. rewrite slot_at_insert. apply Hkeep. by apply Hp.
Qed.

Lemma table_has_insert es i key rule k r :
  es !! i = Some None ->
  table_has (<[i := Some (key, rule)]> es) k r
  <-> table_has es k r \/ (k = key /\ r = rule).
Proof.
  intros Hfree. assert (Hi : i < length es) by (apply lookup_lt_is_Some; eauto).
  unfold table_has. split.
  - intros [a Ha]. destruct (decide (a = i)) as [->|Hai].
    + rewrite list_lookup_insert_eq in Ha by done. injection Ha as <- <-. by right.
    + rewrite list_lookup_insert_ne in Ha by done. left. by exists a.
  - intros [[a Ha]|[-> ->]].
    + exists a. rewrite list_lookup_insert_ne; [done|]. intros <-. congruence.
    + exists i. by rewrite list_lookup_insert_eq.
Qed.

(** In a well-formed table with a free slot every probe ends, at the key
    when the table has it and at a free slot otherwise. *)
Lemma find_slot_total es key :
  table_inv es -> occ es < length es ->
  (exists i r, static_index_find_slot es key = Some i /\
               es !! i = Some (Some (key, r))) \/
  (exists d, d < length es /\
     static_index_find_slot es key = Some (slot_at es key d) /\
     es !! slot_at es key d = Some None /\
     (forall r, ~ table_has es key r) /\
     forall d', d' < d -> exists e, es !! slot_at es key d' = Some (Some e)).
Proof.
  intros Hinv Hocc. pose proof (inv_cap es Hinv) as Hcap.
  destruct (occ_free es Hocc) as [i Hi].
  assert (Hil : i < length es) by (apply lookup_lt_is_Some; eauto).
  destruct (offset_exists (length es) Hcap (home es key) i (home_lt es key Hcap) Hil)
    as (d & Hd & Hdi).
  destruct (probe_walk (length es) es key (home es key) Hcap (home_lt es key Hcap))
    as (d2 & Hd2 & Hp & Hs & Ho).
  { exists d. split; [done|]. left. by rewrite Hdi. }
  destruct Hs as [Hs|[r Hs]].
  - right. exists d2. split; [done|]. split; [done|]. split; [done|]. split.
    + intros r [j Hj]. pose proof (find_slot_present es Hinv key r j Hj) as Hf.
      unfold static_index_find_slot in Hf. rewrite Hp in Hf. injection Hf as <-.
      congruence.
    + intros d' Hd'. destruct (Ho d' Hd') as (k & r & Hk & _). by exists (k, r).
  - left. by exists ((home es key + d2) mod length es), r.
Qed.

Lemma rehash_spec old : forall new,
  table_inv new ->
  (forall i j k r r', old !! i = Some (Some (k, r)) ->
                      old !! j = Some (Some (k, r')) -> i = j) ->
  (forall i k r r', old !! i = Some (Some (k, r)) -> ~ table_has new k r') ->
  occ new + occ old < length new ->
  exists new',
    rehash new old = Some new' /\ table_inv new' /\
    length new' = length new /\ occ new' = occ new + occ old /\
    forall k r, table_has new' k r <->
                table_has new k r \/ exists i, old !! i = Some (Some (k, r)).
Proof.
  induction old as [|[[k r]|] old IH]; intros new Hinv Huniq Hfresh Hocc.
  - exists new. simpl. split; [done|]. split; [done|]. split; [done|].
    split; [lia|]. intros k r. split; [by left|].
    intros [?|[i Hi]]; [done|by destruct i].
  - cbn [rehash]. simpl in Hocc.
    destruct (find_slot_total new k Hinv) as [(i & r0 & _ & Hi)|(d & Hd & Hf & Hfree & Habs & Hpath)].
    { lia. }
    { exfalso. apply (Hfresh 0 k r r0); [done|]. by exists i. }
    rewrite Hf. cbn [mbind option_bind].
    destruct (IH (<[slot_at new k d := Some (k, r)]> new))
      as (new' & Hr & Hinv' & Hlen & Hocc' & Hhas).
    + by apply table_inv_insert.
    + intros i j k' r1 r2 Hi Hj.
      assert (S i = S j) by (by apply (Huniq (S i) (S j) k' r1 r2)). lia.
    + intros i k' r1 r2 Hi Hh. apply table_has_insert in Hh; [|done].
      destruct Hh as [[a Ha]|[-> ->]].
      * apply (Hfresh (S i) k' r1 r2); [done|]. by exists a.
      * by specialize (Huniq (S i) 0 k r1 r Hi eq_refl).
    + rewrite length_insert, occ_insert by done. lia.
    + exists new'. split; [done|]. split; [done|].
      rewrite Hlen, length_insert. split; [done|].
      rewrite Hocc', occ_insert by done. split; [simpl; lia|].
      intros k' r'. rewrite Hhas, table_has_insert by done. split.
      * intros [[H|[-> ->]]|[i Hi]]; [by left|right; by exists 0|right; by exists (S i)].
      * intros [H|[[|i] Hi]]; [by left; left| |right; by exists i].
        injection Hi as <- <-. left. by right.
  - cbn [rehash]. simpl in Hocc.
    destruct (IH new) as (new' & Hr & Hinv' & Hlen & Hocc' & Hhas); try done.
    + intros i j k r r' Hi Hj.
      assert (S i = S j) by (by apply (Huniq (S i) (S j) k r r')). lia.
    + intros i k r r' Hi. by apply (Hfresh (S i) k r r').
    + exists new'. split; [done|]. split; [done|]. split; [done|]. split; [done|].
      intros k r. rewrite Hhas. split.
      * intros [H|[i Hi]]; [by left|right; by exists (S i)].
      * intros [H|[[|i] Hi]]; [by left|done|right; by exists i].
Qed.

Lemma static_index_grow_spec idx :
  index_inv idx ->
  exists idx',
    static_index_grow idx = Some idx' /\
    table_inv (entries idx') /\
    count idx' = occ (entries idx') /\
    count idx' = count idx /\
    length (entries idx') = length (entries idx) * 2 /\
    forall k r, table_has (entries idx') k r <-> table_has (entries idx) k r.
Proof.
  intros [Hinv Hcount Hload Hcap]. unfold static_index_grow.
  unfold STATIC_INDEX_INITIAL_CAP, STATIC_INDEX_LOAD_FACTOR in *.
  destruct (rehash_spec (entries idx) (repeat None (length (entries idx) * 2)))
    as (new' & Hr & Hinv' & Hlen & Hocc & Hhas).
  - apply table_inv_repeat. lia.
  - apply (inv_unique _ Hinv).
  - intros i k r r' _ [j Hj]. by apply lookup_repeat_None in Hj.
  - rewrite occ_repeat, repeat_length. lia.
  - rewrite Hr. cbn [mbind option_bind]. eexists. split; [done|]. cbn [entries count].
    rewrite occ_repeat in Hocc. rewrite repeat_length in Hlen.
    split; [done|]. split; [lia|]. split; [done|]. split; [done|].
    intros k r. rewrite Hhas. split.
    + intros [[j Hj]|H]; [by apply lookup_repeat_None in Hj|done].
    + intros H. by right.
Qed.

(** [static_index_insert] ends, keeps the index well-formed, and adds the
    rule under its key unless the key is taken. *)
Lemma static_index_insert_spec idx key rule :
  index_inv idx ->
  exists idx',
    static_index_insert idx key rule = Some idx' /\
    index_inv idx' /\
    forall k r,
      table_has (entries idx') k r <->
      table_has (entries idx) k r \/
      (k = key /\ r = rule /\ forall r0, ~ table_has (entries idx) key r0).
Proof.
  intros Hidx. unfold static_index_insert.
  assert (exists idx1,
    (if (length (entries idx) * STATIC_INDEX_LOAD_FACTOR <? (count idx + 1) * 100)%nat
     then static_index_grow idx else Some idx) = Some idx1 /\
    table_inv (entries idx1) /\ count idx1 = occ (entries idx1) /\
    (count idx1 + 1) * 100 <= length (entries idx1) * STATIC_INDEX_LOAD_FACTOR /\
    STATIC_INDEX_INITIAL_CAP <= length (entries idx1) /\
    forall k r, table_has (entries idx1) k r <-> table_has (entries idx) k r)
    as (idx1 & -> & Hinv & Hcount & Hload & Hcap & Hsame).
  { destruct (Nat.ltb_spec (length (entries idx) * STATIC_INDEX_LOAD_FACTOR)
                ((count idx + 1) * 100)) as [Hgrow|Hfit].
    - destruct (static_index_grow_spec idx Hidx) as (idx1 & -> & H1 & H2 & H3 & H4 & H5).
      destruct Hidx as [_ _ Hload Hcap].
      unfold STATIC_INDEX_INITIAL_CAP, STATIC_INDEX_LOAD_FACTOR in *.
      exists idx1. repeat (split; [done || lia|]). done.
    - destruct Hidx as [Hinv Hcount Hload Hcap]. exists idx.
      repeat (split; [done|]). done. }
  cbn [mbind option_bind].
  assert (Hfree : occ (entries idx1) < length (entries idx1)).
  { unfold STATIC_INDEX_LOAD_FACTOR in *. lia. }
  destruct (find_slot_total (entries idx1) key Hinv Hfree)
    as [(i & r0 & -> & Hi)|(d & Hd & -> & Hslot & Habs & Hpath)];
    cbn [mbind option_bind].
  - rewrite Hi. exists idx1. split; [done|]. split.
    + split; try done. unfold STATIC_INDEX_LOAD_FACTOR in *. lia.
    + intros k r. rewrite Hsame. split; [by left|].
      intros [H|(_ & _ & Hno)]; [done|]. exfalso. apply (Hno r0), Hsame. by exists i.
  - rewrite Hslot. eexists. split; [done|]. cbn [entries count]. split.
    + split; cbn [entries count].
      * by apply table_inv_insert.
      * rewrite occ_insert by done. lia.
      * rewrite length_insert. unfold STATIC_INDEX_LOAD_FACTOR in *. lia.
      * by rewrite length_insert.
    + intros k r. rewrite table_has_insert by done. rewrite Hsame. split.
      * intros [H|[-> ->]]; [by left|]. right. split; [done|]. split; [done|].
        intros r0 Hr0. by apply (Habs r0), Hsame.
      * intros [H|(-> & -> & _)]; [by left|by right].
Qed.

(** [static_index_lookup] ends and finds what the table has. *)
Lemma static_index_lookup_spec idx key :
  index_inv idx ->
  exists res,
    static_index_lookup idx key = Some res /\
    match res with
    | Some r => table_has (entries idx) key r
    | None => forall r, ~ table_has (entries idx) key r
    end.
Proof.
  intros [Hinv Hcount Hload Hcap]. unfold static_index_lookup.
  destruct (Nat.eqb_spec (count idx) 0) as [H0|Hn0].
  - exists None. split; [done|]. intros r [i Hi].
    rewrite H0 in Hcount. by apply (occ_zero (entries idx) i (key, r)).
  - assert (Hfree : occ (entries idx) < length (entries idx)).
    { unfold STATIC_INDEX_LOAD_FACTOR, STATIC_INDEX_INITIAL_CAP in *. lia. }
    destruct (find_slot_total (entries idx) key Hinv Hfree)
      as [(i & r0 & -> & Hi)|(d & Hd & -> & Hslot & Habs & Hpath)];
      cbn [mbind option_bind].
    + rewrite Hi. exists (Some r0). split; [done|]. by exists i.
    + rewrite Hslot. by exists None.
Qed.

Lemma index_inv_init : index_inv static_index_init.
Proof.
  split; cbn.
  - apply (table_inv_repeat 16). lia.
  - done.
  - lia.
  - done.
Qed.

Lemma first_static_app rs r k :
  first_static (rs ++ [r]) k =
  match first_static rs k with
  | Some x => Some x
  | None => if is_static r && bytes_eqb (rule_str r) k then Some r else None
  end.
Proof.
  unfold first_static. induction rs as [|x rs IH]; simpl.
  - by destruct (_ && _).
  - by destruct (is_static x && _).
Qed.

(** The map that registering the rules [rs] in order builds: every
    registration ends, and the index holds under each key the first static
    rule registered with that pattern. *)
Lemma Map_of_spec rs :
  exists m,
    Map_of rs = Some m /\
    rules m = rs /\
    dynamic_rules m = filter (fun r => is_static r = false) rs /\
    index_inv (static_index m) /\
    forall k r, table_has (entries (static_index m)) k r <-> first_static rs k = Some r.
Proof.
  induction rs as [|r rs IH] using rev_ind.
  - exists Map_init. split; [done|]. split; [done|]. split; [done|].
    split; [apply index_inv_init|]. intros k r. split; [|done].
    intros [i Hi]. by apply (lookup_repeat_None 16) in Hi.
  - destruct IH as (m & Hm & Hrules & Hdyn & Hinv & Hhas).
    unfold Map_of in *. rewrite fold_left_app. cbn [fold_left]. rewrite Hm.
    cbn [mbind option_bind]. unfold Map_add.
    destruct (is_static r) eqn:Hst.
    + destruct (static_index_insert_spec (static_index m) (rule_str r) r Hinv)
        as (idx' & -> & Hinv' & Hhas').
      cbn [mbind option_bind negb]. eexists. split; [done|]. cbn.
      split; [by rewrite Hrules|]. split.
      { rewrite filter_app, Hdyn. cbn. rewrite decide_False by (rewrite Hst; done).
        by rewrite app_nil_r. }
      split; [done|]. intros k r'. rewrite Hhas', first_static_app, Hst. cbn.
      rewrite Hhas. destruct (first_static rs k) as [x|] eqn:Ex.
      * split; [intros [H|(-> & _ & Hno)]; [done|]|by left].
        exfalso. apply (Hno x). by apply Hhas.
      * destruct (bytes_eqb (rule_str r) k) eqn:Ek.
        -- apply bytes_eqb_eq in Ek. subst k. split.
           ++ intros [H|(_ & -> & _)]; done.
           ++ intros [= <-]. right. split; [done|]. split; [done|].
              intros r0 Hr0%Hhas. congruence.
        -- apply bytes_eqb_neq in Ek. split; [|done].
           intros [H|(-> & _)]; done.
    + cbn [mbind option_bind negb]. eexists. split; [done|]. cbn.
      split; [by rewrite Hrules|]. split.
      { rewrite filter_app, Hdyn. cbn. by rewrite decide_True by done. }
      split; [done|]. intros k r'. rewrite Hhas, first_static_app, Hst. cbn.
      by destruct (first_static rs k).
Qed.

Section routing_facts.
Context `{FloatModel}.

Lemma Map_of_rules rs m :
  Map_of rs = Some m ->
  rules m = rs /\ dynamic_rules m = dynamic_of rs.
Proof.
  intros Hm. destruct (Map_of_spec rs) as (m' & Hm' & Hr & Hd & _).
  rewrite Hm in Hm'. by injection Hm' as <-.
Qed.

(** On a map built by registration, [match] ends and is [route]. *)
Lemma MapAdapter_match_route rs m name path method :
  Map_of rs = Some m ->
  MapAdapter_match (Map_bind m name) path method = Some (route rs path method).
Proof.
  intros Hm. destruct (Map_of_spec rs) as (m' & Hm' & _ & Hdyn & Hinv & Hhas).
  rewrite Hm in Hm'. injection Hm' as <-.
  assert (Hlook : forall k, static_index_lookup (static_index m) k
                            = Some (first_static rs k)).
  { intros k. destruct (static_index_lookup_spec (static_index m) k Hinv)
      as ([r|] & -> & Hres); f_equal.
    - symmetry. by apply Hhas.
    - destruct (first_static rs k) as [r|] eqn:E; [|done].
      exfalso. apply (Hres r). by apply Hhas. }
  unfold MapAdapter_match, route, static_probe, allows, method_upper, dynamic_of.
  cbn [Map_bind adapter_map]. rewrite Hlook, Hdyn. cbn [mbind option_bind].
  destruct (first_static rs path) as [r|]; [by destruct (cruet_rule_has_method _ _ _)|].
  destruct (alt_key path) as [k|]; cbn [mbind option_bind]; [|done].
  rewrite Hlook. cbn [mbind option_bind].
  destruct (first_static rs k) as [r|]; [|done].
  destruct (strict_slashes r); cbn [negb]; [done|].
  by destruct (cruet_rule_has_method _ _ _).
Qed.


Lemma first_static_Some rs k r :
  first_static rs k = Some r -> r ∈ rs /\ is_static r = true /\ rule_str r = k.
Proof.
  intros Hf. unfold first_static in Hf. apply find_some in Hf as [Hin Hb].
  apply andb_true_iff in Hb as [Hs Hk]. apply bytes_eqb_eq in Hk.
  split; [by apply list_elem_of_In|done].
Qed.




Lemma Cruet_Rule_match_internal_iff r path v :
  Cruet_Rule_match_internal r path = Some v <->
  exists rest,
    match_segments (segments r) path ∅ = Some (v, rest) /\
    (rest = [] \/ (strict_slashes r = false /\ rest = B "/")).
Proof.
  unfold Cruet_Rule_match_internal.
  destruct (match_segments (segments r) path ∅) as [[v' rest]|]; cbn.
  - destruct rest as [|c rest].
    + split; [intros [= <-]; eauto|]. by intros (rest & [= <- <-] & _).
    + destruct (strict_slashes r); cbn.
      * split; [done|]. intros (rest' & [= <- <-] & [?|[? _]]); done.
      * destruct (bytes_eqb (c :: rest) _) eqn:E.
        -- apply bytes_eqb_eq in E. split; [intros [= <-]; eauto|].
           by intros (rest' & [= <- <-] & _).
        -- apply bytes_eqb_neq in E. split; [done|].
           intros (rest' & [= <- <-] & [?|[_ ?]]); done.
  - split; [done|]. by intros (rest & ? & _).
Qed.


(** *** HEAD and OPTIONS *)






End routing_facts.

Section build_match.
Context `{FloatModel}.








End build_match.








End RoutingFacts.

(** * Further properties *)

(** ** More on scans and lists *)

Lemma scan_while_full (keep : ascii -> bool) l :
  length l <= scan_while keep l -> forallb keep l = true.
Proof.
  induction l as [|c l IH]; simpl; [done|].
  destruct (keep c); simpl; [|lia]. intros Hl. apply IH. lia.
Qed.

Lemma forallb_scan_skipn (keep : ascii -> bool) l :
  forallb keep l = forallb keep (skipn (scan_while keep l) l).
Proof.
  induction l as [|c l IH]; simpl; [done|].
  destruct (keep c) eqn:Hc; simpl; [done|]. by rewrite Hc.
Qed.

Lemma not_char_false c d : not_char c d = true -> Ascii.eqb d c = false.
Proof. unfold not_char. by intros ?%negb_true_iff. Qed.

Lemma not_char_is c d : not_char c d = false -> d = c.
Proof. unfold not_char. intros E%negb_false_iff. by apply Ascii.eqb_eq. Qed.

Lemma skipn_app_cons {A} (a : list A) x b :
  skipn (length a + 1) (a ++ x :: b) = b.
Proof. induction a as [|y a IH]; simpl; [done|exact IH]. Qed.

Lemma firstn_app_exact {A} (a b : list A) : firstn (length a) (a ++ b) = a.
Proof. by rewrite firstn_app, firstn_all, Nat.sub_diag, firstn_O, app_nil_r. Qed.

(** ** The HTTP request parser: lines, headers and body *)

Module ParserProps.
Import HttpParser ParserFacts.

(** *** More on the request parser *)

Lemma apply_line_cases st h :
  apply_line st h =
  if has_colon h then header_step (header_name h) (header_value h) st else st.
Proof.
  unfold apply_line, has_colon, header_name, header_value.
  by destruct (length h <=? scan_while (not_char ":") h)%nat.
Qed.

Lemma fold_headers_lookup hlines : forall st name,
  hs_headers (fold_left apply_line hlines st) !! name =
  match find (fun h => has_colon h && bytes_eqb (header_name h) name) (rev hlines) with
  | Some h => Some (header_value h)
  | None => hs_headers st !! name
  end.
Proof.
  induction hlines as [|h hlines IH] using rev_ind; intros st name; [done|].
  rewrite fold_left_app, rev_app_distr. cbn [fold_left rev app find].
  rewrite apply_line_cases. destruct (has_colon h); cbn [andb].
  - cbn [header_step hs_headers]. unfold bytes_eqb.
    destruct (decide (header_name h = name)) as [->|Hne].
    + rewrite bool_decide_eq_true_2 by done. by rewrite lookup_insert_eq.
    + rewrite bool_decide_eq_false_2 by done. rewrite lookup_insert_ne by done.
      apply IH.
  - apply IH.
Qed.

Lemma fold_content_length hlines : forall st,
  forallb (fun h => negb (names_content_length h)) hlines = true ->
  hs_content_length (fold_left apply_line hlines st) = hs_content_length st.
Proof.
  induction hlines as [|h hlines IH]; intros st; cbn [fold_left forallb]; [done|].
  intros [Hh Hrest]%andb_true_iff. rewrite (IH _ Hrest), apply_line_cases.
  unfold names_content_length in Hh. destruct (has_colon h); [|done].
  cbn [andb] in Hh. apply negb_true_iff in Hh.
  cbn [header_step hs_content_length]. by rewrite Hh.
Qed.

Lemma extract_body_prefix n hp : exists tail, hp = extract_body n hp ++ tail.
Proof.
  unfold extract_body. destruct (_ && _).
  - exists (skipn (Z.to_nat n) hp). by rewrite firstn_skipn.
  - destruct (_ || _); [by exists hp|]. exists []. by rewrite app_nil_r.
Qed.

(** The parse of a request with complete header lines and a tail. *)
Lemma parse_complete line m u v hlines tl :
  request_line line m u v -> Forall header_line hlines -> header_tail tl ->
  cruet_parse_http_request (line ++ CRLF ++ block hlines ++ tl) =
  Some {| method := m;
          path := firstn (scan_while (not_char "?") u) u;
          version := v;
          query_string := skipn (scan_while (not_char "?") u + 1) u;
          headers := hs_headers (fold_left apply_line hlines hstate_init);
          body := extract_body
                    (hs_content_length (fold_left apply_line hlines hstate_init))
                    match find_crlf tl with Some _ => skipn 2 tl | None => tl end;
          keep_alive := hs_keep_alive (fold_left apply_line hlines hstate_init) |}.
Proof.
  intros Hline Hh Ht. rewrite (parse_request_line _ _ _ _ _ Hline).
  by rewrite (run_header_loop_block _ _ _ Hh Ht).
Qed.

(** X1: in the result for a request with complete header lines, the
    header dict gives for each name the value of the last line with
    exactly that name; lines without a colon count for nothing, and the
    blanks that lead a value are dropped. *)
Theorem headers_last_line_wins line m u v hlines tl r name :
  request_line line m u v -> Forall header_line hlines -> header_tail tl ->
  cruet_parse_http_request (line ++ CRLF ++ block hlines ++ tl) = Some r ->
  headers r !! name =
  header_value <$>
    find (fun h => has_colon h && bytes_eqb (header_name h) name) (rev hlines).
Proof.
  intros Hline Hh Ht. rewrite (parse_complete _ _ _ _ _ _ Hline Hh Ht).
  intros [= <-]. cbn [headers]. rewrite fold_headers_lookup.
  by destruct (find _ _).
Qed.

(** X2: the body of the result is always a prefix of the bytes that follow
    the blank line.  It is empty when the header lines declare the length
    0 or none (no line with the name Content-Length is one such case),
    and it is all the bytes that follow when they declare a length below
    -1. *)
Theorem body_for_other_lengths line m u v hlines rest :
  request_line line m u v -> Forall header_line hlines ->
  exists r,
    cruet_parse_http_request (line ++ CRLF ++ block hlines ++ CRLF ++ rest) = Some r /\
    (exists tail, rest = body r ++ tail) /\
    (declared_content_length hlines = 0%Z \/ declared_content_length hlines = (-1)%Z ->
     body r = []) /\
    ((declared_content_length hlines < -1)%Z -> body r = rest) /\
    (forallb (fun h => negb (names_content_length h)) hlines = true ->
     declared_content_length hlines = (-1)%Z).
Proof.
  intros Hline Hh.
  rewrite (parse_complete _ _ _ _ _ _ Hline Hh (tail_blank rest)).
  eexists. split; [done|]. cbn [body].
  change (find_crlf (CRLF ++ rest)) with (Some 0). cbn [skipn app CRLF].
  fold (declared_content_length hlines). split; [apply extract_body_prefix|].
  unfold extract_body. split; [|split].
  - by intros [-> | ->].
  - intros Hn.
    destruct (Z.ltb_spec 0 (declared_content_length hlines)); [lia|]. cbn [andb].
    destruct (Z.eqb_spec (declared_content_length hlines) 0); [lia|].
    destruct (Z.eqb_spec (declared_content_length hlines) (-1)); [lia|]. done.
  - intros Hno. unfold declared_content_length. by rewrite fold_content_length.
Qed.

(** X3: the parser returns a result exactly for the inputs whose first
    line, up to the first CR LF, is [METHOD SP URI SP VERSION] with no
    space in the method and in the URI and a version of six bytes or
    more; whatever follows that line plays no part in this. *)
Theorem request_line_accepted_iff data :
  is_Some (cruet_parse_http_request data) <->
  exists line m u v rest, data = line ++ CRLF ++ rest /\ request_line line m u v.
Proof.
  split.
  - intros [r Hr]. unfold cruet_parse_http_request in Hr.
    destruct data as [|c0 data0] eqn:Ed; [done|]. rewrite <- Ed in *. clear Ed.
    destruct (find_crlf data) as [n|] eqn:En; [|done].
    set (line := firstn n data) in *.
    destruct (Nat.leb_spec (length line) (scan_while (not_char " ") line)) as [|Hm]; [done|].
    set (uri_on := skipn (scan_while (not_char " ") line + 1) line) in *.
    destruct (Nat.leb_spec (length uri_on) (scan_while (not_char " ") uri_on)) as [|Hu]; [done|].
    destruct (Nat.ltb_spec (length (skipn (scan_while (not_char " ") uri_on + 1) uri_on)) 6)
      as [|Hv]; [done|]. clear Hr.
    destruct (scan_while_split _ _ Hm) as (c1 & r1 & E1 & Hc1 & Hm1 & Hr1).
    destruct (scan_while_split _ _ Hu) as (c2 & r2 & E2 & Hc2 & Hm2 & Hr2).
    apply not_char_is in Hc1 as ->. apply not_char_is in Hc2 as ->.
    exists line, (firstn (scan_while (not_char " ") line) line),
      (firstn (scan_while (not_char " ") uri_on) uri_on), r2, (skipn (n + 2) data).
    split; [by apply find_crlf_split|]. split; [|split; [done|split; [done|split]]].
    + rewrite E1 at 1. f_equal. f_equal. rewrite Hr1. exact E2.
    + by rewrite Hr2.
    + by apply find_crlf_prefix.
  - intros (line & m & u & v & rest & -> & Hline).
    rewrite (parse_request_line _ _ _ _ _ Hline).
    destruct (run_header_loop rest hstate_init). by eexists.
Qed.

(** X4: for a request line [METHOD SP URI SP VERSION], the result has the
    method and the version as they are, and its path and query string are
    the URI cut at its first [?]: the path has no [?], and the URI is the
    path when it has no [?] (the query string is then empty), and
    otherwise the path, a [?] and the query string. *)
Theorem request_line_fields line m u v rest r :
  request_line line m u v ->
  cruet_parse_http_request (line ++ CRLF ++ rest) = Some r ->
  method r = m /\ version r = v /\
  forallb (not_char "?") (path r) = true /\
  ((forallb (not_char "?") u = true /\ path r = u /\ query_string r = []) \/
   u = path r ++ "?" :: query_string r).
Proof.
  intros Hline. rewrite (parse_request_line _ _ _ _ _ Hline).
  destruct (run_header_loop rest hstate_init) as [st hp]. intros [= <-].
  cbn [method version path query_string].
  split; [done|]. split; [done|]. split; [apply scan_while_prefix|].
  destruct (le_lt_dec (length u) (scan_while (not_char "?") u)) as [Hle|Hlt].
  - left. split; [by apply scan_while_full|].
    split; [by apply firstn_all2|]. apply skipn_all2. lia.
  - right. destruct (scan_while_split _ _ Hlt) as (c & q & E & Hc & _ & Hq).
    apply not_char_is in Hc as ->. by rewrite <- Hq.
Qed.

Lemma headers_last_line_wins_witness :
  exists r,
    cruet_parse_http_request
      (B "GET /x HTTP/1.1" ++ CRLF ++
       block [B "Accept: a"; B "junk"; B "Accept:   b"] ++ CRLF ++ []) = Some r /\
    headers r !! B "Accept" =
    header_value <$>
      find (fun h => has_colon h && bytes_eqb (header_name h) (B "Accept"))
        (rev [B "Accept: a"; B "junk"; B "Accept:   b"]).
Proof.
  eexists. split; [vm_compute; reflexivity|].
  apply (headers_last_line_wins (B "GET /x HTTP/1.1") (B "GET") (B "/x") (B "HTTP/1.1")
           [B "Accept: a"; B "junk"; B "Accept:   b"] (CRLF ++ [])).
  - unfold request_line. repeat split; try reflexivity. vm_compute. lia.
  - repeat constructor; done.
  - apply tail_blank.
  - vm_compute. reflexivity.
Defined.

Lemma body_for_other_lengths_witness :
  exists r,
    cruet_parse_http_request
      (B "POST /f HTTP/1.1" ++ CRLF ++
       block [B "Host: a"; B "Content-Length: -5"] ++ CRLF ++ B "hello") = Some r /\
    (exists tail, B "hello" = body r ++ tail) /\
    (declared_content_length [B "Host: a"; B "Content-Length: -5"] = 0%Z \/
     declared_content_length [B "Host: a"; B "Content-Length: -5"] = (-1)%Z ->
     body r = []) /\
    ((declared_content_length [B "Host: a"; B "Content-Length: -5"] < -1)%Z ->
     body r = B "hello") /\
    (forallb (fun h => negb (names_content_length h))
       [B "Host: a"; B "Content-Length: -5"] = true ->
     declared_content_length [B "Host: a"; B "Content-Length: -5"] = (-1)%Z).
Proof.
  apply (body_for_other_lengths (B "POST /f HTTP/1.1") (B "POST") (B "/f") (B "HTTP/1.1")).
  - unfold request_line. repeat split; try reflexivity. vm_compute. lia.
  - repeat constructor; done.
Defined.

Lemma request_line_fields_witness :
  exists r,
    cruet_parse_http_request
      (B "GET /search?q=a?b HTTP/1.1" ++ CRLF ++ B "Host: a" ++ CRLF) = Some r /\
    method r = B "GET" /\ version r = B "HTTP/1.1" /\
    forallb (not_char "?") (path r) = true /\
    ((forallb (not_char "?") (B "/search?q=a?b") = true /\
      path r = B "/search?q=a?b" /\ query_string r = []) \/
     B "/search?q=a?b" = path r ++ "?" :: query_string r).
Proof.
  eexists. split; [vm_compute; reflexivity|].
  apply (request_line_fields (B "GET /search?q=a?b HTTP/1.1") (B "GET")
           (B "/search?q=a?b") (B "HTTP/1.1") (B "Host: a" ++ CRLF)).
  - unfold request_line. repeat split; try reflexivity. vm_compute. lia.
  - vm_compute. reflexivity.
Defined.

End ParserProps.

(** ** The cookie header parser: what the dict holds *)

Module CookieProps.
Import Cookies CookieFacts.

(** *** More on the cookie parser *)

Lemma scan_while_head (keep : ascii -> bool) l :
  match skipn (scan_while keep l) l with
  | c :: _ => keep c = false
  | [] => True
  end.
Proof.
  induction l as [|c l IH]; simpl; [done|].
  destruct (keep c) eqn:Hc; simpl; [exact IH|done].
Qed.

Lemma rtrim_rev l :
  rev (firstn (scan_back is_sp_tab l) l) = skipn (scan_while is_sp_tab (rev l)) (rev l).
Proof.
  unfold scan_back. by rewrite skipn_rev.
Qed.

Lemma rtrim_no_trail l :
  no_lead_blank (rev (firstn (scan_back is_sp_tab l) l)) = true.
Proof.
  rewrite rtrim_rev. pose proof (scan_while_head is_sp_tab (rev l)) as Hh.
  destruct (skipn _ (rev l)); [done|]. simpl. by rewrite Hh.
Qed.

Lemma no_lead_blank_firstn n l :
  no_lead_blank l = true -> no_lead_blank (firstn n l) = true.
Proof. by destruct l, n. Qed.

Lemma head_is_firstn c n l :
  head_is c l = false -> head_is c (firstn n l) = false.
Proof. by destruct l, n. Qed.

Lemma forallb_firstn {A} (f : A -> bool) n l :
  forallb f l = true -> forallb f (firstn n l) = true.
Proof.
  revert n. induction l as [|x l IH]; intros [|n]; simpl; try done.
  intros [-> Hl]%andb_true_iff. by apply IH.
Qed.

Lemma skipped_no_lead (keep : ascii -> bool) l :
  (forall c, is_sp_tab c = true -> keep c = true) ->
  no_lead_blank (skipn (scan_while keep l) l) = true.
Proof.
  intros Hk. pose proof (scan_while_head keep l) as Hh.
  destruct (skipn _ l) as [|c t]; [done|]. simpl.
  destruct (is_sp_tab c) eqn:Hc; [|done]. apply Hk in Hc. congruence.
Qed.

(** What the loop stores is clean. *)
Lemma cookie_loop_clean fuel : forall p r out,
  cookie_loop fuel p r = Some out ->
  map_Forall (fun k v => clean_name k /\ clean_value v) r ->
  map_Forall (fun k v => clean_name k /\ clean_value v) out.
Proof.
  induction fuel as [|fuel IH]; intros p r out.
  - cbn [cookie_loop]. destruct (skipn (scan_while is_skip p) p); [by intros [= <-]|done].
  - rewrite cookie_loop_skip.
    pose proof (scan_while_skipn is_skip p) as H0.
    pose proof (skipped_no_lead is_skip p) as Hlead.
    set (q := skipn (scan_while is_skip p) p) in *.
    destruct (decide (q = [])) as [->|Hq]; [by intros [= <-]|].
    rewrite (cookie_loop_unfold _ _ _ H0 Hq). cbn zeta.
    destruct (head_is "=" _); cbn [negb]; [|apply IH].
    set (raw_name := firstn (scan_while name_char q) q).
    set (name := firstn (scan_back is_sp_tab raw_name) raw_name).
    set (p2 := skipn (scan_while is_sp_tab _) _).
    assert (Hname : name <> [] -> clean_name name).
    { intros Hne. split; [done|]. split; [|split].
      - apply forallb_firstn, scan_while_prefix.
      - apply no_lead_blank_firstn, no_lead_blank_firstn, Hlead.
        intros c Hc. unfold is_skip. by rewrite Hc.
      - apply rtrim_no_trail. }
    assert (Hp2 : no_lead_blank p2 = true) by (by apply skipped_no_lead).
    destruct (head_is DQUOTE p2) eqn:Hdq.
    + intros Hloop Hr. apply (IH _ _ _ Hloop).
      destruct name eqn:En; [done|]. rewrite <- En in *.
      apply map_Forall_insert_2; [|done]. split; [by apply Hname; rewrite En|].
      left. apply scan_while_prefix.
    + intros Hloop Hr. apply (IH _ _ _ Hloop).
      destruct name eqn:En; [done|]. rewrite <- En in *.
      apply map_Forall_insert_2; [|done]. split; [by apply Hname; rewrite En|].
      right. split; [|split; [|split]].
      * apply forallb_firstn, scan_while_prefix.
      * by apply head_is_firstn, head_is_firstn.
      * by apply no_lead_blank_firstn, no_lead_blank_firstn.
      * apply rtrim_no_trail.
Qed.

(** X5: every name in the dict that [parse_cookies] returns is not empty,
    has no [=] and no [;] and no blank at either end; every value is the
    inside of a quoted value, without a quote, or has no [;], no blank at
    either end and no quote at its start. *)
Theorem parsed_cookies_are_clean s k v :
  cruet_parse_cookies s !! k = Some v -> clean_name k /\ clean_value v.
Proof.
  unfold cruet_parse_cookies.
  destruct (cookie_loop (length s) s ∅) as [out|] eqn:E.
  - intros Hk. by apply (cookie_loop_clean _ _ _ _ E (map_Forall_empty _) k v).
  - by rewrite lookup_empty.
Qed.

Lemma blanks_plain ws :
  forallb is_sp_tab ws = true ->
  forallb (not_char "=") ws = true /\ forallb (not_char ";") ws = true.
Proof.
  induction ws as [|c ws IH]; simpl; [done|].
  intros [Hc Hws]%andb_true_iff. destruct (IH Hws) as [-> ->].
  unfold is_sp_tab in Hc.
  by apply orb_true_iff in Hc as [->%Ascii.eqb_eq| ->%Ascii.eqb_eq].
Qed.

Lemma ltrim_no_lead l : no_lead_blank l = true -> ltrim l = l.
Proof.
  unfold ltrim. destruct l as [|c l]; [done|]. simpl.
  intros Hc%negb_true_iff. by rewrite Hc.
Qed.

Lemma rtrim_no_lead l : no_lead_blank (rev l) = true -> rtrim l = l.
Proof.
  intros Hl. unfold rtrim, scan_back.
  replace (scan_while is_sp_tab (rev l)) with 0.
  - rewrite Nat.sub_0_r. apply firstn_all.
  - destruct (rev l) as [|c t]; [done|]. simpl in *.
    apply negb_true_iff in Hl. by rewrite Hl.
Qed.

(** The segment [ws name=value] of a clean name and a plain value. *)
Lemma clean_segment ws k v :
  forallb is_sp_tab ws = true -> clean_name k -> plain_value v ->
  forallb (not_char ";") (ws ++ k ++ "=" :: v) = true /\
  well_quoted (ws ++ k ++ "=" :: v) /\
  code_segment (ws ++ k ++ "=" :: v) = Some (k, v).
Proof.
  intros Hws (Hne & Hk & Hkl & Hkr) (Hv & Hq & Hvl & Hvr).
  destruct (blanks_plain _ Hws) as [Hws1 Hws2].
  rewrite name_char_forallb in Hk. apply andb_true_iff in Hk as [Hk1 Hk2].
  split; [|split].
  - rewrite !forallb_app, Hws2, Hk2. simpl. by rewrite Hv.
  - unfold well_quoted. rewrite app_assoc.
    rewrite scan_while_stop by (by rewrite ?forallb_app, ?Hws1, ?Hk1).
    rewrite skipn_app_cons, (ltrim_no_lead _ Hvl), Hq. cbn zeta. done.
  - rewrite (code_segment_ws _ _ Hws).
    rewrite code_segment_eq by (by rewrite ?ltrim_no_lead).
    rewrite (rtrim_no_lead _ Hkr). unfold cookie_value.
    rewrite (ltrim_no_lead _ Hvl), Hq, (rtrim_no_lead _ Hvr).
    by destruct k.
Qed.

Lemma cookie_header_segments kvs : forall ws,
  forallb is_sp_tab ws = true ->
  Forall (fun kv => clean_name kv.1 /\ plain_value kv.2) kvs ->
  Forall well_quoted (split_on ";" (ws ++ cookie_header kvs)) /\
  forall r,
    fold_left (add_cookie code_segment) (split_on ";" (ws ++ cookie_header kvs)) r
    = fold_left (fun d kv => <[kv.1 := kv.2]> d) kvs r.
Proof.
  induction kvs as [|[k v] rest IH]; intros ws Hws Hall.
  - cbn [cookie_header]. rewrite app_nil_r.
    destruct (blanks_plain _ Hws) as [Hws1 Hws2].
    rewrite (split_on_single _ _ Hws2). split.
    + constructor; [by apply well_quoted_no_eq|constructor].
    + intros r. cbn [fold_left]. unfold add_cookie.
      by rewrite (code_segment_no_eq _ Hws1).
  - apply Forall_cons in Hall as [[Hk Hv] Hrest]. cbn [fst snd] in Hk, Hv.
    destruct (clean_segment ws k v Hws Hk Hv) as (Hsemi & Hwq & Hseg).
    destruct rest as [|kv rest].
    + cbn [cookie_header]. rewrite (split_on_single _ _ Hsemi). split.
      * constructor; [done|constructor].
      * intros r. cbn [fold_left]. unfold add_cookie. by rewrite Hseg.
    + change (cookie_header ((k, v) :: kv :: rest))
        with (k ++ "=" :: v ++ B "; " ++ cookie_header (kv :: rest)).
      replace (ws ++ k ++ "=" :: v ++ B "; " ++ cookie_header (kv :: rest))
        with ((ws ++ k ++ "=" :: v) ++ ";" :: [" "] ++ cookie_header (kv :: rest))
        by (by rewrite <- !app_assoc).
      rewrite (split_on_app _ _ _ Hsemi).
      destruct (IH [" "] eq_refl Hrest) as [Hwqs Hfold]. split.
      * by constructor.
      * intros r. cbn [fold_left]. rewrite Hfold. unfold add_cookie at 1.
        by rewrite Hseg.
Qed.

(** X6: [parse_cookies] reads back a header that lists cookies as
    [name=value] with [; ] between them, when the names are clean and the
    values plain: the dict has each name with its value, the last one for
    a name that is listed more than once. *)
Theorem parse_cookie_header kvs :
  Forall (fun kv => clean_name kv.1 /\ plain_value kv.2) kvs ->
  cruet_parse_cookies (cookie_header kvs)
  = fold_left (fun d kv => <[kv.1 := kv.2]> d) kvs ∅.
Proof.
  intros Hall. destruct (cookie_header_segments kvs [] eq_refl Hall) as [Hwq Hfold].
  cbn [app] in Hwq, Hfold. unfold cruet_parse_cookies.
  by rewrite (cookie_loop_split _ _ _ (le_n _) Hwq), Hfold.
Qed.

Lemma parsed_cookies_are_clean_witness :
  clean_name (B "sid") /\ clean_value (B "a b").
Proof.
  apply (parsed_cookies_are_clean
           (B " sid = " ++ DQUOTE :: B "a b" ++ DQUOTE :: B " ; t=1") (B "sid") (B "a b")).
  vm_compute. reflexivity.
Defined.

Lemma parse_cookie_header_witness :
  cruet_parse_cookies (cookie_header [(B "a", B "1"); (B "b", B "x=y"); (B "a", B "2")])
  = fold_left (fun d kv => <[kv.1 := kv.2]> d)
      [(B "a", B "1"); (B "b", B "x=y"); (B "a", B "2")] ∅.
Proof.
  apply (parse_cookie_header [(B "a", B "1"); (B "b", B "x=y"); (B "a", B "2")]).
  repeat (apply Forall_cons_2;
    [split; [split; [by vm_compute|by vm_compute]|by vm_compute]|]).
  apply Forall_nil_2.
Defined.

End CookieProps.

(** ** The routing engine: index, rules, matching and building *)

Module RoutingProps.
Import Routing RoutingFacts.

(** *** More on the static index *)

(** What one insertion does to the count and to the capacity. *)
Lemma static_index_insert_count idx key rule :
  index_inv idx ->
  exists idx',
    static_index_insert idx key rule = Some idx' /\
    (((exists r0, table_has (entries idx) key r0) /\ count idx' = count idx) \/
     ((forall r0, ~ table_has (entries idx) key r0) /\ count idx' = count idx + 1)) /\
    (length (entries idx') = length (entries idx) \/
     length (entries idx') = length (entries idx) * 2).
Proof.
  intros Hidx. unfold static_index_insert.
  assert (exists idx1,
    (if (length (entries idx) * STATIC_INDEX_LOAD_FACTOR <? (count idx + 1) * 100)%nat
     then static_index_grow idx else Some idx) = Some idx1 /\
    table_inv (entries idx1) /\ count idx1 = occ (entries idx1) /\
    (count idx1 + 1) * 100 <= length (entries idx1) * STATIC_INDEX_LOAD_FACTOR /\
    count idx1 = count idx /\
    (length (entries idx1) = length (entries idx) \/
     length (entries idx1) = length (entries idx) * 2) /\
    forall k r, table_has (entries idx1) k r <-> table_has (entries idx) k r)
    as (idx1 & -> & Hinv & Hcount & Hload & Hsamec & Hlen & Hsame).
  { destruct (Nat.ltb_spec (length (entries idx) * STATIC_INDEX_LOAD_FACTOR)
                ((count idx + 1) * 100)) as [Hgrow|Hfit].
    - destruct (static_index_grow_spec idx Hidx) as (idx1 & -> & H1 & H2 & H3 & H4 & H5).
      destruct Hidx as [_ _ Hload Hcap].
      unfold STATIC_INDEX_INITIAL_CAP, STATIC_INDEX_LOAD_FACTOR in *.
      exists idx1. split; [done|]. split; [done|]. split; [done|].
      split; [lia|]. split; [done|]. split; [by right|done].
    - destruct Hidx as [Hinv Hcount Hload Hcap]. exists idx.
      split; [done|]. split; [done|]. split; [done|].
      split; [done|]. split; [done|]. split; [by left|done]. }
  cbn [mbind option_bind].
  assert (Hfree : occ (entries idx1) < length (entries idx1)).
  { unfold STATIC_INDEX_LOAD_FACTOR in *. lia. }
  destruct (find_slot_total (entries idx1) key Hinv Hfree)
    as [(i & r0 & -> & Hi)|(d & Hd & -> & Hslot & Habs & Hpath)];
    cbn [mbind option_bind].
  - rewrite Hi. exists idx1. split; [done|]. split; [|done].
    left. split; [|done]. exists r0. apply Hsame. by exists i.
  - rewrite Hslot. eexists. split; [done|]. cbn [entries count]. split.
    + right. split; [|lia]. intros r0 Hr0. by apply (Habs r0), Hsame.
    + by rewrite length_insert.
Qed.

Lemma first_static_is_Some rs k :
  is_Some (first_static rs k) <->
  exists r, r ∈ rs /\ is_static r = true /\ rule_str r = k.
Proof.
  split.
  - intros [r Hr]. exists r. by apply first_static_Some.
  - intros (r & Hin & Hs & Hk). destruct (first_static rs k) eqn:E; [by eexists|].
    unfold first_static in E. apply list_elem_of_In in Hin.
    apply (find_none _ _ E) in Hin. rewrite Hs in Hin. simpl in Hin.
    apply bytes_eqb_neq in Hin. done.
Qed.

Lemma static_patterns_elem rs k :
  k ∈ static_patterns rs <-> is_Some (first_static rs k).
Proof.
  unfold static_patterns. rewrite elem_of_list_to_set, list_elem_of_fmap.
  rewrite first_static_is_Some. split.
  - intros (r & -> & Hr). apply list_elem_of_filter in Hr as [Hs Hr]. by exists r.
  - intros (r & Hr & Hs & <-). exists r. split; [done|].
    apply list_elem_of_filter. done.
Qed.

Lemma static_patterns_snoc rs r :
  static_patterns (rs ++ [r]) =
  if is_static r then static_patterns rs ∪ {[ rule_str r ]} else static_patterns rs.
Proof.
  unfold static_patterns. rewrite filter_app, fmap_app, list_to_set_app_L.
  rewrite filter_cons, filter_nil. destruct (is_static r) eqn:Hs.
  - destruct (decide (true = true)); [|done]. simpl. by rewrite union_empty_r_L.
  - destruct (decide (false = true)); [done|]. simpl. by rewrite union_empty_r_L.
Qed.

(** The index of a map counts the distinct static patterns, and its
    capacity is the initial one doubled some times. *)
Lemma Map_of_count rs :
  exists m, Map_of rs = Some m /\
    count (static_index m) = size (static_patterns rs) /\
    exists n, length (entries (static_index m)) = STATIC_INDEX_INITIAL_CAP * 2 ^ n.
Proof.
  induction rs as [|r rs IH] using rev_ind.
  - exists Map_init. split; [done|]. split; [done|]. by exists 0.
  - destruct IH as (m & Hm & Hc & n & Hn).
    destruct (Map_of_spec rs) as (m' & Hm' & _ & _ & Hinv & Hhas).
    rewrite Hm in Hm'. injection Hm' as <-.
    unfold Map_of in *. rewrite fold_left_app. cbn [fold_left]. rewrite Hm.
    cbn [mbind option_bind]. unfold Map_add. rewrite static_patterns_snoc.
    destruct (is_static r) eqn:Hs.
    + destruct (static_index_insert_count _ (rule_str r) r Hinv)
        as (idx' & -> & Hcount & Hlen). cbn [mbind option_bind].
      eexists. split; [done|]. cbn [static_index]. split.
      * destruct Hcount as [[[r0 Hr0] ->]|[Hno ->]].
        -- rewrite Hc. f_equal. apply Hhas in Hr0.
           assert (rule_str r ∈ static_patterns rs)
             by (apply static_patterns_elem; by eexists).
           set_solver.
        -- rewrite Hc, size_union, size_singleton; [done|].
           apply disjoint_singleton_r. intros [r0 Hr0]%static_patterns_elem.
           by apply (Hno r0), Hhas.
      * destruct Hlen as [->| ->]; [by exists n|]. exists (S n).
        rewrite Hn, Nat.pow_succ_r'. lia.
    + cbn [mbind option_bind]. eexists. split; [done|]. cbn [static_index].
      split; [done|]. by exists n.
Qed.

Lemma lookup_of_table idx1 idx2 :
  index_inv idx1 -> index_inv idx2 ->
  (forall k r, table_has (entries idx1) k r <-> table_has (entries idx2) k r) ->
  forall k, static_index_lookup idx1 k = static_index_lookup idx2 k.
Proof.
  intros H1 H2 Hsame k.
  destruct (static_index_lookup_spec idx1 k H1) as (res1 & -> & Hr1).
  destruct (static_index_lookup_spec idx2 k H2) as (res2 & -> & Hr2).
  f_equal. destruct res1 as [r1|], res2 as [r2|]; try done.
  - apply Hsame in Hr1. destruct Hr1 as [i Hi], Hr2 as [j Hj].
    destruct H2 as [[_ Hu _] _ _ _]. pose proof (Hu i j k r1 r2 Hi Hj) as <-.
    rewrite Hi in Hj. by injection Hj as <-.
  - by apply Hsame, Hr2 in Hr1.
  - by apply Hsame, Hr1 in Hr2.
Qed.

(** X7: registration of any rules ends (no probe of the index runs for
    ever), and a lookup in the index of the map then returns the first
    static rule registered with the key as its pattern, or nothing when no
    static rule has that pattern. *)
Theorem static_lookup_first_registered rs :
  exists m, Map_of rs = Some m /\ rules m = rs /\
    forall k, static_index_lookup (static_index m) k = Some (first_static rs k).
Proof.
  destruct (Map_of_spec rs) as (m & Hm & Hr & _ & Hinv & Hhas).
  exists m. split; [done|]. split; [done|]. intros k.
  destruct (static_index_lookup_spec _ k Hinv) as (res & -> & Hres).
  f_equal. destruct res as [r|].
  - symmetry. by apply Hhas.
  - destruct (first_static rs k) as [r|] eqn:E; [|done].
    by apply Hhas, Hres in E.
Qed.

(** X8: in the index of a map, [count] is the number of distinct static
    patterns registered and the number of occupied slots, it stays within
    70 percent of the capacity, and the capacity is 16 doubled some
    times. *)
Theorem static_index_count_and_capacity rs m :
  Map_of rs = Some m ->
  count (static_index m) = size (static_patterns rs) /\
  count (static_index m) = occ (entries (static_index m)) /\
  count (static_index m) * 100
    <= length (entries (static_index m)) * STATIC_INDEX_LOAD_FACTOR /\
  exists n, length (entries (static_index m)) = STATIC_INDEX_INITIAL_CAP * 2 ^ n.
Proof.
  intros Hm. destruct (Map_of_count rs) as (m1 & Hm1 & Hc & Hn).
  destruct (Map_of_spec rs) as (m2 & Hm2 & _ & _ & [_ Hocc Hload _] & _).
  rewrite Hm in Hm1, Hm2. injection Hm1 as <-. injection Hm2 as <-. done.
Qed.

(** X9: growing the index of a map doubles its capacity, keeps its count
    and changes the result of no lookup. *)
Theorem static_index_grow_keeps_lookups rs m :
  Map_of rs = Some m ->
  exists idx',
    static_index_grow (static_index m) = Some idx' /\
    length (entries idx') = length (entries (static_index m)) * 2 /\
    count idx' = count (static_index m) /\
    forall k, static_index_lookup idx' k = static_index_lookup (static_index m) k.
Proof.
  intros Hm. destruct (Map_of_spec rs) as (m2 & Hm2 & _ & _ & Hinv & _).
  rewrite Hm in Hm2. injection Hm2 as <-.
  destruct (static_index_grow_spec _ Hinv) as (idx' & Hg & Ht & Hocc & Hc & Hlen & Hsame).
  exists idx'. split; [done|]. split; [done|]. split; [done|].
  apply lookup_of_table; [|done|done].
  destruct Hinv as [_ _ Hload Hcap]. split; [done|done| |].
  - rewrite Hc, Hlen. lia.
  - rewrite Hlen. lia.
Qed.

Section match_facts.
Context `{FloatModel}.

(** The scan of the dynamic rules stops at the first rule that matches the
    path and allows the method. *)
Lemma dynamic_scan_cases rs path bit mpy mma :
  (exists pre r post v,
     rs = pre ++ r :: post /\
     Forall (fun r' => Cruet_Rule_match_internal r' path = None \/
                       cruet_rule_has_method r' bit mpy = false) pre /\
     Cruet_Rule_match_internal r path = Some v /\
     cruet_rule_has_method r bit mpy = true /\
     dynamic_scan rs path bit mpy mma = Matched (endpoint_or_empty r) v) \/
  (Forall (fun r' => Cruet_Rule_match_internal r' path = None \/
                     cruet_rule_has_method r' bit mpy = false) rs /\
   (dynamic_scan rs path bit mpy mma = NotFound \/
    dynamic_scan rs path bit mpy mma = MethodNotAllowed)).
Proof.
  revert mma. induction rs as [|r rs IH]; intros mma; simpl.
  - right. split; [constructor|]. destruct mma; [by right|by left].
  - destruct (Cruet_Rule_match_internal r path) as [v|] eqn:Hv.
    + destruct (cruet_rule_has_method r bit mpy) eqn:Hm; simpl.
      * left. exists [], r, rs, v. split; [done|]. split; [constructor|]. done.
      * destruct (IH true) as [(pre & r' & post & v' & -> & Hpre & Hv' & Hm' & ->)|[Hall Hres]].
        -- left. exists (r :: pre), r', post, v'. split; [done|].
           split; [constructor; [by right|done]|]. done.
        -- right. split; [constructor; [by right|done]|done].
    + destruct (IH mma) as [(pre & r' & post & v' & -> & Hpre & Hv' & Hm' & ->)|[Hall Hres]].
      * left. exists (r :: pre), r', post, v'. split; [done|].
        split; [constructor; [by left|done]|]. done.
      * right. split; [constructor; [by left|done]|done].
Qed.

(** X10: when [match] returns an endpoint, it is that of the static rule
    that the exact lookup or the trailing-slash probe finds, if that rule
    allows the method, with an empty dict; otherwise it is that of the
    first dynamic rule, in the order of registration, that matches the
    path and allows the method, with the values of that match. *)
Theorem match_winner rs m name path method e v :
  Map_of rs = Some m ->
  MapAdapter_match (Map_bind m name) path method = Some (Matched e v) ->
  (exists r, static_probe rs path = Some r /\ allows r method = true /\
             e = endpoint_or_empty r /\ v = ∅) \/
  ((forall r, static_probe rs path = Some r -> allows r method = false) /\
   exists pre r post,
     dynamic_of rs = pre ++ r :: post /\
     Forall (fun r' => Cruet_Rule_match_internal r' path = None \/
                       allows r' method = false) pre /\
     Cruet_Rule_match_internal r path = Some v /\
     allows r method = true /\ e = endpoint_or_empty r).
Proof.
  intros Hm. rewrite (MapAdapter_match_route rs m name) by done.
  unfold route. intros Hres. injection Hres as Hres.
  assert (Hscan : forall mma,
    dynamic_scan (dynamic_of rs) path
      (cruet_method_str_to_bit (method_upper method)) (method_upper method) mma
      = Matched e v ->
    exists pre r post,
      dynamic_of rs = pre ++ r :: post /\
      Forall (fun r' => Cruet_Rule_match_internal r' path = None \/
                        allows r' method = false) pre /\
      Cruet_Rule_match_internal r path = Some v /\
      allows r method = true /\ e = endpoint_or_empty r).
  { intros mma Hs.
    destruct (dynamic_scan_cases (dynamic_of rs) path
                (cruet_method_str_to_bit (method_upper method))
                (method_upper method) mma)
      as [(pre & r & post & v' & Hd & Hpre & Hv & Ha & Hr)|[_ [Hr|Hr]]];
      rewrite Hr in Hs; [|done|done].
    injection Hs as <- <-. by exists pre, r, post. }
  destruct (static_probe rs path) as [r|] eqn:Hp.
  - destruct (allows r method) eqn:Ha.
    + injection Hres as <- <-. left. by exists r.
    + right. split; [by intros r' [= <-]|]. by apply (Hscan true).
  - right. split; [done|]. by apply (Hscan false).
Qed.


End match_facts.

(** *** Rule patterns *)

Lemma converter_name_to_type_dynamic name :
  SegmentType_eqb (converter_name_to_type name) SEG_STATIC = false.
Proof.
  unfold converter_name_to_type.
  repeat match goal with |- context [if ?b then _ else _] => destruct b end; done.
Qed.

Lemma dynamic_segment_dynamic m :
  SegmentType_eqb (seg_type (dynamic_segment m)) SEG_STATIC = false.
Proof.
  unfold dynamic_segment.
  destruct (ms_colon _); cbn [seg_type]; apply converter_name_to_type_dynamic.
Qed.

(** A pattern without [<] is one static segment. *)
Lemma parse_static p :
  forallb (not_char "<") p = true ->
  parse_rule_segments p =
  Some match p with
       | [] => []
       | _ => [{| seg_type := SEG_STATIC; static_text := p; var_name := [];
                  any_items := None |}]
       end.
Proof.
  intros Hp. unfold parse_rule_segments. destruct p as [|c p]; [done|].
  cbn [length parse_rule_segments_loop].
  pose proof Hp as Hp'. simpl in Hp'. apply andb_true_iff in Hp' as [Hc _].
  unfold not_char in Hc. apply negb_true_iff in Hc. rewrite Hc.
  rewrite (scan_while_all _ _ Hp), skipn_all, firstn_all.
  by destruct (length p).
Qed.

(** The segments are all static exactly when the pattern has no [<]. *)
Lemma parse_all_static fuel :
  forall p segs,
    parse_rule_segments_loop fuel p = Some segs ->
    forallb (fun s => SegmentType_eqb (seg_type s) SEG_STATIC) segs
    = forallb (not_char "<") p.
Proof.
  induction fuel as [|fuel IH]; intros [|c p] segs;
    cbn [parse_rule_segments_loop]; try (by intros [= <-]).
  destruct (Ascii.eqb c "<") eqn:Hc.
  - destruct (length p <=? scan_while (not_char ">") p)%nat; [done|].
    destruct (parse_rule_segments_loop fuel _) as [segs'|]; [|done].
    intros [= <-]. cbn [forallb]. rewrite dynamic_segment_dynamic.
    unfold not_char at 1. by rewrite Hc.
  - destruct (parse_rule_segments_loop fuel _) as [segs'|] eqn:E; [|done].
    intros [= <-]. cbn [forallb seg_type SegmentType_eqb]. apply IH in E.
    rewrite E. exact (eq_sym (forallb_scan_skipn (not_char "<") (c :: p))).
Qed.

Lemma unclosed_parse_None fuel :
  forall p, unclosed p -> parse_rule_segments_loop fuel p = None.
Proof.
  induction fuel as [|fuel IH]; intros [|c p] (a & b & Hp & Hb);
    cbn [parse_rule_segments_loop]; try done; try (by destruct a).
  destruct (Ascii.eqb c "<") eqn:Hc.
  - destruct (Nat.leb_spec (length p) (scan_while (not_char ">") p)) as [|Hn]; [done|].
    rewrite IH; [done|].
    destruct a as [|x a]; injection Hp as -> ->.
    { rewrite (scan_while_all _ _ Hb) in Hn. lia. }
    destruct (scan_while_cases (not_char ">") a) as [Ha|(a1 & c1 & r1 & -> & Ha1 & Hc1)].
    + rewrite scan_while_all in Hn; [lia|].
      rewrite forallb_app, Ha. simpl. by rewrite Hb.
    + rewrite <- app_assoc. cbn [app].
      rewrite (scan_while_stop _ _ _ _ Ha1 Hc1).
      replace (length a1 + 1) with (length (a1 ++ [c1])) by (rewrite length_app; simpl; lia).
      replace (a1 ++ c1 :: r1 ++ "<" :: b) with ((a1 ++ [c1]) ++ r1 ++ "<" :: b)
        by (by rewrite <- app_assoc).
      rewrite skipn_app, skipn_all, Nat.sub_diag. simpl. by exists r1, b.
  - rewrite IH; [done|].
    destruct a as [|x a]; injection Hp as -> ->.
    { by rewrite Ascii.eqb_refl in Hc. }
    destruct (scan_while_cases (not_char "<") (x :: a)) as [Ha|(a1 & c1 & r1 & E & Ha1 & Hc1)].
    + change (x :: a ++ "<" :: b) with ((x :: a) ++ "<" :: b).
      rewrite (scan_while_stop _ _ "<" _ Ha) by done.
      rewrite skipn_app, skipn_all, Nat.sub_diag. simpl. by exists [], b.
    + change (x :: a ++ "<" :: b) with ((x :: a) ++ "<" :: b). rewrite E.
      rewrite <- app_assoc. cbn [app].
      rewrite (scan_while_stop _ _ _ _ Ha1 Hc1).
      rewrite skipn_app, skipn_all, Nat.sub_diag. simpl.
      by exists (c1 :: r1), b.
Qed.

Lemma parse_None_unclosed fuel :
  forall p, length p <= fuel -> parse_rule_segments_loop fuel p = None -> unclosed p.
Proof.
  induction fuel as [|fuel IH]; intros [|c p] Hlen;
    cbn [parse_rule_segments_loop]; try done; simpl in Hlen; [lia|].
  destruct (Ascii.eqb c "<") eqn:Hc.
  - apply Ascii.eqb_eq in Hc as ->.
    destruct (Nat.leb_spec (length p) (scan_while (not_char ">") p)) as [Hn|Hn].
    + intros _. exists [], p. split; [done|]. by apply scan_while_full.
    + destruct (parse_rule_segments_loop fuel _) eqn:E; [done|]. intros _.
      apply IH in E as (a & b & E & Hb); [|rewrite length_skipn; lia].
      exists ("<" :: firstn (scan_while (not_char ">") p + 1) p ++ a), b.
      split; [|done]. cbn [app]. f_equal. rewrite <- app_assoc, <- E.
      by rewrite firstn_skipn.
  - destruct (parse_rule_segments_loop fuel _) eqn:E; [done|]. intros _.
    assert (Hn : scan_while (not_char "<") (c :: p) = S (scan_while (not_char "<") p)).
    { simpl. unfold not_char at 1. by rewrite Hc. }
    apply IH in E as (a & b & E & Hb).
    + exists (firstn (scan_while (not_char "<") (c :: p)) (c :: p) ++ a), b.
      split; [|done]. rewrite <- app_assoc, <- E. by rewrite firstn_skipn.
    + rewrite Hn. cbn [skipn]. rewrite length_skipn. lia.
Qed.

(** X12: [Rule(...)] fails, whatever its other arguments, exactly on the
    patterns in which some [<] is followed by no [>]. *)
Theorem rule_rejected_iff_unclosed rule endpoint_arg methods strict :
  Rule_init rule endpoint_arg methods strict = None <-> unclosed rule.
Proof.
  unfold Rule_init.
  destruct (match methods with Some ms => _ | None => _ end) as [bitmask extras].
  split.
  - destruct (parse_rule_segments rule) eqn:E; [done|]. intros _.
    by apply (parse_None_unclosed (length rule)).
  - intros Hu. unfold parse_rule_segments. by rewrite unclosed_parse_None.
Qed.

(** What [Rule(...)] puts in the fields of the rule. *)
Lemma Rule_init_inv rule endpoint_arg methods strict r :
  Rule_init rule endpoint_arg methods strict = Some r ->
  rule_str r = rule /\ endpoint r = endpoint_arg /\ strict_slashes r = strict /\
  parse_rule_segments rule = Some (segments r) /\
  is_static r = forallb (fun s => SegmentType_eqb (seg_type s) SEG_STATIC) (segments r).
Proof.
  unfold Rule_init.
  destruct (match methods with Some ms => _ | None => _ end) as [bitmask extras].
  destruct (parse_rule_segments rule) as [segs|]; [|done].
  by intros [= <-].
Qed.

Section static_rules.
Context `{FloatModel}.

(** X13: a rule is static, and goes to the hash index of the map, exactly
    when its pattern has no [<]; [build] on a static rule returns the
    pattern whatever the values, and [match] on it accepts the pattern
    itself and, when the rule is not strict, the pattern followed by one
    [/], with an empty dict. *)
Theorem static_rule_behaviour rule endpoint_arg methods strict r :
  Rule_init rule endpoint_arg methods strict = Some r ->
  (is_static r = true <-> forallb (not_char "<") rule = true) /\
  (is_static r = true ->
   (forall values, Rule_build r values = Built rule) /\
   (forall path v,
      Cruet_Rule_match_internal r path = Some v <->
      v = ∅ /\ (path = rule \/ (strict = false /\ path = rule ++ B "/")))).
Proof.
  intros (Hstr & _ & Hstrict & Hparse & Hstatic)%Rule_init_inv.
  assert (Hiff : is_static r = forallb (not_char "<") rule).
  { rewrite Hstatic. by apply (parse_all_static (length rule)). }
  split; [by rewrite Hiff|]. rewrite Hiff. intros Hno.
  rewrite (parse_static _ Hno) in Hparse. injection Hparse as Hsegs.
  split.
  - intros values. unfold Rule_build. rewrite <- Hsegs.
    destruct rule; [done|]. simpl. by rewrite app_nil_r.
  - intros path v. rewrite Cruet_Rule_match_internal_iff, Hstrict, <- Hsegs.
    destruct rule as [|c rule].
    + simpl. split.
      * intros (rest & [= <- <-] & Hrest). split; [done|].
        destruct Hrest as [->|[-> ->]]; [by left|by right].
      * intros [-> Hpath]. exists path. split; [done|].
        destruct Hpath as [->|[-> ->]]; [by left|by right].
    + remember (c :: rule) as p eqn:Ep.
      cbn [match_segments seg_type static_text].
      destruct (Nat.ltb_spec (length path) (length p)) as [Hlt|Hge]; cbn [orb].
      { split; [by intros (rest & ? & _)|].
        intros [_ [->|[_ ->]]]; [lia|]. rewrite length_app in Hlt. lia. }
      destruct (bytes_eqb (firstn (length p) path) p) eqn:Hpre; cbn [negb].
      * apply bytes_eqb_eq in Hpre. split.
        -- intros (rest & [= <- <-] & Hrest). split; [done|].
           rewrite <- (firstn_skipn (length p) path), Hpre.
           destruct Hrest as [->|[-> ->]]; [left; by rewrite app_nil_r|by right].
        -- intros [-> Hpath]. eexists. split; [done|].
           destruct Hpath as [->|[-> ->]].
           ++ left. by rewrite skipn_all.
           ++ right. split; [done|]. by rewrite skipn_app, skipn_all, Nat.sub_diag.
      * apply bytes_eqb_neq in Hpre. split; [by intros (rest & ? & _)|].
        intros [_ [->|[_ ->]]]; exfalso; apply Hpre.
        -- by rewrite firstn_all.
        -- by rewrite firstn_app, firstn_all, Nat.sub_diag, app_nil_r.
Qed.

End static_rules.

Section build_facts.
Context `{FloatModel}.

Lemma build_parts_cases segs values :
  (exists url, build_parts segs values = inl url /\
     Forall (fun s => is_dynamic s = true -> is_Some (values !! var_name s)) segs) \/
  (exists pre s post,
     segs = pre ++ s :: post /\
     Forall (fun s => is_dynamic s = true -> is_Some (values !! var_name s)) pre /\
     is_dynamic s = true /\ values !! var_name s = None /\
     build_parts segs values = inr (var_name s)).
Proof.
  induction segs as [|seg rest IH]; simpl.
  - left. exists []. split; [done|constructor].
  - unfold is_dynamic in *.
    destruct (SegmentType_eqb (seg_type seg) SEG_STATIC) eqn:Hs; simpl.
    + destruct IH as [(url & -> & Hall)|(pre & s & post & -> & Hpre & Hd & Hv & ->)].
      * left. eexists. split; [done|]. constructor; [|done]. by rewrite Hs.
      * right. exists (seg :: pre), s, post. split; [done|].
        split; [constructor; [by rewrite Hs|done]|]. done.
    + destruct (values !! var_name seg) as [v|] eqn:Hv; simpl.
      * destruct IH as [(url & -> & Hall)|(pre & s & post & -> & Hpre & Hd & Hv' & ->)].
        -- left. eexists. split; [done|]. constructor; [|done]. by rewrite Hv.
        -- right. exists (seg :: pre), s, post. split; [done|].
           split; [constructor; [by rewrite Hv|done]|]. done.
      * right. exists [], seg, rest. split; [done|]. split; [constructor|].
        by rewrite Hs.
Qed.

Lemma build_parts_insert segs values k v :
  (forall s, s ∈ segs -> is_dynamic s = true -> var_name s <> k) ->
  build_parts segs (<[k := v]> values) = build_parts segs values.
Proof.
  induction segs as [|seg rest IH]; intros Hk; simpl; [done|].
  rewrite IH by (intros s Hs; apply Hk; by right).
  destruct (SegmentType_eqb (seg_type seg) SEG_STATIC) eqn:Hs; [done|].
  rewrite lookup_insert_ne; [done|]. intros E. apply (Hk seg); [by left| |done].
  unfold is_dynamic. by rewrite Hs.
Qed.

(** X14: [Rule.build] returns a URL exactly when the dict has a value for
    every variable of the rule; it otherwise raises the error for the
    first variable of the pattern, from the left, that the dict lacks; and
    a key that is no variable of the rule changes nothing. *)
Theorem build_needs_every_variable r values :
  ((exists url, Rule_build r values = Built url) <->
   Forall (fun s => is_dynamic s = true -> is_Some (values !! var_name s))
     (segments r)) /\
  (forall k,
     Rule_build r values = MissingArgument k <->
     exists pre s post,
       segments r = pre ++ s :: post /\
       Forall (fun s => is_dynamic s = true -> is_Some (values !! var_name s)) pre /\
       is_dynamic s = true /\ var_name s = k /\ values !! k = None) /\
  (forall k v,
     (forall s, s ∈ segments r -> is_dynamic s = true -> var_name s <> k) ->
     Rule_build r (<[k := v]> values) = Rule_build r values).
Proof.
  unfold Rule_build. split; [|split].
  - destruct (build_parts_cases (segments r) values)
      as [(url & -> & Hall)|(pre & s & post & E & Hpre & Hd & Hv & ->)].
    + split; [done|]. by eexists.
    + split; [by intros [? ?]|]. rewrite E. intros Hall.
      apply Forall_app in Hall as [_ Hall]. apply Forall_cons in Hall as [Hs _].
      rewrite Hv in Hs. by destruct (Hs Hd).
  - intros k.
    destruct (build_parts_cases (segments r) values)
      as [(url & -> & Hall)|(pre & s & post & E & Hpre & Hd & Hv & ->)].
    + split; [done|]. intros (pre & s & post & E & _ & Hd & <- & Hv).
      rewrite E in Hall. apply Forall_app in Hall as [_ Hall].
      apply Forall_cons in Hall as [Hs _]. rewrite Hv in Hs. by destruct (Hs Hd).
    + split.
      * intros [= <-]. by exists pre, s, post.
      * intros (pre' & s' & post' & E' & Hpre' & Hd' & <- & Hv'). f_equal.
        rewrite E in E'.
        assert (Hsame : pre = pre' /\ s = s') ; [|by destruct Hsame as [_ ->]].
        clear E. revert pre' E' Hpre'.
        induction Hpre as [|x pre Hx Hpre IH]; intros [|x' pre'] E' Hpre'.
        -- by injection E' as ->.
        -- injection E' as -> _. apply Forall_cons in Hpre' as [Hx' _].
           rewrite Hv in Hx'. by destruct (Hx' Hd).
        -- injection E' as -> _. rewrite Hv' in Hx. by destruct (Hx Hd').
        -- injection E' as -> E'. apply Forall_cons in Hpre' as [_ Hpre'].
           destruct (IH _ E' Hpre') as [-> ->]. done.
  - intros k v Hk. by rewrite build_parts_insert.
Qed.

(** X15: [MapAdapter.build] raises the lookup error exactly when no
    registered rule has the endpoint, and otherwise builds from the first
    rule registered with it. *)
Theorem build_uses_first_rule_of_endpoint rs m name e values :
  Map_of rs = Some m ->
  (MapAdapter_build (Map_bind m name) e values = NoRuleForEndpoint <->
   forall r, r ∈ rs -> endpoint r <> Some e) /\
  (forall pre r post,
     rs = pre ++ r :: post -> endpoint r = Some e ->
     (forall r', r' ∈ pre -> endpoint r' <> Some e) ->
     MapAdapter_build (Map_bind m name) e values = Rule_build r values).
Proof.
  intros Hm. destruct (Map_of_rules rs m Hm) as [Hrules _].
  unfold MapAdapter_build. cbn [Map_bind adapter_map]. rewrite Hrules. split.
  - destruct (find _ rs) as [r|] eqn:E.
    + split.
      * unfold Rule_build. by destruct (build_parts _ _).
      * intros Hno. apply find_some in E as [Hin Hr].
        apply bool_decide_eq_true in Hr. by apply Hno in Hr; [|apply list_elem_of_In].
    + split; [|done]. intros _ r Hin Hr. apply list_elem_of_In in Hin.
      apply (find_none _ _ E) in Hin. by apply bool_decide_eq_false in Hin.
  - intros pre r post -> Hr Hpre.
    assert (find (fun r' => bool_decide (endpoint r' = Some e)) (pre ++ r :: post)
            = Some r) as ->; [|done].
    clear Hm Hrules. induction pre as [|x pre IH]; simpl.
    + by rewrite bool_decide_eq_true_2.
    + rewrite bool_decide_eq_false_2 by (apply Hpre; by left).
      apply IH. intros r' Hr'. apply Hpre. by right.
Qed.

End build_facts.

(** *** Methods *)

Lemma standard_bit_name bit name :
  (bit, name) ∈ standard_methods -> cruet_method_str_to_bit name = bit /\ bit <> 0%Z.
Proof.
  intros Hin. apply list_elem_of_In in Hin. simpl in Hin.
  repeat destruct Hin as [[= <- <-]|Hin]; try done.
Qed.

Lemma method_bit_standard s :
  cruet_method_str_to_bit s <> 0%Z ->
  (cruet_method_str_to_bit s, s) ∈ standard_methods.
Proof.
  unfold cruet_method_str_to_bit.
  destruct (length s) as [|[|[|[|[|[|[|[|n]]]]]]]]; try done;
    repeat match goal with
    | |- context [bytes_eqb s ?l] =>
        let E := fresh in
        destruct (bytes_eqb s l) eqn:E;
        [apply bytes_eqb_eq in E; subst s; intros _;
         apply list_elem_of_In; simpl; tauto|]
    end; done.
Qed.

Lemma standard_bits_land b1 n1 b2 n2 :
  (b1, n1) ∈ standard_methods -> (b2, n2) ∈ standard_methods ->
  (Z.land b1 b2 <> 0%Z <-> n1 = n2).
Proof.
  intros H1 H2. apply list_elem_of_In in H1, H2. simpl in H1, H2.
  repeat destruct H1 as [[= <- <-]|H1]; try done;
    repeat destruct H2 as [[= <- <-]|H2]; try done; by vm_compute.
Qed.

Lemma land_lor_ne x y b :
  (Z.land (Z.lor x y) b <> 0 <-> Z.land x b <> 0 \/ Z.land y b <> 0)%Z.
Proof.
  rewrite Z.land_lor_distr_l, Z.lor_eq_0_iff.
  destruct (decide (Z.land x b = 0%Z)), (decide (Z.land y b = 0%Z)); tauto.
Qed.

(** The loop of [Rule_init] over the methods: the bits and the extras at
    its end. *)
Lemma methods_fold ms :
  forall bm0 ex0 bm ex,
    fold_left
      (fun '(bm, ex) item =>
         let upper := map upper_az item in
         let bit := cruet_method_str_to_bit upper in
         if negb (bit =? 0)%Z then (Z.lor bm bit, ex)
         else (bm, Some (match ex with
                         | Some l => l ++ [upper]
                         | None => [upper]
                         end)))
      ms (bm0, ex0) = (bm, ex) ->
    (forall bit name, (bit, name) ∈ standard_methods ->
       Z.land bm bit <> 0%Z <->
       Z.land bm0 bit <> 0%Z \/ name ∈ map (map upper_az) ms) /\
    (forall x, x ∈ default [] ex <->
       x ∈ default [] ex0 \/
       (x ∈ map (map upper_az) ms /\ cruet_method_str_to_bit x = 0%Z)).
Proof.
  induction ms as [|item ms IH]; intros bm0 ex0 bm ex; cbn [fold_left].
  - intros [= <- <-]. split.
    + intros bit name _. split; [by left|]. intros [?|Hin]; [done|].
      by apply elem_of_nil in Hin.
    + intros x. split; [by left|]. intros [?|[Hin _]]; [done|].
      by apply elem_of_nil in Hin.
  - cbn zeta. destruct (Z.eqb_spec (cruet_method_str_to_bit (map upper_az item)) 0)
      as [Hz|Hnz]; cbn [negb].
    + intros Hf. apply IH in Hf as [Hbits Hex]. split.
      * intros bit name Hstd. rewrite (Hbits bit name Hstd). cbn [map].
        rewrite elem_of_cons. split; [tauto|]. intros [?|[->|?]]; [tauto| |tauto].
        apply standard_bit_name in Hstd as [Hb Hne]. congruence.
      * intros x. rewrite Hex. cbn [map]. rewrite elem_of_cons.
        destruct ex0 as [l|]; cbn [from_option id].
        -- rewrite elem_of_app, list_elem_of_singleton. split.
           ++ intros [[?| ->]|[? ?]]; tauto.
           ++ intros [?|[[->|?] ?]]; tauto.
        -- rewrite list_elem_of_singleton. split.
           ++ intros [->|[? ?]]; [tauto|tauto].
           ++ intros [Hn|[[->|?] ?]]; [by apply elem_of_nil in Hn|tauto|tauto].
    + intros Hf. apply IH in Hf as [Hbits Hex]. split.
      * intros bit name Hstd. rewrite (Hbits bit name Hstd). cbn [map].
        rewrite elem_of_cons, land_lor_ne.
        rewrite (standard_bits_land _ _ _ _ (method_bit_standard _ Hnz) Hstd).
        split; [intros [[?|<-]|?]; tauto|]. intros [?|[->|?]]; tauto.
      * intros x. rewrite Hex. cbn [map]. rewrite elem_of_cons.
        split; [tauto|]. intros [?|[[->|?] ?]]; tauto.
Qed.

(** What the [methods] property holds. *)
Lemma Rule_get_methods_elem r x :
  x ∈ Rule_get_methods r <->
  (exists bit, (bit, x) ∈ standard_methods /\ Z.land (methods_bitmask r) bit <> 0%Z) \/
  (exists ex, methods_extra r = Some ex /\ x ∈ ex).
Proof.
  unfold Rule_get_methods.
  assert (Hfold : forall l (acc : gset bytes),
    x ∈ fold_left
          (fun (acc : gset bytes) '(bit, name) =>
             if negb (Z.land (methods_bitmask r) bit =? 0)%Z
             then acc ∪ {[ name ]} else acc) l acc <->
    x ∈ acc \/ exists bit, (bit, x) ∈ l /\ Z.land (methods_bitmask r) bit <> 0%Z).
  { induction l as [|[bit name] l IH]; intros acc; cbn [fold_left].
    - split; [by left|]. intros [?|(bit & Hin & _)]; [done|].
      by apply elem_of_nil in Hin.
    - rewrite IH. destruct (Z.eqb_spec (Z.land (methods_bitmask r) bit) 0) as [Hz|Hnz];
        cbn [negb].
      + split.
        * intros [?|(b & Hin & Hb)]; [by left|]. right. exists b. split; [by right|done].
        * intros [?|(b & Hin & Hb)]; [by left|]. right. exists b. split; [|done].
          apply elem_of_cons in Hin as [[= -> ->]|Hin]; [done|done].
      + rewrite elem_of_union, elem_of_singleton. split.
        * intros [[?| ->]|(b & Hin & Hb)]; [by left| |].
          -- right. exists bit. split; [by left|done].
          -- right. exists b. split; [by right|done].
        * intros [?|(b & Hin & Hb)]; [by left; left|].
          apply elem_of_cons in Hin as [[= -> ->]|Hin]; [left; by right|].
          right. by exists b. }
  destruct (methods_extra r) as [ex|].
  - rewrite elem_of_union, Hfold, elem_of_empty. split.
    + intros [[?|?]|?]; [done|by left|]. right. by exists ex.
    + intros [?|(ex' & [= <-] & ?)]; [left; by right|by right].
  - rewrite Hfold, elem_of_empty. split.
    + intros [?|?]; [done|by left].
    + intros [?|(ex' & ? & _)]; [by right|done].
Qed.

(** The bits and the extras of a rule, from the [methods] argument. *)
Lemma Rule_init_methods rule endpoint_arg methods strict r :
  Rule_init rule endpoint_arg methods strict = Some r ->
  (forall bit name, (bit, name) ∈ standard_methods ->
     Z.land (methods_bitmask r) bit <> 0%Z <->
     name = B "HEAD" \/ name = B "OPTIONS" \/
     match methods with
     | None => name = B "GET"
     | Some ms => name ∈ map (map upper_az) ms
     end) /\
  (forall x, (exists ex, methods_extra r = Some ex /\ x ∈ ex) <->
     exists ms, methods = Some ms /\ x ∈ map (map upper_az) ms /\
                cruet_method_str_to_bit x = 0%Z).
Proof.
  unfold Rule_init.
  destruct (match methods with Some ms => _ | None => _ end) as [bitmask extras] eqn:E.
  destruct (parse_rule_segments rule) as [segs|]; [|done].
  intros [= <-]. cbn [methods_bitmask methods_extra].
  assert (Hstd_head : (CRUET_METHOD_HEAD, B "HEAD") ∈ standard_methods)
    by (apply list_elem_of_In; simpl; tauto).
  assert (Hstd_opt : (CRUET_METHOD_OPTIONS, B "OPTIONS") ∈ standard_methods)
    by (apply list_elem_of_In; simpl; tauto).
  assert (Hstd_get : (CRUET_METHOD_GET, B "GET") ∈ standard_methods)
    by (apply list_elem_of_In; simpl; tauto).
  assert (Hbits : forall bit name, (bit, name) ∈ standard_methods ->
    Z.land bitmask bit <> 0%Z <->
    match methods with
    | None => name = B "GET"
    | Some ms => name ∈ map (map upper_az) ms
    end).
  { intros bit name Hstd. destruct methods as [ms|].
    - apply methods_fold in E as [Hb _]. rewrite (Hb bit name Hstd).
      rewrite Z.land_0_l. split; [by intros [?|?]|by right].
    - injection E as <- <-.
      rewrite (standard_bits_land _ _ _ _ Hstd_get Hstd). split; by intros ->. }
  split.
  - intros bit name Hstd. rewrite !land_lor_ne, (Hbits bit name Hstd).
    rewrite (standard_bits_land _ _ _ _ Hstd_head Hstd).
    rewrite (standard_bits_land _ _ _ _ Hstd_opt Hstd).
    split; [intros [?|[<-|<-]]; tauto|]. intros [->|[->|?]]; tauto.
  - intros x. destruct methods as [ms|].
    + apply methods_fold in E as [_ He]. specialize (He x). cbn [from_option id] in He.
      rewrite elem_of_nil in He. split.
      * intros (ex & Hex & Hx). exists ms. split; [done|].
        destruct extras as [l|]; [|done]. injection Hex as <-.
        apply elem_of_list_to_set in Hx. apply He in Hx. tauto.
      * intros (ms' & [= <-] & Hx). destruct extras as [l|]; cbn [from_option id] in He.
        -- eexists. split; [done|]. apply elem_of_list_to_set, He. by right.
        -- exfalso. assert (x ∈ []) as Hn by (apply He; by right).
           by apply elem_of_nil in Hn.
    + injection E as <- <-. split; [by intros (ex & ? & _)|by intros (ms & ? & _)].
Qed.


(** X17: the method test of [match] agrees with the [methods] property: a
    rule built by [Rule(...)] allows a method exactly when the method, cut
    to 31 bytes and in upper case, is in its [methods]. *)
Theorem allows_iff_in_methods r method :
  built r ->
  allows r method = true <-> method_upper method ∈ Rule_get_methods r.
Proof.
  intros (rule & e & methods & strict & Hr).
  destruct (Rule_init_methods _ _ _ _ _ Hr) as [Hbits Hex].
  rewrite Rule_get_methods_elem. unfold allows, cruet_rule_has_method.
  set (mu := method_upper method).
  destruct (Z.eqb_spec (cruet_method_str_to_bit mu) 0) as [Hz|Hnz]; cbn [negb].
  - split.
    + destruct (methods_extra r) as [ex|]; [|done].
      intros Hin%bool_decide_eq_true. right. by exists ex.
    + intros [(bit & Hstd & _)|(ex & -> & Hin)].
      * apply standard_bit_name in Hstd as [Hb Hne]. congruence.
      * by apply bool_decide_eq_true.
  - rewrite negb_true_iff, Z.eqb_neq. split.
    + intros Hb. left. eexists. split; [exact (method_bit_standard _ Hnz)|done].
    + intros [(bit & Hstd & Hb)|Hin].
      * apply standard_bit_name in Hstd as [<- _]. done.
      * apply Hex in Hin as (ms & _ & _ & Hz). done.
Qed.

(** *** Markers *)

Lemma scan_marker_app a b i st :
  scan_marker i (a ++ b) st = scan_marker (i + length a) b (scan_marker i a st).
Proof.
  revert i st. induction a as [|c a IH]; intros i st; simpl.
  - by rewrite Nat.add_0_r.
  - rewrite IH. f_equal. lia.
Qed.

(** Bytes that are no [:], [(] or [)] leave the scan where it is. *)
Lemma scan_marker_plain l i co po pc :
  forallb marker_plain l = true ->
  scan_marker i l {| ms_colon := co; ms_paren_open := po; ms_paren_close := pc |}
  = {| ms_colon := co; ms_paren_open := po; ms_paren_close := pc |}.
Proof.
  revert i. induction l as [|c l IH]; intros i; simpl; [done|].
  intros [[[Hc Ho]%andb_true_iff Hcl]%andb_true_iff Hl]%andb_true_iff.
  rewrite (not_char_false _ _ Hc), (not_char_false _ _ Ho), (not_char_false _ _ Hcl).
  simpl. by apply IH.
Qed.

(** Without [:] the scan finds no colon. *)
Lemma scan_marker_no_colon l i po pc :
  forallb (not_char ":") l = true ->
  ms_colon (scan_marker i l
              {| ms_colon := None; ms_paren_open := po; ms_paren_close := pc |})
  = None.
Proof.
  revert i po pc. induction l as [|c l IH]; intros i po pc; simpl; [done|].
  intros [Hc Hl]%andb_true_iff. rewrite (not_char_false _ _ Hc). simpl.
  by apply IH.
Qed.

(** After the colon, without parentheses before it, only a [(] counts. *)
Lemma scan_marker_after_colon l i co :
  forallb (not_char "(") l = true ->
  scan_marker i l
    {| ms_colon := Some co; ms_paren_open := None; ms_paren_close := None |}
  = {| ms_colon := Some co; ms_paren_open := None; ms_paren_close := None |}.
Proof.
  revert i. induction l as [|c l IH]; intros i; simpl; [done|].
  intros [Hc Hl]%andb_true_iff. rewrite (not_char_false _ _ Hc). simpl.
  repeat (progress (rewrite ?andb_false_r; simpl)). by apply IH.
Qed.

(** Inside the parentheses only a [)] counts. *)
Lemma scan_marker_inside l i po :
  forallb (not_char ")") l = true ->
  scan_marker i l
    {| ms_colon := None; ms_paren_open := Some po; ms_paren_close := None |}
  = {| ms_colon := None; ms_paren_open := Some po; ms_paren_close := None |}.
Proof.
  revert i. induction l as [|c l IH]; intros i; simpl; [done|].
  intros [Hc Hl]%andb_true_iff. rewrite (not_char_false _ _ Hc). simpl.
  repeat (progress (rewrite ?andb_false_r; simpl)). by apply IH.
Qed.

(** After the parentheses and the colon only a [)] counts. *)
Lemma scan_marker_after_all l i co po pc :
  forallb (not_char ")") l = true ->
  scan_marker i l
    {| ms_colon := Some co; ms_paren_open := Some po; ms_paren_close := Some pc |}
  = {| ms_colon := Some co; ms_paren_open := Some po; ms_paren_close := Some pc |}.
Proof.
  revert i. induction l as [|c l IH]; intros i; simpl; [done|].
  intros [Hc Hl]%andb_true_iff. rewrite (not_char_false _ _ Hc). simpl.
  repeat (progress (rewrite ?andb_false_r; simpl)). by apply IH.
Qed.

Lemma marker_plain_parts l :
  forallb marker_plain l = true ->
  forallb (not_char ":") l = true /\ forallb (not_char "(") l = true /\
  forallb (not_char ")") l = true.
Proof.
  induction l as [|c l IH]; simpl; [done|].
  intros [[[Hc Ho]%andb_true_iff Hcl]%andb_true_iff Hl]%andb_true_iff.
  destruct (IH Hl) as (-> & -> & ->). by rewrite Hc, Ho, Hcl.
Qed.

(** X18: how a marker [<...>] is read.  Without a colon it is a string
    variable; [conv:var] has the converter [conv] (a string variable when
    the name is not known); and in [name(args):var] the arguments are
    dropped, except that for [any] they are the items to choose from. *)
Theorem dynamic_segment_forms :
  (forall m,
     forallb (not_char ":") m = true ->
     dynamic_segment m =
     {| seg_type := SEG_DYNAMIC_STRING; static_text := []; var_name := m;
        any_items := None |}) /\
  (forall conv var,
     forallb marker_plain conv = true -> forallb (not_char "(") var = true ->
     dynamic_segment (conv ++ ":" :: var) =
     {| seg_type := converter_name_to_type conv; static_text := [];
        var_name := var; any_items := None |}) /\
  (forall name args var,
     forallb marker_plain name = true ->
     forallb (not_char ")") args = true -> forallb (not_char ")") var = true ->
     dynamic_segment (name ++ "(" :: args ++ ")" :: ":" :: var) =
     {| seg_type := converter_name_to_type name; static_text := [];
        var_name := var;
        any_items :=
          if SegmentType_eqb (converter_name_to_type name) SEG_DYNAMIC_ANY
          then Some (parse_any_items args) else None |}).
Proof.
  split; [|split].
  - intros m Hm. unfold dynamic_segment.
    rewrite (scan_marker_no_colon _ _ _ _ Hm).
    change (converter_name_to_type []) with SEG_DYNAMIC_STRING. cbn [SegmentType_eqb].
    f_equal. by repeat case_match.
  - intros conv var Hconv Hvar. unfold dynamic_segment.
    rewrite scan_marker_app, (scan_marker_plain _ _ _ _ _ Hconv).
    cbn [scan_marker ms_colon ms_paren_open ms_paren_close].
    change (Ascii.eqb ":" "(") with false. change (Ascii.eqb ":" ")") with false.
    change (Ascii.eqb ":" ":") with true. cbn [andb negb orb].
    replace (bool_decide (is_Some (@None nat))) with false
      by (symmetry; apply bool_decide_eq_false; by intros [? ?]).
    cbn [andb negb orb].
    rewrite (scan_marker_after_colon _ _ _ Hvar).
    cbn [ms_colon ms_paren_open ms_paren_close]. rewrite Nat.add_0_l.
    rewrite firstn_app, firstn_all, Nat.sub_diag, firstn_O, app_nil_r.
    replace (length conv + 1) with (length (conv ++ [":"]))
      by (by rewrite length_app).
    replace (conv ++ ":" :: var) with ((conv ++ [":"]) ++ var)
      by (by rewrite <- app_assoc).
    by rewrite skipn_app, skipn_all, Nat.sub_diag.
  - intros name args var Hname Hargs Hvar. unfold dynamic_segment.
    rewrite scan_marker_app, (scan_marker_plain _ _ _ _ _ Hname).
    cbn [scan_marker]. cbn [ms_colon ms_paren_open ms_paren_close].
    change (Ascii.eqb "(" "(") with true. change (Ascii.eqb "(" ")") with false.
    change (Ascii.eqb "(" ":") with false.
    replace (bool_decide (is_Some (@None nat))) with false
      by (symmetry; apply bool_decide_eq_false; by intros [? ?]).
    cbn [andb negb orb].
    rewrite scan_marker_app, (scan_marker_inside _ _ _ Hargs).
    cbn [scan_marker]. cbn [ms_colon ms_paren_open ms_paren_close].
    change (Ascii.eqb ")" "(") with false. change (Ascii.eqb ")" ")") with true.
    change (Ascii.eqb ")" ":") with false.
    change (Ascii.eqb ":" "(") with false. change (Ascii.eqb ":" ")") with false.
    change (Ascii.eqb ":" ":") with true.
    replace (bool_decide (is_Some (@None nat))) with false
      by (symmetry; apply bool_decide_eq_false; by intros [? ?]).
    cbn [andb negb orb].
    rewrite !bool_decide_eq_true_2 by (by eexists).
    cbn [andb negb orb].
    rewrite (scan_marker_after_all _ _ _ _ _ Hvar).
    cbn [ms_colon ms_paren_open ms_paren_close]. rewrite Nat.add_0_l.
    rewrite firstn_app, firstn_all, Nat.sub_diag, firstn_O, app_nil_r.
    f_equal.
    + replace (name ++ "(" :: args ++ ")" :: ":" :: var)
        with ((name ++ "(" :: args ++ [")"; ":"]) ++ var)
        by (rewrite <- !app_assoc; cbn [app]; by rewrite <- !app_assoc).
      rewrite skipn_app, skipn_all2, app_nil_l.
      * replace (_ - _) with 0; [done|]. rewrite !length_app. simpl.
        rewrite length_app. simpl. lia.
      * rewrite !length_app. simpl. rewrite length_app. simpl. lia.
    + destruct (SegmentType_eqb _ _); [|done]. f_equal. f_equal.
      replace (name ++ "(" :: args ++ ")" :: ":" :: var)
        with ((name ++ ["("]) ++ args ++ ")" :: ":" :: var)
        by (by rewrite <- app_assoc).
      rewrite skipn_app, skipn_all2, app_nil_l by (rewrite length_app; simpl; lia).
      replace (length name + 1 - length (name ++ ["("])) with 0
        by (rewrite length_app; simpl; lia).
      rewrite drop_0.
      match goal with |- firstn ?n _ = _ => replace n with (length args) by lia end.
      by rewrite firstn_app, firstn_all, Nat.sub_diag, firstn_O, app_nil_r.
Qed.

Lemma parse_marker_first m post :
  forallb (not_char ">") m = true ->
  parse_rule_segments ("<" :: m ++ ">" :: post) =
  segs ← parse_rule_segments post; Some (dynamic_segment m :: segs).
Proof.
  intros Hm. unfold parse_rule_segments. cbn [length parse_rule_segments_loop].
  change (Ascii.eqb "<" "<") with true. cbn match.
  rewrite (scan_while_stop _ _ ">" _ Hm) by done.
  destruct (Nat.leb_spec (length (m ++ ">" :: post)) (length m)) as [Hle|_].
  { rewrite length_app in Hle. simpl in Hle. lia. }
  rewrite skipn_app_cons, firstn_app_exact.
  rewrite (parse_rule_segments_fuel _ post); [done|].
  rewrite length_app. simpl. lia.
Qed.

(** X19: how a pattern is cut into segments: the text before the first
    [<], when there is some, is a static segment, the marker up to the
    next [>] a dynamic one, and what follows is cut in the same way. *)
Theorem parse_rule_segments_marker pre m post :
  forallb (not_char "<") pre = true -> forallb (not_char ">") m = true ->
  parse_rule_segments (pre ++ "<" :: m ++ ">" :: post) =
  segs ← parse_rule_segments post;
  Some (match pre with
        | [] => []
        | _ => [static_segment pre]
        end ++ dynamic_segment m :: segs).
Proof.
  intros Hpre Hm. destruct pre as [|c pre]; [by apply parse_marker_first|].
  remember (c :: pre) as p eqn:Ep.
  unfold parse_rule_segments. rewrite Ep at 1 2. cbn [app length parse_rule_segments_loop].
  assert (Hc : Ascii.eqb c "<" = false).
  { rewrite Ep in Hpre. simpl in Hpre. apply andb_true_iff in Hpre as [Hc _].
    by apply not_char_false. }
  rewrite Hc.
  change (c :: pre ++ "<" :: m ++ ">" :: post) with ((c :: pre) ++ "<" :: m ++ ">" :: post).
  rewrite <- Ep.
  rewrite (scan_while_stop _ _ "<" _ Hpre) by done.
  rewrite skipn_app, skipn_all, Nat.sub_diag, app_nil_l. cbn [skipn].
  rewrite firstn_app_exact.
  rewrite (parse_rule_segments_fuel _ ("<" :: m ++ ">" :: post)).
  - fold (parse_rule_segments ("<" :: m ++ ">" :: post)).
    rewrite (parse_marker_first _ _ Hm).
    unfold parse_rule_segments.
    by destruct (parse_rule_segments_loop (length post) post).
  - rewrite length_app. lia.
Qed.

(** *** Integer values *)

Lemma uint_val_acc d : forall acc : positive,
  Zpos (Pos.of_uint_acc d acc) = uint_val (Zpos acc) d.
Proof.
  induction d; intros acc; simpl; try done; rewrite IHd; f_equal; lia.
Qed.

Lemma uint_val_of_uint d : Z.of_N (Pos.of_uint d) = uint_val 0 d.
Proof.
  induction d; simpl; try done; by rewrite uint_val_acc.
Qed.

Lemma digits_of_uint d :
  let s := list_ascii_of_string (NilEmpty.string_of_uint d) in
  forallb is_digit s = true /\ forall acc, strtol_digits acc s = uint_val acc d.
Proof.
  induction d; simpl; try done; destruct IHd as [-> IH]; split; try done;
    intros acc; rewrite IH; f_equal; vm_compute (Z.of_nat _); lia.
Qed.

Lemma strtol_of_digits s :
  forallb is_digit s = true -> strtol s = Z.min LONG_MAX (strtol_digits 0 s).
Proof.
  destruct s as [|c s]; [done|]. intros [Hc _]%andb_true_iff.
  destruct c as [[] [] [] [] [] [] [] []]; try discriminate Hc; reflexivity.
Qed.

Lemma int_str_nonneg n :
  (0 <= n)%Z ->
  forallb is_digit (int_str n) = true /\ strtol_digits 0 (int_str n) = n.
Proof.
  intros Hn. unfold int_str. destruct n as [|p|p]; [done| |lia].
  cbn [Z.to_int NilZero.string_of_int]. unfold NilZero.string_of_uint.
  pose proof (DecimalPos.Unsigned.of_to p) as Hp.
  pose proof (uint_val_of_uint (Pos.to_uint p)) as Hv. rewrite Hp in Hv.
  destruct (digits_of_uint (Pos.to_uint p)) as [Hd Hs].
  destruct (Pos.to_uint p) eqn:E; [done|..]; rewrite <- E in *;
    (split; [exact Hd|by rewrite Hs, <- Hv]).
Qed.

(** *** UUID values *)

Lemma hex_char_spec d :
  (0 <= d < 16)%Z ->
  is_hex (hex_char d) = true /\ hex_val (hex_char d) = d /\
  Ascii.eqb (hex_char d) "-" = false.
Proof.
  intros Hd.
  assert (d = 0 \/ d = 1 \/ d = 2 \/ d = 3 \/ d = 4 \/ d = 5 \/ d = 6 \/ d = 7 \/
          d = 8 \/ d = 9 \/ d = 10 \/ d = 11 \/ d = 12 \/ d = 13 \/ d = 14 \/
          d = 15)%Z as Hc by lia.
  repeat destruct Hc as [->|Hc]; try subst d; by vm_compute.
Qed.

Lemma hex_digits_spec n : forall z,
  length (hex_digits n z) = n /\ forallb is_hex (hex_digits n z) = true /\
  forall acc, fold_left uuid_step (hex_digits n z) acc
              = (acc * 16 ^ Z.of_nat n + z mod 16 ^ Z.of_nat n)%Z.
Proof.
  induction n as [|n IH]; intros z.
  - simpl. split; [done|]. split; [done|]. intros acc. rewrite Z.mod_1_r. lia.
  - cbn [hex_digits]. destruct (IH (z / 16)%Z) as (Hlen & Hhex & Hfold).
    destruct (hex_char_spec (z mod 16)) as (Hh & Hv & Hm);
      [apply Z.mod_pos_bound; lia|].
    split; [rewrite length_app, Hlen; simpl; lia|].
    split; [rewrite forallb_app, Hhex; simpl; by rewrite Hh|].
    intros acc. rewrite fold_left_app, Hfold. cbn [fold_left]. unfold uuid_step.
    rewrite Hm, Hv. rewrite Nat2Z.inj_succ, Z.pow_succ_r by lia.
    rewrite (Z.rem_mul_r z 16 (16 ^ Z.of_nat n)) by lia. lia.
Qed.

Lemma uuid_fold_dash a b acc :
  fold_left uuid_step (a ++ "-" :: b) acc
  = fold_left uuid_step b (fold_left uuid_step a acc).
Proof. by rewrite fold_left_app. Qed.

Lemma uuid_int_str u :
  (0 <= u < 2 ^ 128)%Z -> uuid_int (uuid_str u) = u.
Proof.
  intros Hu. unfold uuid_int, uuid_str.
  change (fun acc c => if Ascii.eqb c "-" then acc else (acc * 16 + hex_val c)%Z)
    with uuid_step.
  destruct (hex_digits_spec 32 u) as (Hlen & _ & Hfold).
  set (h := hex_digits 32 u) in *.
  rewrite !uuid_fold_dash, <- !fold_left_app.
  replace (firstn 8 h ++ firstn 4 (skipn 8 h) ++ firstn 4 (skipn 12 h)
           ++ firstn 4 (skipn 16 h) ++ skipn 20 h) with h.
  - rewrite Hfold. change (16 ^ Z.of_nat 32)%Z with (2 ^ 128)%Z.
    rewrite Z.mod_small by lia. lia.
  - clear Hfold. clearbody h.
    do 32 (destruct h as [|? h]; [discriminate Hlen|]).
    by destruct h; [|discriminate Hlen].
Qed.

Lemma uuid_format_str u : uuid_format (uuid_str u) = true.
Proof.
  unfold uuid_str. destruct (hex_digits_spec 32 u) as (Hlen & Hhex & _).
  set (h := hex_digits 32 u) in *. clearbody h.
  do 32 (destruct h as [|? h]; [discriminate Hlen|]).
  destruct h; [|discriminate Hlen]. clear Hlen.
  cbn [forallb] in Hhex.
  repeat (apply andb_true_iff in Hhex as [? Hhex]).
  unfold uuid_format. cbn.
  repeat match goal with H : is_hex _ = true |- _ => rewrite H; clear H end.
  done.
Qed.

Section value_facts.
Context `{FloatModel}.

(** X20: an [int] segment accepts the decimal form of every integer that is
    not negative and gives the integer back, or [LONG_MAX] when the
    integer is above [LONG_MAX]; it rejects the decimal form of a negative
    integer, and every token with a byte that is no digit. *)
Theorem int_segment_values seg :
  seg_type seg = SEG_DYNAMIC_INT ->
  (forall n, (0 <= n)%Z ->
     convert_segment_value seg (int_str n) = Some (PyLong (Z.min LONG_MAX n))) /\
  (forall n, (n < 0)%Z -> convert_segment_value seg (int_str n) = None) /\
  (forall value,
     convert_segment_value seg value = None <-> forallb is_digit value = false).
Proof.
  intros Hseg. unfold convert_segment_value. rewrite Hseg. split; [|split].
  - intros n Hn. destruct (int_str_nonneg n Hn) as [Hd Hv].
    by rewrite Hd, (strtol_of_digits _ Hd), Hv.
  - intros n Hn. destruct n as [|p|p]; [lia|lia|]. done.
  - intros value. by destruct (forallb is_digit value).
Qed.

(** X21: a [uuid] segment accepts the string form of every UUID and gives
    the UUID back; it rejects every token that is not 36 bytes long. *)
Theorem uuid_segment_values seg :
  seg_type seg = SEG_DYNAMIC_UUID ->
  (forall u, (0 <= u < 2 ^ 128)%Z ->
     convert_segment_value seg (uuid_str u) = Some (PyUUID u)) /\
  (forall value, length value <> 36 -> convert_segment_value seg value = None).
Proof.
  intros Hseg. unfold convert_segment_value. rewrite Hseg. split.
  - intros u Hu. by rewrite uuid_format_str, uuid_int_str.
  - intros value Hlen. unfold uuid_format.
    by destruct (Nat.eqb_spec (length value) 36).
Qed.

End value_facts.

Section match_values.
Context `{FloatModel}.

(** One dynamic segment of the walk: the token it takes from the path. *)
Lemma match_segments_step seg rest p acc v out :
  is_dynamic seg = true ->
  match_segments (seg :: rest) p acc = Some (v, out) ->
  exists n val,
    0 < n /\ n <= length p /\
    convert_segment_value seg (firstn n p) = Some val /\
    (seg_type seg <> SEG_DYNAMIC_PATH -> forallb (not_char "/") (firstn n p) = true) /\
    match_segments rest (skipn n p) (<[var_name seg := val]> acc) = Some (v, out).
Proof.
  unfold is_dynamic. intros Hd. cbn [match_segments].
  destruct (seg_type seg) eqn:Ht; try discriminate Hd.
  all: try (
    destruct (Nat.eqb_spec (scan_while (not_char "/") p) 0) as [|Hn]; [done|];
    destruct (convert_segment_value seg _) as [val|] eqn:Hv; [|done];
    cbn [mbind option_bind]; intros Hm;
    exists (scan_while (not_char "/") p), val;
    split; [lia|]; split; [apply scan_while_le|]; split; [done|];
    split; [intros _; apply scan_while_prefix|done]).
  destruct (Nat.leb_spec (length p) (trailing_static_len rest)) as [|Hl]; [done|].
  destruct (Nat.eqb_spec (length p - trailing_static_len rest) 0) as [|Hn]; [done|].
  destruct (convert_segment_value seg _) as [val|] eqn:Hv; [|done].
  cbn [mbind option_bind]. intros Hm.
  exists (length p - trailing_static_len rest), val.
  split; [lia|]. split; [lia|]. split; [done|]. split; [by intros []|done].
Qed.

Lemma match_segments_static seg rest p acc v out :
  is_dynamic seg = false ->
  match_segments (seg :: rest) p acc = Some (v, out) ->
  match_segments rest (skipn (length (static_text seg)) p) acc = Some (v, out).
Proof.
  unfold is_dynamic. intros Hd. cbn [match_segments].
  destruct (seg_type seg) eqn:Ht; try discriminate Hd.
  by destruct (_ || _).
Qed.

Lemma match_segments_values segs : forall p acc v out path0 a,
  path0 = a ++ p ->
  match_segments segs p acc = Some (v, out) ->
  (forall k, is_Some (v !! k) <->
     is_Some (acc !! k) \/
     exists seg, seg ∈ segs /\ is_dynamic seg = true /\ var_name seg = k) /\
  (forall k val, v !! k = Some val ->
     acc !! k = Some val \/
     exists seg token b c,
       seg ∈ segs /\ is_dynamic seg = true /\ var_name seg = k /\
       convert_segment_value seg token = Some val /\ token <> [] /\
       path0 = b ++ token ++ c /\
       (seg_type seg <> SEG_DYNAMIC_PATH -> forallb (not_char "/") token = true)).
Proof.
  induction segs as [|seg rest IH]; intros p acc v out path0 a Hp.
  - intros [= <- <-]. split.
    + intros k. split; [by left|]. intros [?|(seg & Hin & _)]; [done|].
      by apply elem_of_nil in Hin.
    + intros k val Hk. by left.
  - destruct (is_dynamic seg) eqn:Hd.
    + intros (n & val & Hn & Hlen & Hv & Hslash & Hm)%match_segments_step; [|done].
      destruct (IH (skipn n p) (<[var_name seg := val]> acc) v out path0
                  (a ++ firstn n p)) as [Hdom Hval];
        [by rewrite <- app_assoc, firstn_skipn|done|].
      split.
      * intros k. rewrite Hdom. split.
        -- intros [Hk|(s & Hin & Hs & Hk)].
           ++ destruct (decide (var_name seg = k)) as [<-|Hne].
              ** right. exists seg. split; [by left|done].
              ** left. by rewrite lookup_insert_ne in Hk.
           ++ right. exists s. split; [by right|done].
        -- intros [Hk|(s & Hin & Hs & Hk)].
           ++ left. destruct (decide (var_name seg = k)) as [<-|Hne].
              ** rewrite lookup_insert_eq. by eexists.
              ** by rewrite lookup_insert_ne.
           ++ apply elem_of_cons in Hin as [->|Hin].
              ** left. rewrite Hk, lookup_insert_eq. by eexists.
              ** right. by exists s.
      * intros k val' Hk. apply Hval in Hk as [Hk|(s & tok & b & c & Hin & Hrest)].
        -- destruct (decide (var_name seg = k)) as [<-|Hne].
           ++ rewrite lookup_insert_eq in Hk. injection Hk as <-. right.
              exists seg, (firstn n p), a, (skipn n p).
              split; [by left|]. split; [done|]. split; [done|]. split; [done|].
              split; [|split; [by rewrite firstn_skipn|done]].
              intros E. apply (f_equal length) in E.
              rewrite length_firstn in E. simpl in E. lia.
           ++ left. by rewrite lookup_insert_ne in Hk.
        -- right. exists s, tok, b, c. split; [by right|done].
    + intros Hm%match_segments_static; [|done].
      destruct (IH (skipn (length (static_text seg)) p) acc v out path0
                  (a ++ firstn (length (static_text seg)) p)) as [Hdom Hval];
        [by rewrite <- app_assoc, firstn_skipn|done|].
      split.
      * intros k. rewrite Hdom. split.
        -- intros [?|(s & Hin & Hs)]; [by left|]. right. exists s. split; [by right|done].
        -- intros [?|(s & Hin & Hs & Hk)]; [by left|].
           apply elem_of_cons in Hin as [->|Hin]; [congruence|].
           right. by exists s.
      * intros k val Hk. apply Hval in Hk as [?|(s & tok & b & c & Hin & Hrest)]; [by left|].
        right. exists s, tok, b, c. split; [by right|done].
Qed.

(** X22: when a rule matches a path, the dict has a value for each variable
    of the rule and for nothing else, and every value is what the
    converter of a segment with that variable makes of a piece of the
    path that is not empty and, unless the segment is a [path] segment,
    has no [/]. *)
Theorem match_captures_every_variable r path v :
  Cruet_Rule_match_internal r path = Some v ->
  (forall k, is_Some (v !! k) <->
     exists seg, seg ∈ segments r /\ is_dynamic seg = true /\ var_name seg = k) /\
  (forall k val, v !! k = Some val ->
     exists seg token b c,
       seg ∈ segments r /\ is_dynamic seg = true /\ var_name seg = k /\
       convert_segment_value seg token = Some val /\ token <> [] /\
       path = b ++ token ++ c /\
       (seg_type seg <> SEG_DYNAMIC_PATH -> forallb (not_char "/") token = true)).
Proof.
  intros (out & Hm & _)%Cruet_Rule_match_internal_iff.
  destruct (match_segments_values _ _ _ _ _ path [] eq_refl Hm) as [Hdom Hval].
  split.
  - intros k. rewrite Hdom. split; [|by right].
    intros [Hk|?]; [|done]. rewrite lookup_empty in Hk. by destruct Hk.
  - intros k val Hk. apply Hval in Hk as [Hk|?]; [|done].
    by rewrite lookup_empty in Hk.
Qed.

End match_values.


Section match_build.
Context `{FloatModel}.

Lemma variables_cons seg rest :
  variables (seg :: rest) =
  if is_dynamic seg then var_name seg :: variables rest else variables rest.
Proof.
  unfold variables. rewrite filter_cons.
  destruct (is_dynamic seg); [by rewrite decide_True|by rewrite decide_False].
Qed.

Lemma textual_value seg token val :
  textual seg = true -> convert_segment_value seg token = Some val ->
  val = PyStr token.
Proof.
  unfold textual, convert_segment_value.
  destruct (seg_type seg); try done; try (by intros _ [= <-]).
  intros _. destruct (any_items seg); [|by intros [= <-]].
  destruct (bool_decide _); [by intros [= <-]|done].
Qed.

(** The walk over textual segments with distinct variables reads what
    [build] writes from its dict. *)
Lemma match_segments_rebuild segs : forall p acc v out,
  forallb textual segs = true -> NoDup (variables segs) ->
  match_segments segs p acc = Some (v, out) ->
  (forall k, k ∉ variables segs -> v !! k = acc !! k) /\
  exists consumed, p = consumed ++ out /\ build_parts segs v = inl consumed.
Proof.
  induction segs as [|seg rest IH]; intros p acc v out Htext Hnd.
  - intros [= <- <-]. split; [done|]. by exists [].
  - cbn [forallb] in Htext. apply andb_true_iff in Htext as [Hseg Hrest].
    rewrite variables_cons in Hnd |- *. destruct (is_dynamic seg) eqn:Hd.
    + apply NoDup_cons in Hnd as [Hnotin Hnd].
      intros (n & val & Hn & Hlen & Hv & _ & Hm)%match_segments_step; [|done].
      apply (textual_value _ _ _ Hseg) in Hv as ->.
      destruct (IH _ _ _ _ Hrest Hnd Hm) as (Hkeep & consumed & Hp & Hb).
      assert (Hvar : v !! var_name seg = Some (PyStr (firstn n p))).
      { by rewrite (Hkeep _ Hnotin), lookup_insert_eq. }
      split.
      * intros k Hk. apply not_elem_of_cons in Hk as [Hne Hk].
        rewrite (Hkeep _ Hk). by rewrite lookup_insert_ne.
      * exists (firstn n p ++ consumed). split.
        -- by rewrite <- app_assoc, <- Hp, firstn_skipn.
        -- cbn [build_parts]. unfold is_dynamic in Hd.
           apply negb_true_iff in Hd. rewrite Hd, Hvar. cbn [fmap option_fmap option_map py_str].
           by rewrite Hb.
    + intros Hm. pose proof Hm as Hm'.
      apply match_segments_static in Hm'; [|done].
      destruct (IH _ _ _ _ Hrest Hnd Hm') as (Hkeep & consumed & Hp & Hb).
      split; [done|].
      unfold is_dynamic in Hd. apply negb_false_iff in Hd.
      assert (Hpre : firstn (length (static_text seg)) p = static_text seg).
      { cbn [match_segments] in Hm. destruct (seg_type seg); try done.
        destruct (Nat.ltb_spec (length p) (length (static_text seg))); [done|].
        cbn [orb] in Hm.
        destruct (bytes_eqb (firstn _ p) (static_text seg)) eqn:E; [|done].
        by apply bytes_eqb_eq in E. }
      exists (static_text seg ++ consumed). split.
      * by rewrite <- app_assoc, <- Hp, <- Hpre at 1; rewrite firstn_skipn.
      * cbn [build_parts]. by rewrite Hd, Hb.
Qed.

(** X24: for a rule whose dynamic segments are [string], [path] and [any]
    segments with distinct variables, [build] on the dict of a match
    gives the matched path back, less the one trailing [/] that a rule
    that is not strict lets pass. *)
Theorem match_then_build r path v :
  forallb textual (segments r) = true -> NoDup (variables (segments r)) ->
  Cruet_Rule_match_internal r path = Some v ->
  Rule_build r v = Built path \/
  (strict_slashes r = false /\ exists url, Rule_build r v = Built url /\ path = url ++ B "/").
Proof.
  intros Htext Hnd (out & Hm & Hout)%Cruet_Rule_match_internal_iff.
  destruct (match_segments_rebuild _ _ _ _ _ Htext Hnd Hm) as (_ & consumed & -> & Hb).
  unfold Rule_build. rewrite Hb. destruct Hout as [->|[Hs ->]].
  - left. by rewrite app_nil_r.
  - right. split; [done|]. by exists consumed.
Qed.

End match_build.

Lemma static_index_count_and_capacity_witness :
  exists r1 r2 m,
    Rule_init (B "/a") (Some (B "a")) None true = Some r1 /\
    Rule_init (B "/b") (Some (B "b")) None true = Some r2 /\
    Map_of [r1; r2; r1] = Some m /\
    count (static_index m) = size (static_patterns [r1; r2; r1]) /\
    count (static_index m) = occ (entries (static_index m)) /\
    count (static_index m) * 100
      <= length (entries (static_index m)) * STATIC_INDEX_LOAD_FACTOR /\
    exists n, length (entries (static_index m)) = STATIC_INDEX_INITIAL_CAP * 2 ^ n.
Proof.
  eexists _, _, _. split; [vm_compute; reflexivity|]. split; [vm_compute; reflexivity|].
  match goal with |- Map_of ?l = _ /\ _ => set (rs := l) end.
  split; [vm_compute; reflexivity|].
  apply (static_index_count_and_capacity rs). vm_compute. reflexivity.
Defined.

Lemma static_index_grow_keeps_lookups_witness :
  exists r1 r2 m,
    Rule_init (B "/a") (Some (B "a")) None true = Some r1 /\
    Rule_init (B "/b") (Some (B "b")) None true = Some r2 /\
    Map_of [r1; r2] = Some m /\
    exists idx',
      static_index_grow (static_index m) = Some idx' /\
      length (entries idx') = length (entries (static_index m)) * 2 /\
      count idx' = count (static_index m) /\
      forall k, static_index_lookup idx' k = static_index_lookup (static_index m) k.
Proof.
  eexists _, _, _. split; [vm_compute; reflexivity|]. split; [vm_compute; reflexivity|].
  match goal with |- Map_of ?l = _ /\ _ => set (rs := l) end.
  split; [vm_compute; reflexivity|].
  apply (static_index_grow_keeps_lookups rs). vm_compute. reflexivity.
Defined.

Lemma match_winner_witness :
  exists rS rD m,
    Rule_init (B "/u/me") (Some (B "s")) (Some [B "POST"]) true = Some rS /\
    Rule_init (B "/u/<n>") (Some (B "d")) None true = Some rD /\
    Map_of [rS; rD] = Some m /\
    ((exists r, @static_probe [rS; rD] (B "/u/me") = Some r /\
                allows r (B "GET") = true /\
                B "d" = endpoint_or_empty r /\
                ({[ B "n" := PyStr (B "me") ]} : gmap bytes (@PyVal no_floats)) = ∅) \/
     ((forall r, static_probe [rS; rD] (B "/u/me") = Some r -> allows r (B "GET") = false) /\
      exists pre r post,
        dynamic_of [rS; rD] = pre ++ r :: post /\
        Forall (fun r' => @Cruet_Rule_match_internal no_floats r' (B "/u/me") = None \/
                          allows r' (B "GET") = false) pre /\
        @Cruet_Rule_match_internal no_floats r (B "/u/me")
          = Some {[ B "n" := PyStr (B "me") ]} /\
        allows r (B "GET") = true /\ B "d" = endpoint_or_empty r)).
Proof.
  eexists _, _, _. split; [vm_compute; reflexivity|]. split; [vm_compute; reflexivity|].
  match goal with |- Map_of ?l = _ /\ _ => set (rs := l) end.
  split; [vm_compute; reflexivity|].
  eapply (@match_winner no_floats rs _ [] (B "/u/me") (B "GET")).
  - vm_compute. reflexivity.
  - vm_compute. reflexivity.
Defined.


Lemma static_rule_behaviour_witness :
  exists r,
    Rule_init (B "/about") (Some (B "about")) None false = Some r /\
    (is_static r = true <-> forallb (not_char "<") (B "/about") = true) /\
    (is_static r = true ->
     (forall values, @Rule_build no_floats r values = Built (B "/about")) /\
     (forall path v,
        @Cruet_Rule_match_internal no_floats r path = Some v <->
        v = ∅ /\ (path = B "/about" \/ (false = false /\ path = B "/about" ++ B "/")))).
Proof.
  eexists. split; [vm_compute; reflexivity|].
  apply (@static_rule_behaviour no_floats (B "/about") (Some (B "about")) None false).
  vm_compute. reflexivity.
Defined.

Lemma build_uses_first_rule_of_endpoint_witness :
  exists r1 r2 m,
    Rule_init (B "/a/<x>") (Some (B "e")) None true = Some r1 /\
    Rule_init (B "/b/<x>") (Some (B "e")) None true = Some r2 /\
    Map_of [r1; r2] = Some m /\
    (@MapAdapter_build no_floats (Map_bind m []) (B "e") ∅ = NoRuleForEndpoint <->
     forall r, r ∈ [r1; r2] -> endpoint r <> Some (B "e")) /\
    (forall pre r post,
       [r1; r2] = pre ++ r :: post -> endpoint r = Some (B "e") ->
       (forall r', r' ∈ pre -> endpoint r' <> Some (B "e")) ->
       @MapAdapter_build no_floats (Map_bind m []) (B "e") ∅ = @Rule_build no_floats r ∅).
Proof.
  eexists _, _, _. split; [vm_compute; reflexivity|]. split; [vm_compute; reflexivity|].
  match goal with |- Map_of ?l = _ /\ _ => set (rs := l) end.
  split; [vm_compute; reflexivity|].
  apply (@build_uses_first_rule_of_endpoint no_floats rs). vm_compute. reflexivity.
Defined.


Lemma allows_iff_in_methods_witness :
  exists r,
    Rule_init (B "/x") None (Some [B "post"; B "Purge"]) true = Some r /\
    (allows r (B "purge") = true <-> method_upper (B "purge") ∈ Rule_get_methods r).
Proof.
  eexists. split; [vm_compute; reflexivity|].
  apply allows_iff_in_methods.
  exists (B "/x"), None, (Some [B "post"; B "Purge"]), true.
  vm_compute. reflexivity.
Defined.

Lemma parse_rule_segments_marker_witness :
  parse_rule_segments (B "/user/" ++ "<" :: B "int:id" ++ ">" :: B "/edit") =
  segs ← parse_rule_segments (B "/edit");
  Some ([static_segment (B "/user/")] ++ dynamic_segment (B "int:id") :: segs).
Proof.
  apply (parse_rule_segments_marker (B "/user/") (B "int:id") (B "/edit")).
  - vm_compute. reflexivity.
  - vm_compute. reflexivity.
Defined.

Lemma int_segment_values_witness :
  let seg := {| seg_type := SEG_DYNAMIC_INT; static_text := []; var_name := B "id";
                any_items := None |} in
  (forall n, (0 <= n)%Z ->
     @convert_segment_value no_floats seg (int_str n) = Some (PyLong (Z.min LONG_MAX n))) /\
  (forall n, (n < 0)%Z -> @convert_segment_value no_floats seg (int_str n) = None) /\
  (forall value,
     @convert_segment_value no_floats seg value = None <-> forallb is_digit value = false).
Proof.
  apply (@int_segment_values no_floats
           {| seg_type := SEG_DYNAMIC_INT; static_text := []; var_name := B "id";
              any_items := None |}).
  reflexivity.
Defined.

Lemma uuid_segment_values_witness :
  let seg := {| seg_type := SEG_DYNAMIC_UUID; static_text := []; var_name := B "id";
                any_items := None |} in
  (forall u, (0 <= u < 2 ^ 128)%Z ->
     @convert_segment_value no_floats seg (uuid_str u) = Some (PyUUID u)) /\
  (forall value, length value <> 36 -> @convert_segment_value no_floats seg value = None).
Proof.
  apply (@uuid_segment_values no_floats
           {| seg_type := SEG_DYNAMIC_UUID; static_text := []; var_name := B "id";
              any_items := None |}).
  reflexivity.
Defined.

Lemma match_captures_every_variable_witness :
  exists r v,
    Rule_init (B "/u/<int:id>/f/<path:p>") (Some (B "file")) None true = Some r /\
    @Cruet_Rule_match_internal no_floats r (B "/u/7/f/a/b.txt") = Some v /\
    (forall k, is_Some (v !! k) <->
       exists seg, seg ∈ segments r /\ is_dynamic seg = true /\ var_name seg = k) /\
    (forall k val, v !! k = Some val ->
       exists seg token b c,
         seg ∈ segments r /\ is_dynamic seg = true /\ var_name seg = k /\
         @convert_segment_value no_floats seg token = Some val /\ token <> [] /\
         B "/u/7/f/a/b.txt" = b ++ token ++ c /\
         (seg_type seg <> SEG_DYNAMIC_PATH -> forallb (not_char "/") token = true)).
Proof.
  eexists _, _. split; [vm_compute; reflexivity|].
  match goal with |- Cruet_Rule_match_internal ?x _ = _ /\ _ => set (r := x) end.
  split; [vm_compute; reflexivity|].
  apply (@match_captures_every_variable no_floats r (B "/u/7/f/a/b.txt")).
  vm_compute. reflexivity.
Defined.


Lemma match_then_build_witness :
  exists r v,
    Rule_init (B "/u/<name>/f/<path:p>") (Some (B "file")) None false = Some r /\
    @Cruet_Rule_match_internal no_floats r (B "/u/bob/f/a/b.txt/") = Some v /\
    (@Rule_build no_floats r v = Built (B "/u/bob/f/a/b.txt/") \/
     (strict_slashes r = false /\
      exists url, @Rule_build no_floats r v = Built url /\
                  B "/u/bob/f/a/b.txt/" = url ++ B "/")).
Proof.
  eexists _, _. split; [vm_compute; reflexivity|].
  match goal with |- Cruet_Rule_match_internal ?x _ = _ /\ _ => set (r := x) end.
  split; [vm_compute; reflexivity|].
  apply (@match_then_build no_floats r (B "/u/bob/f/a/b.txt/")).
  - vm_compute. reflexivity.
  - vm_compute. repeat (apply NoDup_cons_2; [by (intros Hin; vm_compute in Hin; inversion Hin as [|? ? ? Hin2]; subst; try inversion Hin2)|]). apply NoDup_nil_2.
  - vm_compute. reflexivity.
Defined.

End RoutingProps.

(** ** Percent encoding and the query string parser *)

Module QueryStringProps.
Import PercentEncode QueryString.

(** *** Percent encoding *)

Lemma decode_encode_byte c t :
  cruet_percent_decode (encode_byte c ++ t) = c :: cruet_percent_decode t.
Proof. destruct c as [[] [] [] [] [] [] [] []]; reflexivity. Qed.

Lemma decode_encode_all s :
  cruet_percent_decode (cruet_percent_encode s) = s.
Proof.
  unfold cruet_percent_encode. induction s as [|c s IH]; [done|].
  cbn [flat_map]. by rewrite decode_encode_byte, IH.
Qed.

(** X25: decoding what [cruet_percent_encode] gives returns the bytes that
    were encoded, whatever they are. *)
Theorem percent_decode_encode s :
  cruet_percent_decode (cruet_percent_encode s) = s.
Proof. apply decode_encode_all. Qed.

Lemma encode_byte_safe c :
  forallb (fun d => negb (needs_encode d) || Ascii.eqb d "%") (encode_byte c) = true /\
  ((1 <=? length (encode_byte c)) && (length (encode_byte c) <=? 3))%nat = true.
Proof. destruct c as [[] [] [] [] [] [] [] []]; split; reflexivity. Qed.

Lemma encode_chars s :
  Forall (fun d => needs_encode d = false \/ d = "%") (cruet_percent_encode s).
Proof.
  unfold cruet_percent_encode. induction s as [|c s IH]; [constructor|].
  cbn [flat_map]. destruct (encode_byte_safe c) as [Hc _].
  apply Forall_app. split; [|done]. apply Forall_forall. intros d Hd.
  rewrite forallb_forall in Hc. apply list_elem_of_In, Hc in Hd.
  apply orb_true_iff in Hd as [Hd%negb_true_iff|Hd%Ascii.eqb_eq]; [by left|by right].
Qed.

(** X26: [cruet_percent_encode] gives only letters, digits, [-], [_], [.],
    [~] and [%]; every byte gives one byte or three, and a string of
    bytes that need no encoding is given back as it is. *)
Theorem percent_encode_safe s :
  Forall (fun d => needs_encode d = false \/ d = "%") (cruet_percent_encode s) /\
  length s <= length (cruet_percent_encode s) <= 3 * length s /\
  (forallb (fun c => negb (needs_encode c)) s = true -> cruet_percent_encode s = s).
Proof.
  split; [apply encode_chars|].
  unfold cruet_percent_encode. induction s as [|c s (IH2 & IH3)].
  - split; [simpl; lia|done].
  - cbn [flat_map]. destruct (encode_byte_safe c) as [_ Hl].
    apply andb_true_iff in Hl as [Hl1%Nat.leb_le Hl2%Nat.leb_le]. split.
    + rewrite length_app. simpl. lia.
    + cbn [forallb]. intros [Hn Hs]%andb_true_iff. rewrite (IH3 Hs).
      unfold encode_byte. apply negb_true_iff in Hn. by rewrite Hn.
Qed.

(** Induction for the decoders, which step by one byte or by three. *)
Lemma decode_ind (P : bytes -> Prop) :
  P [] ->
  (forall c rest,
     P rest -> (forall h l rest', rest = h :: l :: rest' -> P rest') ->
     P (c :: rest)) ->
  forall s, P s.
Proof.
  intros Hnil Hcons s.
  assert (H : forall n s, length s <= n -> P s); [|by apply (H (length s))].
  induction n as [|n IH]; intros [|c rest] Hlen; simpl in Hlen; try done; [lia|].
  apply Hcons.
  - apply IH. lia.
  - intros h l rest' ->. apply IH. simpl in Hlen. lia.
Qed.


Lemma qs_decode_percent s : qs_decode s = cruet_percent_decode s.
Proof.
  induction s as [|c rest IH IH'] using decode_ind; [done|].
  cbn [qs_decode cruet_percent_decode]. change qs_hex with hex_digit.
  rewrite IH. destruct (Ascii.eqb c "%"); [|done].
  destruct rest as [|h [|l rest']]; [done|done|].
  by rewrite (IH' h l rest' eq_refl).
Qed.


(** *** The query string parser *)

Lemma pairs_of_scan p :
  pairs_of p =
  firstn (scan_while in_pair p) p ::
  match skipn (scan_while in_pair p) p with
  | [] => []
  | _ :: rest => pairs_of rest
  end.
Proof.
  induction p as [|c p IH]; [done|]. cbn [pairs_of scan_while].
  destruct (in_pair c); [|done]. rewrite IH. done.
Qed.

(** What a pair adds to the values of [key]. *)
Lemma add_pair_lookup result pair key :
  default [] (add_pair result pair !! key) =
  default [] (result !! key) ++
  (if decide (pair_key pair = key) then [pair_value pair] else []).
Proof.
  unfold add_pair. fold (pair_key pair). fold (pair_value pair).
  destruct (decide (pair_key pair = key)) as [<-|Hne].
  - destruct (result !! pair_key pair) as [l|] eqn:E; by rewrite lookup_insert_eq.
  - rewrite app_nil_r.
    destruct (result !! pair_key pair) as [l|]; by rewrite lookup_insert_ne.
Qed.

(** A pair never leaves an empty list, or takes a key away. *)
Lemma add_pair_keeps result pair :
  map_Forall (fun _ l => l <> []) result ->
  map_Forall (fun _ l => l <> []) (add_pair result pair).
Proof.
  intros Hr. unfold add_pair.
  destruct (result !! _) as [l|]; apply map_Forall_insert_2; try done.
  by destruct l.
Qed.

Lemma parse_qs_loop_unfold fuel p result :
  p <> [] ->
  parse_qs_loop (S fuel) p result =
  parse_qs_loop fuel (skipn (scan_while in_pair p + 1) p)
    (if (0 <? scan_while in_pair p)%nat
     then add_pair result (firstn (scan_while in_pair p) p) else result).
Proof. by destruct p. Qed.

Lemma parse_qs_loop_spec fuel : forall p result,
  length p <= fuel ->
  exists out,
    parse_qs_loop fuel p result = Some out /\
    (map_Forall (fun _ l => l <> []) result -> map_Forall (fun _ l => l <> []) out) /\
    forall key,
      default [] (out !! key) = default [] (result !! key) ++ pair_values (pairs_of p) key.
Proof.
  induction fuel as [|fuel IH]; intros [|c p] result Hlen; simpl in Hlen; try lia.
  - exists result. split; [done|]. split; [done|]. intros key.
    unfold pair_values. cbn [pairs_of]. rewrite filter_cons, filter_nil.
    destruct (decide _) as [[? _]|]; [done|]. by rewrite app_nil_r.
  - exists result. split; [done|]. split; [done|]. intros key.
    unfold pair_values. cbn [pairs_of]. rewrite filter_cons, filter_nil.
    destruct (decide _) as [[? _]|]; [done|]. by rewrite app_nil_r.
  - remember (c :: p) as q eqn:Eq.
    rewrite parse_qs_loop_unfold by (by rewrite Eq).
    set (n := scan_while in_pair q).
    set (result' := if (0 <? n)%nat then add_pair result (firstn n q) else result).
    assert (Hq : length q = S (length p)) by (by rewrite Eq).
    destruct (IH (skipn (n + 1) q) result') as (out & Hout & Hne & Hval).
    { rewrite length_skipn. lia. }
    exists out. split; [done|]. split.
    + intros Hr. apply Hne. unfold result'. destruct (0 <? n)%nat; [|done].
      by apply add_pair_keeps.
    + intros key. rewrite Hval, (pairs_of_scan q). fold n.
      unfold pair_values at 2. rewrite filter_cons.
      assert (Htail : pair_values (pairs_of (skipn (n + 1) q)) key =
                      pair_values match skipn n q with
                                  | [] => []
                                  | _ :: rest => pairs_of rest
                                  end key).
      { replace (skipn (n + 1) q) with (skipn 1 (skipn n q))
          by (rewrite skipn_skipn; f_equal; lia).
        destruct (skipn n q) as [|d rest]; [|done].
        unfold pair_values. cbn [skipn pairs_of]. rewrite filter_cons, filter_nil.
        by destruct (decide _) as [[? _]|]. }
      rewrite Htail. unfold result'.
      destruct (Nat.ltb_spec 0 n) as [Hn|Hn].
      * rewrite add_pair_lookup.
        assert (firstn n q <> []).
        { intros E. apply (f_equal length) in E. rewrite length_firstn in E.
          simpl in E. lia. }
        destruct (decide (pair_key (firstn n q) = key)) as [Hk|Hk].
        -- rewrite decide_True by done. by rewrite fmap_cons, <- app_assoc.
        -- rewrite decide_False by (by intros [_ ?]). by rewrite app_nil_r.
      * replace n with 0 by lia. cbn [firstn].
        by rewrite decide_False by (by intros [? _]).
Qed.

Lemma parse_qs_lookup s key :
  default [] (cruet_parse_qs s !! key) = pair_values (pairs_of s) key /\
  (cruet_parse_qs s !! key = None <-> pair_values (pairs_of s) key = []).
Proof.
  unfold cruet_parse_qs.
  destruct (parse_qs_loop_spec (length s) s ∅ (le_n _)) as (out & -> & Hne & Hval).
  specialize (Hval key). rewrite lookup_empty in Hval. cbn [from_option id app] in Hval.
  split; [done|]. rewrite <- Hval.
  destruct (out !! key) as [l|] eqn:E; cbn [from_option id]; [|done].
  split; [done|]. intros ->. by apply (Hne (map_Forall_empty _) key []) in E.
Qed.

(** X28: the dict that [parse_qs] returns gives to each key the decoded
    values of the pairs with that decoded key, in the order of the query
    string, the pairs being its pieces between [&] and [;] and an empty
    piece counting for nothing; a key is in the dict only with a list
    that is not empty. *)
Theorem parse_qs_values s key :
  default [] (cruet_parse_qs s !! key) = pair_values (pairs_of s) key /\
  (cruet_parse_qs s !! key = None <-> pair_values (pairs_of s) key = []).
Proof. apply parse_qs_lookup. Qed.

Lemma pairs_of_cons p : exists seg segs, pairs_of p = seg :: segs.
Proof. rewrite pairs_of_scan. by eexists _, _. Qed.

Lemma pairs_of_app a sep b :
  in_pair sep = false -> pairs_of (a ++ sep :: b) = pairs_of a ++ pairs_of b.
Proof.
  intros Hsep. induction a as [|c a IH]; cbn [app pairs_of].
  - by rewrite Hsep.
  - rewrite IH. destruct (in_pair c); [|done].
    by destruct (pairs_of_cons a) as (seg & segs & ->).
Qed.

Lemma pairs_of_single seg : forallb in_pair seg = true -> pairs_of seg = [seg].
Proof.
  induction seg as [|c seg IH]; cbn [forallb pairs_of]; [done|].
  intros [-> Hs]%andb_true_iff. by rewrite (IH Hs).
Qed.

(** X29: the values that [parse_qs] gives to a key for two query strings
    joined by [&] or [;] are its values for the first followed by its
    values for the second. *)
Theorem parse_qs_concat a sep b key :
  sep = "&" \/ sep = ";" ->
  default [] (cruet_parse_qs (a ++ sep :: b) !! key) =
  default [] (cruet_parse_qs a !! key) ++ default [] (cruet_parse_qs b !! key).
Proof.
  intros Hsep.
  rewrite !(proj1 (parse_qs_lookup _ _)), pairs_of_app by (by destruct Hsep as [->| ->]).
  unfold pair_values. by rewrite filter_app, fmap_app.
Qed.

Lemma encode_in_pair s (c : ascii) :
  needs_encode c = true -> c <> "%" ->
  forallb (fun d => negb (Ascii.eqb d c)) (cruet_percent_encode s) = true.
Proof.
  intros Hc Hp. apply forallb_forall. intros d Hd%list_elem_of_In.
  pose proof (encode_chars s) as Hall. rewrite Forall_forall in Hall.
  apply negb_true_iff, Ascii.eqb_neq. intros ->.
  destruct (Hall _ Hd) as [Hn| ->]; congruence.
Qed.

(** The pair [key=value] of an encoded key and an encoded value. *)
Lemma encoded_pair k v :
  let pair := cruet_percent_encode k ++ "=" :: cruet_percent_encode v in
  forallb in_pair pair = true /\ pair <> [] /\
  pair_key pair = k /\ pair_value pair = v.
Proof.
  cbn zeta. split; [|split; [|split]].
  - rewrite forallb_app. cbn [forallb]. apply andb_true_iff. split; [|apply andb_true_iff; split; [done|]].
    + apply forallb_forall. intros d Hd. unfold in_pair.
      pose proof (encode_in_pair k "&" eq_refl) as H1.
      pose proof (encode_in_pair k ";" eq_refl) as H2.
      rewrite forallb_forall in H1, H2. by rewrite H1, H2.
    + apply forallb_forall. intros d Hd. unfold in_pair.
      pose proof (encode_in_pair v "&" eq_refl) as H1.
      pose proof (encode_in_pair v ";" eq_refl) as H2.
      rewrite forallb_forall in H1, H2. by rewrite H1, H2.
  - by destruct (cruet_percent_encode k).
  - unfold pair_key. rewrite scan_while_stop; [|by apply (encode_in_pair k "=")|done].
    by rewrite firstn_app_exact, qs_decode_percent, decode_encode_all.
  - unfold pair_value. rewrite scan_while_stop; [|by apply (encode_in_pair k "=")|done].
    by rewrite skipn_app_cons, qs_decode_percent, decode_encode_all.
Qed.

Lemma query_of_values kvs key :
  kvs <> [] -> pair_values (pairs_of (query_of kvs)) key = values_of kvs key.
Proof.
  induction kvs as [|[k v] rest IH]; [done|]. intros _.
  destruct (encoded_pair k v) as (Hin & Hne & Hk & Hv).
  assert (Hhead : forall tl,
    pair_values ((cruet_percent_encode k ++ "=" :: cruet_percent_encode v) :: tl) key
    = (if decide (k = key) then [v] else []) ++ pair_values tl key).
  { intros tl. unfold pair_values. rewrite filter_cons, Hk.
    destruct (decide (k = key)) as [Hkey|Hkey].
    - rewrite decide_True by done. by rewrite fmap_cons, Hv.
    - by rewrite decide_False by (by intros [_ ?]). }
  assert (Hvals : values_of ((k, v) :: rest) key
                  = (if decide (k = key) then [v] else []) ++ values_of rest key).
  { unfold values_of. rewrite filter_cons. cbn [fst].
    by destruct (decide (k = key)). }
  rewrite Hvals. destruct rest as [|kv rest].
  - cbn [query_of]. rewrite (pairs_of_single _ Hin), Hhead. done.
  - change (query_of ((k, v) :: kv :: rest))
      with (cruet_percent_encode k ++ "=" :: cruet_percent_encode v
            ++ "&" :: query_of (kv :: rest)).
    replace (cruet_percent_encode k ++ "=" :: cruet_percent_encode v
             ++ "&" :: query_of (kv :: rest))
      with ((cruet_percent_encode k ++ "=" :: cruet_percent_encode v)
            ++ "&" :: query_of (kv :: rest))
      by (by rewrite <- app_assoc).
    rewrite pairs_of_app by done. rewrite (pairs_of_single _ Hin). cbn [app].
    rewrite Hhead, IH by done. done.
Qed.

(** X30: [parse_qs] reads back a query string that lists fields as
    [key=value], percent-encoded, with [&] between them: each key has the
    values of its fields, in order, whatever bytes the keys and the
    values are made of, and no other key is in the dict. *)
Theorem parse_qs_query_of kvs key :
  cruet_parse_qs (query_of kvs) !! key =
  match values_of kvs key with
  | [] => None
  | l => Some l
  end.
Proof.
  destruct (parse_qs_lookup (query_of kvs) key) as [Hval Hnone].
  assert (Hv : pair_values (pairs_of (query_of kvs)) key = values_of kvs key).
  { destruct kvs as [|kv kvs]; [|by apply query_of_values].
    unfold pair_values, values_of. cbn [query_of pairs_of].
    rewrite filter_cons, filter_nil. by destruct (decide _) as [[? _]|]. }
  rewrite Hv in Hval, Hnone.
  destruct (values_of kvs key) as [|x l].
  - by apply Hnone.
  - destruct (cruet_parse_qs (query_of kvs) !! key) as [l'|]; [|done].
    cbn [from_option id] in Hval. by rewrite Hval.
Qed.

Lemma parse_qs_concat_witness :
  default [] (cruet_parse_qs (B "a=1&b=2" ++ ";" :: B "a=3") !! B "a") =
  default [] (cruet_parse_qs (B "a=1&b=2") !! B "a")
  ++ default [] (cruet_parse_qs (B "a=3") !! B "a").
Proof.
  apply (parse_qs_concat (B "a=1&b=2") ";" (B "a=3") (B "a")).
  right. reflexivity.
Defined.

End QueryStringProps.
